(** * redutils: pagination and embed batching

    A shallow embedding of [source/utils.py] ([create_embeds],
    [group_items_by]) and [source/paginator.py] ([get_chunks], [Pages],
    [PaginatorView]) together with the properties the specification states
    about them.

    Python integers are [Z], [str] is [string] (with [len] read as
    [String.length], which agrees with Python on ASCII text), lists are
    [list], and an insertion-ordered [dict] is an association list.  Code
    that may raise returns a [result]; code that mutates [self] threads the
    object explicitly and hands it back next to the result, so that what was
    already mutated when an exception is raised stays visible. *)

From Equations Require Import Equations.
From Stdlib Require Import List ZArith String Ascii Bool Lia DecimalString.
Import ListNotations.

Open Scope string_scope.
Open Scope list_scope.
Open Scope Z_scope.

(** ** Exceptions *)

Inductive exn : Type :=
| ZeroDivisionError
| IndexError
| AttributeError
| KeyError
| ValueError
| TypeError
| HTTPException.

Inductive result (A : Type) : Type :=
| Return (a : A)
| Raise (e : exn).

Arguments Return {A} a.
Arguments Raise {A} e.

Definition bind {A B : Type} (m : result A) (k : A -> result B) : result B :=
  match m with
  | Return a => k a
  | Raise e => Raise e
  end.

Notation "x <- m ;; k" := (bind m (fun x => k))
  (at level 61, m at next level, right associativity).

(** [for x in xs: st = body st x], stopping at the first exception. *)
Fixpoint for_each {S A : Type} (body : S -> A -> result S) (st : S) (xs : list A)
  : result S :=
  match xs with
  | [] => Return st
  | x :: xs' => st' <- body st x ;; for_each body st' xs'
  end.

(** [enumerate(xs)], counting from [i]. *)
Fixpoint enumerate_from {A : Type} (i : Z) (xs : list A) : list (Z * A) :=
  match xs with
  | [] => []
  | x :: xs' => (i, x) :: enumerate_from (i + 1) xs'
  end.

Definition enumerate {A : Type} (xs : list A) : list (Z * A) := enumerate_from 0 xs.

Definition len {A : Type} (xs : list A) : Z := Z.of_nat (List.length xs).

Definition str_len (s : string) : Z := Z.of_nat (String.length s).

(** [a % b] on Python integers: floored, and an error when [b] is zero. *)
Definition py_mod (a b : Z) : result Z :=
  if b =? 0 then Raise ZeroDivisionError else Return (a mod b).

Definition newline : string := String "010"%char EmptyString.

(** ** discord.Embed, as far as the library touches it *)

Record Embed : Type := mkEmbed {
  title : string;
  description : string;
  color : option Z;
  footer : option string
}.

Definition Embed_new (c : option Z) : Embed := mkEmbed "" "" c None.

Definition set_description (d : string) (e : Embed) : Embed :=
  mkEmbed (title e) d (color e) (footer e).

Definition set_footer (t : string) (e : Embed) : Embed :=
  mkEmbed (title e) (description e) (color e) (Some t).

Module Utils.

(** *** create_embeds *)

Definition max_desc_length : Z := 4096.

(** The three locals the loop of [create_embeds] updates. *)
Record LoopState : Type := mkLoop {
  embeds : list Embed;
  embed : Embed;
  append_list : bool
}.

(** [embeds.append(embed); embed = discord.Embed(title="", description="", color=color)] *)
Definition close_unit (c : option Z) (st : LoopState) : LoopState :=
  mkLoop (embeds st ++ [embed st]) (Embed_new c) (append_list st).

Section CreateEmbeds.

(** The argument records and [str.format] belong to the caller and to
    Python: [format fmt_line arg] stands for [fmt_line.format( **arg)],
    which may raise. *)
Variable Dict : Type.
Variable format : string -> Dict -> result string.

Variable fmt_line : string.
Variable c : option Z.
Variable per_page : option Z.

(** The first test of the loop body. *)
Definition exceeds (st : LoopState) (line : string) : bool :=
  str_len (description (embed st)) + str_len line + 1 >? max_desc_length.

(** The [elif] test: [per_page is not None and 1 > 0 and i % per_page == 0]. *)
Definition per_page_trigger (i : Z) : result bool :=
  match per_page with
  | None => Return false
  | Some k =>
      if 1 >? 0 then r <- py_mod i k ;; Return (r =? 0) else Return false
  end.

(** The part of the body that decides whether the unit is closed. *)
Definition split_step (st : LoopState) (i : Z) (line : string) : result LoopState :=
  if exceeds st line then Return (close_unit c st)
  else
    fire <- per_page_trigger i ;;
    Return (if fire then close_unit c st else st).

(** One iteration, for the pair [(i, arg)] of [enumerate(arguments)];
    [n] is [len(arguments)].  The source renders the line in the test and
    again when it appends it; [format] is a function, so once is enough. *)
Definition loop_body (n : Z) (st : LoopState) (ia : Z * Dict) : result LoopState :=
  let '(i, arg) := ia in
  line <- format fmt_line arg ;;
  st1 <- split_step st i line ;;
  let e := set_description (description (embed st1) ++ line ++ newline)%string (embed st1) in
  Return (mkLoop (embeds st1) e (if i =? n - 1 then true else append_list st1)).

Definition loop_init : LoopState := mkLoop [] (Embed_new c) false.

Definition create_embeds (arguments : list Dict) : result (option (list Embed)) :=
  match arguments with
  | [] => Return None
  | _ :: _ =>
      st <- for_each (loop_body (len arguments)) loop_init (enumerate arguments) ;;
      Return (Some (if append_list st then embeds st ++ [embed st] else embeds st))
  end.

End CreateEmbeds.

Arguments exceeds st line : simpl never.
Arguments create_embeds {Dict} format fmt_line c per_page arguments.
Arguments loop_body {Dict} format fmt_line c per_page n st ia.

(** A rendering for examples: the fragment of [str.format] with literal
    text, the escapes [{{] and [}}] and named fields [{name}] looked up in a
    record of strings. *)
Definition StrDict : Type := list (string * string).

Fixpoint lookup (name : string) (d : StrDict) : result string :=
  match d with
  | [] => Raise KeyError
  | (k, v) :: d' => if String.eqb k name then Return v else lookup name d'
  end.

Fixpoint str_format_go (s : string) (field : option string) (d : StrDict)
  : result string :=
  match s, field with
  | EmptyString, None => Return ""
  | EmptyString, Some _ => Raise ValueError
  | String ch s', Some name =>
      if Ascii.eqb ch "}" then
        v <- (if String.eqb name "" then Raise IndexError else lookup name d) ;;
        rest <- str_format_go s' None d ;;
        Return (v ++ rest)%string
      else str_format_go s' (Some (name ++ String ch "")%string) d
  | String ch s', None =>
      if Ascii.eqb ch "{" then
        match s' with
        | String ch' s'' =>
            if Ascii.eqb ch' "{" then
              rest <- str_format_go s'' None d ;; Return (String "{" rest)
            else str_format_go s' (Some "") d
        | EmptyString => Raise ValueError
        end
      else if Ascii.eqb ch "}" then
        match s' with
        | String ch' s'' =>
            if Ascii.eqb ch' "}" then
              rest <- str_format_go s'' None d ;; Return (String "}" rest)
            else Raise ValueError
        | EmptyString => Raise ValueError
        end
      else rest <- str_format_go s' None d ;; Return (String ch rest)
  end.

Definition str_format (fmt : string) (d : StrDict) : result string :=
  str_format_go fmt None d.

(** *** group_items_by *)

(** [key.split(".")] *)
Fixpoint split_go (sep : ascii) (s : string) (cur : string) : list string :=
  match s with
  | EmptyString => [cur]
  | String ch s' =>
      if Ascii.eqb ch sep then cur :: split_go sep s' ""
      else split_go sep s' (cur ++ String ch "")%string
  end.

Definition split (sep : ascii) (s : string) : list string := split_go sep s "".

Section GroupItemsBy.

(** Items and the values of their attributes are Python objects:
    [getattr] may raise [AttributeError]; a key of [groups] is hashed,
    which raises [TypeError] on an object that is not [hashable] (a list, a
    dict, a set), and keys are compared with [eqb]. *)
Variable Obj : Type.
Variable getattr : Obj -> string -> result Obj.
Variable hashable : Obj -> bool.
Variable eqb : Obj -> Obj -> bool.

Fixpoint get_attr (obj : Obj) (path : list string) : result Obj :=
  match path with
  | [] => Return obj
  | attr :: path' => o <- getattr obj attr ;; get_attr o path'
  end.

(** [groups], a dict in insertion order. *)
Definition Groups : Type := list (Obj * list Obj).

(** [hash(k)], as far as it matters: whether it raises. *)
Definition hash_key (k : Obj) : result unit :=
  if hashable k then Return tt else Raise TypeError.

Fixpoint dict_contains (k : Obj) (d : Groups) : bool :=
  match d with
  | [] => false
  | (k', _) :: d' => eqb k' k || dict_contains k d'
  end.

(** [d[k] = v] *)
Fixpoint dict_setitem (k : Obj) (v : list Obj) (d : Groups) : Groups :=
  match d with
  | [] => [(k, v)]
  | (k', v') :: d' =>
      if eqb k' k then (k', v) :: d' else (k', v') :: dict_setitem k v d'
  end.

(** [d[k].append(x)] *)
Fixpoint dict_append (k : Obj) (x : Obj) (d : Groups) : result Groups :=
  match d with
  | [] => Raise KeyError
  | (k', v') :: d' =>
      if eqb k' k then Return ((k', v' ++ [x]) :: d')
      else d'' <- dict_append k x d' ;; Return ((k', v') :: d'')
  end.

Definition dict_values (d : Groups) : list (list Obj) := map snd d.

(** The body of the first loop.  [value not in groups] hashes [value]
    before it looks it up, also in a dict that is still empty. *)
Definition group_step (key : string) (groups : Groups) (item : Obj) : result Groups :=
  value <- get_attr item (split "." key) ;;
  _ <- hash_key value ;;
  if negb (dict_contains value groups) then
    dict_append value item (dict_setitem value [] groups)
  else Return groups.

Fixpoint group_items_by (items : list Obj) (key_path : list string) {struct key_path}
  : result (list (list Obj)) :=
  match key_path with
  | [] => Return [items]
  | key :: sub_key_path =>
      groups <- for_each (group_step key) [] items ;;
      for_each
        (fun sub_groups group =>
           r <- group_items_by group sub_key_path ;; Return (sub_groups ++ r))
        [] (dict_values groups)
  end.

End GroupItemsBy.

Arguments get_attr {Obj} getattr obj path.
Arguments group_items_by {Obj} getattr hashable eqb items key_path.

End Utils.

Module Paginator.

(** [sys.maxsize], the largest size [islice] accepts (CPython on a 64-bit
    platform). *)
Definition sys_maxsize : Z := 9223372036854775807.

(** What [iter(lambda: tuple(islice(it, size)), ())] yields once [islice]
    has accepted [size]: tuples of [size] items taken off the iterator until
    an empty tuple comes back. *)
Equations? chunks_of {A : Type} (size : nat) (xs : list A) : list (list A)
  by wf (List.length xs) lt :=
  chunks_of 0 _ := [];
  chunks_of (S k) [] := [];
  chunks_of (S k) (x :: xs') := (x :: firstn k xs') :: chunks_of (S k) (skipn k xs').
Proof.
  rewrite length_skipn. lia.
Qed.

(** [get_chunks(iterable, size)], read to its end as the loop of
    [RedPaginator.start] reads it.  [islice(it, size)] raises [ValueError]
    unless [0 <= size <= sys.maxsize], whatever the iterable holds, when the
    first chunk is asked for. *)
Definition get_chunks {A : Type} (xs : list A) (size : Z) : result (list (list A)) :=
  if (size <? 0) || (sys_maxsize <? size) then Raise ValueError
  else Return (chunks_of (Z.to_nat size) xs).

(** [xs[i]] with Python's negative indices. *)
Definition list_getitem {A : Type} (xs : list A) (i : Z) : result A :=
  let j := if i <? 0 then i + len xs else i in
  if (j <? 0) || (len xs <=? j) then Raise IndexError
  else
    match nth_error xs (Z.to_nat j) with
    | Some x => Return x
    | None => Raise IndexError
    end.

Record Page : Type := mkPage {
  index : Z;
  content : string
}.

Record Pages : Type := mkPages {
  pages : list string;
  cur_page : Z
}.

Definition Pages_init (ps : list string) : Pages := mkPages ps 1.

Definition total (self : Pages) : Z := len (pages self).

Definition current_page (self : Pages) : result Page :=
  c <- list_getitem (pages self) (cur_page self - 1) ;;
  Return (mkPage (cur_page self) c).

(** The navigation properties mutate [self.cur_page] and then read
    [current_page]: each returns its result next to the object as it is left. *)
Definition set_cur_page (cur : Z) (self : Pages) : Pages := mkPages (pages self) cur.

Definition next_page (self : Pages) : result (option Page) * Pages :=
  if cur_page self =? total self then (Return None, self)
  else
    let self' := set_cur_page (cur_page self + 1) self in
    (p <- current_page self' ;; Return (Some p), self').

Definition previous_page (self : Pages) : result (option Page) * Pages :=
  if cur_page self =? 1 then (Return None, self)
  else
    let self' := set_cur_page (cur_page self - 1) self in
    (p <- current_page self' ;; Return (Some p), self').

Definition first_page (self : Pages) : result Page * Pages :=
  let self' := set_cur_page 1 self in (current_page self', self').

Definition last_page (self : Pages) : result Page * Pages :=
  let self' := set_cur_page (total self) self in (current_page self', self').

(** The four navigation operations, to speak of sequences of them. *)
Inductive Nav : Type := NavFirst | NavPrevious | NavNext | NavLast.

Definition some_page (r : result Page * Pages) : result (option Page) * Pages :=
  (p <- fst r ;; Return (Some p), snd r).

Definition navigate (op : Nav) (self : Pages) : result (option Page) * Pages :=
  match op with
  | NavFirst => some_page (first_page self)
  | NavPrevious => previous_page self
  | NavNext => next_page self
  | NavLast => some_page (last_page self)
  end.

Definition navigate_all (ops : list Nav) (self : Pages) : Pages :=
  fold_left (fun p op => snd (navigate op p)) ops self.

(** *** PaginatorView *)

Inductive ButtonStyle : Type := green | grey.

Record Button : Type := mkButton {
  style : ButtonStyle;
  custom_id : string;
  disabled : bool
}.

(** What the view asks of the chat service. *)
Inductive Request : Type :=
| Defer
| EditMessage (e : option Embed) (view : list Button)
| SendMessage (to : Z) (text : string) (ephemeral : bool).

(** An interaction: who acted, and how the service answers each request
    made through it ([HTTPException] when the transport fails). *)
Record Interaction : Type := mkInteraction {
  user_id : Z;
  defer_answer : result unit;
  edit_answer : result unit;
  send_answer : result unit
}.

(** The message the view is attached to, with the answer to an edit of it. *)
Record Message : Type := mkMessage {
  message_edit_answer : result unit
}.

(** [timeout] is handed to the framework and not kept here; [message] is an
    attribute [RedPaginator.start] sets after the view is built. *)
Record PaginatorView : Type := mkView {
  ctx_author_id : Z;
  view_pages : Pages;
  view_embed : Embed;
  show_page_count : bool;
  children : list Button;
  message : option Message
}.

(** A method of the view: it returns or raises, leaves the view in some
    state, and has made some requests. *)
Definition M (A : Type) : Type := PaginatorView -> result A * PaginatorView * list Request.

Definition ret {A : Type} (a : A) : M A := fun v => (Return a, v, []).

Definition raise {A : Type} (e : exn) : M A := fun v => (Raise e, v, []).

Definition mbind {A B : Type} (m : M A) (k : A -> M B) : M B :=
  fun v =>
    match m v with
    | (Return a, v1, rs1) =>
        match k a v1 with
        | (r, v2, rs2) => (r, v2, rs1 ++ rs2)
        end
    | (Raise e, v1, rs1) => (Raise e, v1, rs1)
    end.

Notation "x <~ m ;; k" := (mbind m (fun x => k))
  (at level 61, m at next level, right associativity).
Notation "m ;;; k" := (mbind m (fun _ => k))
  (at level 61, right associativity).

Definition get : M PaginatorView := fun v => (Return v, v, []).

Definition modify (f : PaginatorView -> PaginatorView) : M unit :=
  fun v => (Return tt, f v, []).

(** [await] of a request, answered as the service answers. *)
Definition request (rq : Request) (answer : result unit) : M unit :=
  fun v => (answer, v, [rq]).

(** [with suppress(HTTPException): m] *)
Definition suppress_http (m : M unit) : M unit :=
  fun v =>
    match m v with
    | (Raise HTTPException, v1, rs1) => (Return tt, v1, rs1)
    | other => other
    end.

Definition result_of {A : Type} (o : result A * PaginatorView * list Request) : result A :=
  fst (fst o).
Definition view_of {A : Type} (o : result A * PaginatorView * list Request) : PaginatorView :=
  snd (fst o).
Definition requests_of {A : Type} (o : result A * PaginatorView * list Request)
  : list Request := snd o.

Definition set_children (cs : list Button) (v : PaginatorView) : PaginatorView :=
  mkView (ctx_author_id v) (view_pages v) (view_embed v) (show_page_count v) cs (message v).

Definition set_view_pages (p : Pages) (v : PaginatorView) : PaginatorView :=
  mkView (ctx_author_id v) p (view_embed v) (show_page_count v) (children v) (message v).

Definition set_view_embed (e : Embed) (v : PaginatorView) : PaginatorView :=
  mkView (ctx_author_id v) (view_pages v) e (show_page_count v) (children v) (message v).

Definition set_message (m : Message) (v : PaginatorView) : PaginatorView :=
  mkView (ctx_author_id v) (view_pages v) (view_embed v) (show_page_count v) (children v)
         (Some m).

Definition set_disabled (b : bool) (bt : Button) : Button :=
  mkButton (style bt) (custom_id bt) b.

(** [xs[i] = f(xs[i])] for [0 <= i], [None] out of range. *)
Fixpoint list_update {A : Type} (i : nat) (f : A -> A) (xs : list A) : option (list A) :=
  match xs, i with
  | [], _ => None
  | x :: xs', O => Some (f x :: xs')
  | x :: xs', S i' =>
      match list_update i' f xs' with
      | Some ys => Some (x :: ys)
      | None => None
      end
  end.

(** [self.children[i].disabled = b] *)
Definition child_set_disabled (i : nat) (b : bool) : M unit :=
  fun v =>
    match list_update i (set_disabled b) (children v) with
    | Some cs => (Return tt, set_children cs v, [])
    | None => (Raise IndexError, v, [])
    end.

(** A property of [self.pages] read from a method of the view. *)
Definition on_pages {A : Type} (op : Pages -> result A * Pages) : M A :=
  fun v => let '(r, p) := op (view_pages v) in (r, set_view_pages p v, []).

(** The buttons the class declares, in the order of [self.children]. *)
Definition declared_children : list Button :=
  [ mkButton green "first" false;
    mkButton green "previous" false;
    mkButton green "next" false;
    mkButton green "last" false ].

Definition PaginatorView_init (author : Z) (ps : Pages) (e : Embed) (spc : bool)
  : result unit * PaginatorView * list Request :=
  (if cur_page ps =? 1 then
     child_set_disabled 0 true ;;; child_set_disabled 1 true
   else ret tt)
    (mkView author ps e spc declared_children None).

Definition _lock : M unit :=
  v <~ get ;;
  let p := view_pages v in
  if cur_page p =? total p then
    child_set_disabled 0 false ;;; child_set_disabled 1 false ;;;
    child_set_disabled 2 true ;;; child_set_disabled 3 true
  else if cur_page p =? 1 then
    child_set_disabled 0 true ;;; child_set_disabled 1 true ;;;
    child_set_disabled 2 false ;;; child_set_disabled 3 false
  else if (1 <? cur_page p) && (cur_page p <? total p) then
    modify (fun v => set_children (map (set_disabled false) (children v)) v)
  else ret tt.

Definition str_of_int (z : Z) : string := NilZero.string_of_int (Z.to_int z).

Definition page_footer (i t : Z) : string :=
  ("Page " ++ str_of_int i ++ " of " ++ str_of_int t)%string.

(** [_update_embed(page)]; the callers hand it what the navigation property
    returned, so [page] may be [None], on which [page.index] and
    [page.content] raise. *)
Definition _update_embed (page : option Page) : M unit :=
  v <~ get ;;
  (if show_page_count v then
     match page with
     | Some pg =>
         modify (fun v => set_view_embed
                   (set_footer (page_footer (index pg) (total (view_pages v))) (view_embed v)) v)
     | None => raise AttributeError
     end
   else ret tt) ;;;
  match page with
  | Some pg => modify (fun v => set_view_embed (set_description (content pg) (view_embed v)) v)
  | None => raise AttributeError
  end.

Definition rejection_text : string :=
  "Sorry, you can't use this interaction as it is not started by you.".

Definition interaction_check (interaction : Interaction) : M bool :=
  v <~ get ;;
  if negb (user_id interaction =? ctx_author_id v) then
    request (SendMessage (user_id interaction) rejection_text true) (send_answer interaction) ;;;
    ret false
  else ret true.

Definition on_timeout : M unit :=
  modify (fun v => set_children
            (map (fun child => mkButton grey (custom_id child) true) (children v)) v) ;;;
  suppress_http
    (v <~ get ;;
     match message v with
     | Some m => request (EditMessage None (children v)) (message_edit_answer m)
     | None => raise AttributeError
     end).

(** The body the four button callbacks share, after the page is obtained. *)
Definition render (page : option Page) (interaction : Interaction) : M unit :=
  _update_embed page ;;;
  _lock ;;;
  v <~ get ;;
  request (EditMessage (Some (view_embed v)) (children v)) (edit_answer interaction).

Definition _first (interaction : Interaction) : M unit :=
  request Defer (defer_answer interaction) ;;;
  page <~ on_pages first_page ;;
  render (Some page) interaction.

Definition _previous (interaction : Interaction) : M unit :=
  request Defer (defer_answer interaction) ;;;
  page <~ on_pages previous_page ;;
  render page interaction.

Definition _next (interaction : Interaction) : M unit :=
  request Defer (defer_answer interaction) ;;;
  page <~ on_pages next_page ;;
  render page interaction.

Definition _last (interaction : Interaction) : M unit :=
  request Defer (defer_answer interaction) ;;;
  page <~ on_pages last_page ;;
  render (Some page) interaction.

Definition callback (op : Nav) : Interaction -> M unit :=
  match op with
  | NavFirst => _first
  | NavPrevious => _previous
  | NavNext => _next
  | NavLast => _last
  end.

(** How the framework delivers a button press: the callback runs only when
    [interaction_check] returned [True]. *)
Definition dispatch (op : Nav) (interaction : Interaction) : M unit :=
  allow <~ interaction_check interaction ;;
  if allow then callback op interaction else ret tt.

(** A session: the view after a sequence of delivered button presses. *)
Definition deliver_all (evs : list (Nav * Interaction)) (v : PaginatorView) : PaginatorView :=
  fold_left (fun v ev => view_of (dispatch (fst ev) (snd ev) v)) evs v.

End Paginator.

Module Session.
Import Paginator.

(** *** RedPaginator *)

(** [discord.Color.dark_embed()], the default colour of the [embed]
    property. *)
Definition dark_embed : Z := 2829617.

Record RedPaginator : Type := mkPaginator {
  paginator_author : Z;
  paginator_per_page : Z;
  paginator_title : option string;
  paginator_show_page_count : bool;
  paginator_lines : list string;
  paginator_pages : option Pages
}.

(** [RedPaginator(ctx, per_page=..., title=..., show_page_count=...)];
    [timeout] is only handed on to the view. *)
Definition RedPaginator_init (author per_page : Z) (t : option string) (spc : bool)
  : RedPaginator :=
  mkPaginator author per_page t spc [] None.

Definition set_lines (ls : list string) (self : RedPaginator) : RedPaginator :=
  mkPaginator (paginator_author self) (paginator_per_page self) (paginator_title self)
              (paginator_show_page_count self) ls (paginator_pages self).

Definition set_pages (ps : Pages) (self : RedPaginator) : RedPaginator :=
  mkPaginator (paginator_author self) (paginator_per_page self) (paginator_title self)
              (paginator_show_page_count self) (paginator_lines self) (Some ps).

(** [self.lines.append(f"{line}{sep}")] *)
Definition add_lines (line sep : string) (self : RedPaginator) : RedPaginator :=
  set_lines (paginator_lines self ++ [(line ++ sep)%string]) self.

Definition set_title (t : string) (e : Embed) : Embed :=
  mkEmbed t (description e) (color e) (footer e).

(** The [embed] property.  [if self.title:] holds for a string that is not
    empty, so a title that is set here is never empty, and an embed without
    title is written with the empty title. *)
Definition embed (self : RedPaginator) : result Embed :=
  match paginator_pages self with
  | None => Raise AttributeError
  | Some ps =>
      page <- current_page ps ;;
      let em := Embed_new (Some dark_embed) in
      let em :=
        match paginator_title self with
        | Some (String ch t) => set_title (String ch t) em
        | _ => em
        end in
      let em := set_description (content page) em in
      Return (if paginator_show_page_count self
              then set_footer (page_footer (index page) (total ps)) em
              else em)
  end.

(** [ctx.send(embed=..., view=...)] *)
Inductive Sent : Type :=
| SendEmbed (e : Embed) (view : option (list Button)).

(** What [start] leaves behind: what it returned or raised, the paginator,
    what was sent, and the view that is attached to the message sent, if
    any. *)
Record Started : Type := mkStarted {
  outcome : result (option Message);
  paginator : RedPaginator;
  sent : list Sent;
  session : option PaginatorView
}.

(** [_pages]: ["".join(page) for page in get_chunks(self.lines, self.per_page)],
    with the [ValueError] of [get_chunks] for a [per_page] that [islice]
    refuses. *)
Definition build_pages (self : RedPaginator) : result (list string) :=
  chunks <- get_chunks (paginator_lines self) (paginator_per_page self) ;;
  Return (map (String.concat "") chunks).

(** [start()]; [send_answer] is what [ctx.send] returns or raises.  Both
    branches read [self.embed] before anything else (the second one twice,
    with the same result), so it is read once, before the branch. *)
Definition start (send_answer : result Message) (self : RedPaginator) : Started :=
  match build_pages self with
  | Raise e => mkStarted (Raise e) self [] None
  | Return _pages =>
      let ps := Pages_init _pages in
      let self := set_pages ps self in
      match embed self with
      | Raise e => mkStarted (Raise e) self [] None
      | Return em =>
          if negb (total ps >? 1) then
            mkStarted (m <- send_answer ;; Return (Some m)) self [SendEmbed em None] None
          else
            match PaginatorView_init (paginator_author self) ps em
                                     (paginator_show_page_count self) with
            | (Raise e, _, _) => mkStarted (Raise e) self [] None
            | (Return _, view, _) =>
                match send_answer with
                | Raise e =>
                    mkStarted (Raise e) self [SendEmbed em (Some (children view))] None
                | Return m =>
                    mkStarted (Return None) self [SendEmbed em (Some (children view))]
                              (Some (set_message m view))
                end
            end
      end
  end.

End Session.

Module Lookup.

(** *** get_or_fetch *)

Section GetOrFetch.

(** The objects that are looked up; Python's [None] is [None]. *)
Variable T : Type.

(** What [obj] offers for the attribute asked for: the methods
    [get_<attr>], [fetch_<attr>] and [_fetch_<attr>], each with what it
    returns or raises for an id, or [None] where [obj] has no such method. *)
Record Methods : Type := mkMethods {
  get_ : option (Z -> result (option T));
  fetch_ : option (Z -> result (option T));
  _fetch_ : option (Z -> result (option T))
}.

(** [getattr(obj, name)(id)] *)
Definition call (method : option (Z -> result (option T))) (id : Z) : result (option T) :=
  match method with
  | None => Raise AttributeError
  | Some f => f id
  end.

(** [default] is [None] for [MISSING] and [Some d] for a default [d],
    which may itself be Python's [None]. *)
Definition get_or_fetch (obj : Methods) (id : Z) (default : option (option T))
  : result (option T) :=
  getter <- call (get_ obj) id ;;
  match getter with
  | Some x => Return (Some x)
  | None =>
      match call (fetch_ obj) id with
      | Return fetched => Return fetched
      | Raise AttributeError =>
          fetched <- call (_fetch_ obj) id ;;
          match fetched with
          | None => Raise ValueError
          | Some x => Return (Some x)
          end
      | Raise HTTPException =>
          match default with
          | Some d => Return d
          | None => Raise HTTPException
          end
      | Raise ValueError =>
          match default with
          | Some d => Return d
          | None => Raise ValueError
          end
      | Raise e => Raise e
      end
  end.

End GetOrFetch.

Arguments mkMethods {T} get_ fetch_ _fetch_.
Arguments get_ {T} m.
Arguments fetch_ {T} m.
Arguments _fetch_ {T} m.
Arguments call {T} method id.
Arguments get_or_fetch {T} obj id default.

End Lookup.

Module Logging.

(** *** silence_debug_loggers *)

(** The levels of the [logging] module. *)
Definition CRITICAL : Z := 50.
Definition ERROR : Z := 40.
Definition WARNING : Z := 30.
Definition INFO : Z := 20.
Definition DEBUG : Z := 10.

(** [level_map], as an association list in the order it is written. *)
Definition level_map : list (Z * Z) :=
  [ (0, CRITICAL); (1, ERROR); (2, WARNING); (3, INFO); (4, DEBUG);
    (5, DEBUG - 3); (6, DEBUG - 5) ].

Fixpoint dict_get (k : Z) (d : list (Z * Z)) : option Z :=
  match d with
  | [] => None
  | (k', v) :: d' => if k' =? k then Some v else dict_get k d'
  end.

Section Silence.

(** The loggers of the process belong to the [logging] module.
    [getLogger name] is the logger a name stands for; two names may stand for
    one logger ([""] is the root logger, and from Python 3.9 on ["root"] is
    too).  [same_logger] is [is] on loggers. *)
Variable Logger : Type.
Variable getLogger : string -> Logger.
Variable same_logger : Logger -> Logger -> bool.

(** The level of each logger. *)
Definition Loggers : Type := Logger -> Z.

(** [logger.setLevel(level)] *)
Definition setLevel (logger : Logger) (level : Z) (loggers : Loggers) : Loggers :=
  fun l => if same_logger l logger then level else loggers l.

Definition silenced (logger_name : string) : string :=
  ("Silenced debug logger: " ++ logger_name ++ ".")%string.

(** The loggers and the warnings written to [main_logger] so far. *)
Definition LogState : Type := Loggers * list string.

Definition silence_step (level : Z) (st : LogState) (logger_name : string)
  : result LogState :=
  Return (setLevel (getLogger logger_name) level (fst st), snd st ++ [silenced logger_name]).

Definition silence_debug_loggers (logger_level : Z) (logger_names : list string)
           (st : LogState) : result LogState :=
  match dict_get logger_level level_map with
  | None => Raise ValueError
  | Some level => for_each (silence_step level) st logger_names
  end.

End Silence.

Arguments setLevel {Logger} same_logger logger level loggers.
Arguments silence_step {Logger} getLogger same_logger level st logger_name.
Arguments silence_debug_loggers {Logger} getLogger same_logger logger_level logger_names st.

End Logging.

Module Mentions.

(** *** parse_raw_mentions, parse_raw_role_mentions, parse_raw_channel_mentions *)

(** [\d], on ASCII text. *)
Definition is_digit (ch : ascii) : bool :=
  let n := nat_of_ascii ch in (48 <=? n)%nat && (n <=? 57)%nat.

(** The digits a string starts with, and what follows them. *)
Fixpoint take_digits (s : string) : string * string :=
  match s with
  | EmptyString => ("", "")
  | String ch s' =>
      if is_digit ch then
        let '(ds, rest) := take_digits s' in (String ch ds, rest)
      else ("", s)
  end.

(** [int(x)] for a string of digits. *)
Fixpoint int_of_digits_from (acc : Z) (ds : string) : Z :=
  match ds with
  | EmptyString => acc
  | String ch ds' => int_of_digits_from (10 * acc + (Z.of_nat (nat_of_ascii ch) - 48)) ds'
  end.

Definition int_of_digits (ds : string) : Z := int_of_digits_from 0 ds.

Fixpoint strip_prefix (p s : string) : option string :=
  match p, s with
  | EmptyString, _ => Some s
  | String a p', String b s' => if Ascii.eqb a b then strip_prefix p' s' else None
  | String _ _, EmptyString => None
  end.

(** [!?], where the pattern has it. *)
Definition strip_bang (bang : bool) (s : string) : string * nat :=
  match s with
  | String ch s' => if bang && Ascii.eqb ch "!" then (s', 1%nat) else (s, 0%nat)
  | EmptyString => (s, 0%nat)
  end.

(** A match of [<prefix>!?(\d{15,20})>] (the [!?] only with [bang]) at the
    start of [s]: the number in the group and the length of the match.  The
    repetition is greedy and the next character must be [>], so the digits
    matched are all the digits there are. *)
Definition match_at (prefix : string) (bang : bool) (s : string) : option (Z * nat) :=
  match strip_prefix prefix s with
  | None => None
  | Some s1 =>
      let '(s2, banged) := strip_bang bang s1 in
      let '(ds, s3) := take_digits s2 in
      if (15 <=? String.length ds)%nat && (String.length ds <=? 20)%nat then
        match s3 with
        | String ch _ =>
            if Ascii.eqb ch ">" then
              Some (int_of_digits ds,
                    (String.length prefix + banged + String.length ds + 1)%nat)
            else None
        | EmptyString => None
        end
      else None
  end.

(** [re.findall]: the matches from left to right, each search starting
    where the match before ended; [skip] counts the characters of the current
    match that are still to be passed over. *)
Fixpoint findall (prefix : string) (bang : bool) (s : string) (skip : nat) : list Z :=
  match s with
  | EmptyString => []
  | String _ s' =>
      match skip with
      | S k => findall prefix bang s' k
      | O =>
          match match_at prefix bang s with
          | Some (id, n) => id :: findall prefix bang s' (n - 1)
          | None => findall prefix bang s' 0
          end
      end
  end.

Definition parse_raw_mentions (text : string) : list Z := findall "<@" true text 0.

Definition parse_raw_role_mentions (text : string) : list Z := findall "<@&" false text 0.

Definition parse_raw_channel_mentions (text : string) : list Z := findall "<#" false text 0.

End Mentions.

Module Modify.
Import Paginator.

(** *** modify_embeds *)

(** [set_author]'s keywords, for an [author_kwargs] that holds them. *)
Record Author : Type := mkAuthor {
  author_name : string;
  author_url : option string;
  author_icon_url : option string
}.

(** The embed with the parts [modify_embeds] sets.  An unset part is
    [None]. *)
Record RichEmbed : Type := mkRich {
  rich_title : option string;
  rich_description : string;
  rich_color : option Z;
  rich_url : option string;
  rich_author : option Author;
  rich_footer_text : option string;
  rich_footer_icon_url : option string;
  rich_thumbnail : option string;
  rich_image : option string
}.

(** An embed as [create_embeds] builds it, seen with the fields
    [modify_embeds] sets. *)
Definition of_embed (e : Embed) : RichEmbed :=
  mkRich (Some (title e)) (description e) (color e) None None (footer e) None None None.

(** The keyword dicts, as the loop reads them.  Of a dict argument the
    loop asks whether it is true, which a dict is when it holds a key, and
    then reads the keys it knows.  An argument that is [None] or the empty
    dict is [None]; a dict with at least one key is [Some k], where [k] holds
    what is read: for [title_kwargs] what [.get] returns for the three keys,
    [None] for a key that is absent or holds [None], whatever other keys the
    dict has; for [footer_kwargs] the keywords of [set_footer].  Values are
    strings (the colour an integer). *)
Record TitleKwargs : Type := mkTitleKwargs {
  tk_title : option string;
  tk_color : option Z;
  tk_url : option string
}.

Record FooterKwargs : Type := mkFooterKwargs {
  fk_text : option string;
  fk_icon_url : option string
}.

(** [str] or [List[str]] *)
Inductive UrlArg : Type :=
| OneUrl (url : string)
| ManyUrls (urls : list string).

(** Truth values: a string or a list is true when it is not empty. *)
Definition url_given (u : option UrlArg) : option UrlArg :=
  match u with
  | Some (OneUrl EmptyString) => None
  | Some (ManyUrls []) => None
  | other => other
  end.

Definition nonempty (t : option string) : option string :=
  match t with
  | Some (String ch t') => Some (String ch t')
  | _ => None
  end.

(** [em.title = ...; em.color = ...; em.url = ...] with [dict.get]. *)
Definition apply_title (k : TitleKwargs) (em : RichEmbed) : RichEmbed :=
  mkRich (tk_title k) (rich_description em) (tk_color k) (tk_url k) (rich_author em)
         (rich_footer_text em) (rich_footer_icon_url em) (rich_thumbnail em) (rich_image em).

Definition set_author (a : Author) (em : RichEmbed) : RichEmbed :=
  mkRich (rich_title em) (rich_description em) (rich_color em) (rich_url em) (Some a)
         (rich_footer_text em) (rich_footer_icon_url em) (rich_thumbnail em) (rich_image em).

(** [set_footer(text=..., icon_url=...)] replaces the whole footer. *)
Definition set_rich_footer (text icon_url : option string) (em : RichEmbed) : RichEmbed :=
  mkRich (rich_title em) (rich_description em) (rich_color em) (rich_url em) (rich_author em)
         text icon_url (rich_thumbnail em) (rich_image em).

Definition set_thumbnail (url : string) (em : RichEmbed) : RichEmbed :=
  mkRich (rich_title em) (rich_description em) (rich_color em) (rich_url em) (rich_author em)
         (rich_footer_text em) (rich_footer_icon_url em) (Some url) (rich_image em).

Definition set_image (url : string) (em : RichEmbed) : RichEmbed :=
  mkRich (rich_title em) (rich_description em) (rich_color em) (rich_url em) (rich_author em)
         (rich_footer_text em) (rich_footer_icon_url em) (rich_thumbnail em) (Some url).

(** [f"Page {i + 1}/{len(embeds)}"] *)
Definition page_number (i n : Z) : string :=
  ("Page " ++ str_of_int (i + 1) ++ "/" ++ str_of_int n)%string.

Definition number_footer (i n : Z) (em : RichEmbed) : RichEmbed :=
  match nonempty (rich_footer_text em) with
  | Some text => set_rich_footer (Some (text ++ " | " ++ page_number i n)%string) None em
  | None => set_rich_footer (Some (page_number i n)) None em
  end.

(** [thumbnail_image_url[i]] for a list, the string itself otherwise. *)
Definition url_at (u : UrlArg) (i : Z) : result string :=
  match u with
  | OneUrl url => Return url
  | ManyUrls urls => list_getitem urls i
  end.

Section ModifyEmbeds.

Variable title_kwargs : option TitleKwargs.
Variable author_kwargs : option Author.
Variable footer_kwargs : option FooterKwargs.
Variable thumbnail_image_url : option UrlArg.
Variable image_url : option UrlArg.
Variable show_page_number : bool.

(** The part of the loop body that cannot raise. *)
Definition decorate (n i : Z) (em : RichEmbed) : RichEmbed :=
  let em := match title_kwargs with
            | Some k => apply_title k em
            | None => em
            end in
  let em := match author_kwargs with
            | Some a => set_author a em
            | None => em
            end in
  let em := match footer_kwargs with
            | Some k => set_rich_footer (fk_text k) (fk_icon_url k) em
            | None => em
            end in
  if show_page_number then number_footer i n em else em.

(** One iteration on [(i, em)]: what it returns or raises, and the embed
    as it is left. *)
Definition modify_body (n i : Z) (em : RichEmbed) : result unit * RichEmbed :=
  let em := decorate n i em in
  match
    match url_given thumbnail_image_url with
    | Some u => match url_at u i with
                | Return url => (Return tt, set_thumbnail url em)
                | Raise e => (Raise e, em)
                end
    | None => (Return tt, em)
    end
  with
  | (Raise e, em) => (Raise e, em)
  | (Return _, em) =>
      match url_given image_url with
      | Some u => match url_at u i with
                  | Return url => (Return tt, set_image url em)
                  | Raise e => (Raise e, em)
                  end
      | None => (Return tt, em)
      end
  end.

(** The loop over [enumerate(embeds)] from index [i]: the error that
    stopped it, if any, and the embeds as they are left. *)
Fixpoint modify_loop (n i : Z) (embeds : list RichEmbed) : option exn * list RichEmbed :=
  match embeds with
  | [] => (None, [])
  | em :: rest =>
      match modify_body n i em with
      | (Return _, em') =>
          let '(err, rest') := modify_loop n (i + 1) rest in (err, em' :: rest')
      | (Raise e, em') => (Some e, em' :: rest)
      end
  end.

(** [modify_embeds]: the embeds are changed in place and the list itself
    is returned, so the result is given next to the list as it is left. *)
Definition modify_embeds (embeds : list RichEmbed)
  : result (list RichEmbed) * list RichEmbed :=
  match modify_loop (len embeds) 0 embeds with
  | (None, embeds') => (Return embeds', embeds')
  | (Some e, embeds') => (Raise e, embeds')
  end.

End ModifyEmbeds.

End Modify.

(** * Properties *)

Module PagesFacts.
Import Paginator.

(** ** The cursor of [Pages] *)

Definition cursor_in_range (p : Pages) : Prop := 1 <= cur_page p <= total p.

Lemma list_getitem_in_range {A : Type} (xs : list A) (i : Z) :
  0 <= i < len xs -> exists x, list_getitem xs i = Return x /\ nth_error xs (Z.to_nat i) = Some x.
Proof.
  intros Hi. unfold list_getitem.
  destruct (Z.ltb_spec i 0) as [Hneg | _]; [lia |].
  destruct (Z.ltb_spec i 0) as [Hneg | _]; [lia |].
  destruct (Z.leb_spec (len xs) i) as [Hbig | _]; [lia |].
  cbn [orb].
  destruct (nth_error xs (Z.to_nat i)) as [x |] eqn:Hnth.
  - exists x. split; reflexivity.
  - apply nth_error_None in Hnth. unfold len in Hi. lia.
Qed.

Lemma current_page_in_range (p : Pages) :
  cursor_in_range p ->
  exists c, current_page p = Return (mkPage (cur_page p) c).
Proof.
  intros Hp. unfold current_page.
  destruct (list_getitem_in_range (pages p) (cur_page p - 1)) as [c [Hc _]].
  - unfold cursor_in_range, total in Hp. lia.
  - exists c. rewrite Hc. reflexivity.
Qed.

Lemma total_set_cur_page (c : Z) (p : Pages) : total (set_cur_page c p) = total p.
Proof. reflexivity. Qed.

Lemma navigate_total (op : Nav) (p : Pages) : total (snd (navigate op p)) = total p.
Proof.
  destruct op; cbn; unfold previous_page, next_page;
    try reflexivity;
    match goal with |- context [if ?b then _ else _] => destruct b end; reflexivity.
Qed.

Lemma navigate_in_range (op : Nav) (p : Pages) :
  cursor_in_range p -> cursor_in_range (snd (navigate op p)).
Proof.
  unfold cursor_in_range. intros Hp.
  destruct op; cbn; unfold previous_page, next_page.
  - cbn. rewrite total_set_cur_page. lia.
  - destruct (Z.eqb_spec (cur_page p) 1); cbn; [| rewrite total_set_cur_page]; lia.
  - destruct (Z.eqb_spec (cur_page p) (total p)); cbn; [| rewrite total_set_cur_page]; lia.
  - cbn. rewrite total_set_cur_page. lia.
Qed.

Lemma navigate_all_in_range (ops : list Nav) (p : Pages) :
  cursor_in_range p ->
  cursor_in_range (navigate_all ops p) /\ total (navigate_all ops p) = total p.
Proof.
  revert p. induction ops as [| op ops IH]; intros p Hp.
  - split; [exact Hp | reflexivity].
  - cbn. destruct (IH (snd (navigate op p)) (navigate_in_range op p Hp)) as [Hr Ht].
    split; [exact Hr |]. unfold navigate_all in Ht. rewrite Ht. apply navigate_total.
Qed.

Lemma Pages_init_in_range (ps : list string) : ps <> [] -> cursor_in_range (Pages_init ps).
Proof.
  intros Hne. unfold cursor_in_range, total, len. cbn.
  destruct ps as [| x xs]; [contradiction |]. cbn [List.length]. lia.
Qed.

(** C4: for [Pages] built from a non-empty list, after any sequence of
    [next_page], [previous_page], [first_page] and [last_page] the cursor
    satisfies [1 <= cur_page <= total], the total is the number of pages
    given, and [current_page] returns a page whose index lies in
    [[1, total]]. *)
Theorem cursor_invariant (ps : list string) (ops : list Nav) :
  ps <> [] ->
  let p := navigate_all ops (Pages_init ps) in
  1 <= cur_page p <= total p /\
  total p = len ps /\
  exists pg, current_page p = Return pg /\ 1 <= index pg <= total p.
Proof.
  intros Hne p.
  destruct (navigate_all_in_range ops (Pages_init ps) (Pages_init_in_range ps Hne))
    as [Hr Ht].
  fold p in Hr, Ht. split; [exact Hr |]. split; [exact Ht |].
  destruct (current_page_in_range p Hr) as [c Hc].
  exists (mkPage (cur_page p) c). split; [exact Hc | exact Hr].
Qed.

Lemma cursor_invariant_witness :
  let p := navigate_all [NavNext; NavNext; NavLast; NavPrevious; NavFirst; NavPrevious]
                        (Pages_init ["a"; "b"; "c"]) in
  1 <= cur_page p <= total p /\
  total p = len ["a"; "b"; "c"] /\
  exists pg, current_page p = Return pg /\ 1 <= index pg <= total p.
Proof. apply (cursor_invariant ["a"; "b"; "c"]). discriminate. Defined.

(** ** Navigation at the boundaries *)

(** C3, as the code has it: for a non-empty [Pages] with its cursor in
    range, [next_page] at [cur_page = total] and [previous_page] at
    [cur_page = 1] return [None] without raising and leave the object as it
    was (no movement, no wrap); the page under the cursor is still what
    [current_page] returns. *)
Theorem boundary_navigation (p : Pages) :
  pages p <> [] ->
  1 <= cur_page p <= total p ->
  (cur_page p = total p -> next_page p = (Return None, p)) /\
  (cur_page p = 1 -> previous_page p = (Return None, p)) /\
  exists c, current_page p = Return (mkPage (cur_page p) c).
Proof.
  intros _ Hr. split; [| split].
  - intros Hlast. unfold next_page. rewrite Hlast, Z.eqb_refl. reflexivity.
  - intros Hfirst. unfold previous_page. rewrite Hfirst. reflexivity.
  - apply current_page_in_range. exact Hr.
Qed.

Lemma boundary_navigation_witness :
  let p := mkPages ["only"] 1 in
  (cur_page p = total p -> next_page p = (Return None, p)) /\
  (cur_page p = 1 -> previous_page p = (Return None, p)) /\
  exists c, current_page p = Return (mkPage (cur_page p) c).
Proof.
  apply (boundary_navigation (mkPages ["only"] 1)).
  - discriminate.
  - vm_compute. split; discriminate.
Defined.

(** C3 as stated fails: on two pages with the cursor on the last one,
    [current_page] is page 2 with content ["b"], and [next_page] leaves the
    cursor at 2 but returns [None], not that page; likewise [previous_page]
    on the first page. *)
Lemma boundary_returns_no_page :
  let p := mkPages ["a"; "b"] 2 in
  let q := mkPages ["a"; "b"] 1 in
  cur_page p = total p /\
  current_page p = Return (mkPage 2 "b") /\
  snd (next_page p) = p /\
  fst (next_page p) = Return None /\
  fst (next_page p) <> Return (Some (mkPage 2 "b")) /\
  current_page q = Return (mkPage 1 "a") /\
  fst (previous_page q) = Return None /\
  fst (previous_page q) <> Return (Some (mkPage 1 "a")).
Proof. vm_compute. repeat split; discriminate. Qed.

End PagesFacts.

Module ViewFacts.
Import Paginator PagesFacts.

(** ** Running a method of the view *)

Lemma mbind_return {A B : Type} (m : M A) (k : A -> M B) v a v1 rs1 :
  m v = (Return a, v1, rs1) ->
  mbind m k v = (result_of (k a v1), view_of (k a v1), rs1 ++ requests_of (k a v1)).
Proof.
  intros Hm. unfold mbind. rewrite Hm.
  destruct (k a v1) as [[r v2] rs2]. reflexivity.
Qed.

Lemma mbind_raise {A B : Type} (m : M A) (k : A -> M B) v e v1 rs1 :
  m v = (Raise e, v1, rs1) -> mbind m k v = (Raise e, v1, rs1).
Proof. intros Hm. unfold mbind. rewrite Hm. reflexivity. Qed.

(** The four callbacks are one body around the four navigation properties. *)
Lemma callback_navigate (op : Nav) (i : Interaction) (v : PaginatorView) :
  callback op i v =
  (request Defer (defer_answer i) ;;;
   page <~ on_pages (navigate op) ;;
   render page i) v.
Proof.
  destruct op; cbn [callback navigate]; try reflexivity.
  - unfold _first, mbind, request, on_pages, some_page, first_page.
    destruct (defer_answer i) as [[] | e]; [| reflexivity]. cbn.
    destruct (current_page (set_cur_page 1 (view_pages v))); reflexivity.
  - unfold _last, mbind, request, on_pages, some_page, last_page.
    destruct (defer_answer i) as [[] | e]; [| reflexivity]. cbn.
    destruct (current_page (set_cur_page (total (view_pages v)) (view_pages v)));
      reflexivity.
Qed.

(** ** Enablement of the controls *)

Definition disabled_flags (v : PaginatorView) : list bool := map disabled (children v).

(** The table of the specification: [first; previous; next; last]. *)
Definition enablement_ok (v : PaginatorView) : Prop :=
  let cur := cur_page (view_pages v) in
  let t := total (view_pages v) in
  (cur = 1 -> disabled_flags v = [true; true; false; false]) /\
  (cur = t -> disabled_flags v = [false; false; true; true]) /\
  (1 < cur < t -> disabled_flags v = [false; false; false; false]).

Definition four_children (v : PaginatorView) : Prop :=
  exists b0 b1 b2 b3, children v = [b0; b1; b2; b3].

(** What every reachable state of a session over two or more pages satisfies. *)
Definition session_inv (v : PaginatorView) : Prop :=
  2 <= total (view_pages v) /\
  cursor_in_range (view_pages v) /\
  four_children v /\
  enablement_ok v.

Lemma lock_enablement (v : PaginatorView) :
  2 <= total (view_pages v) ->
  cursor_in_range (view_pages v) ->
  four_children v ->
  exists v',
    _lock v = (Return tt, v', []) /\
    view_pages v' = view_pages v /\
    view_embed v' = view_embed v /\
    four_children v' /\
    enablement_ok v'.
Proof.
  intros Ht Hr (b0 & b1 & b2 & b3 & Hc).
  unfold cursor_in_range in Hr.
  destruct v as [a p e s cs m]. cbn in *. subst cs.
  unfold _lock, mbind, get. cbn.
  destruct (Z.eqb_spec (cur_page p) (total p)) as [Hlast | Hnl].
  - eexists. split; [reflexivity |]. cbn.
    repeat split; try (do 4 eexists; reflexivity); cbn; intros; try lia; reflexivity.
  - destruct (Z.eqb_spec (cur_page p) 1) as [Hfirst | Hnf].
    + eexists. split; [reflexivity |]. cbn.
      repeat split; try (do 4 eexists; reflexivity); cbn; intros; try lia; reflexivity.
    + destruct (Z.ltb_spec 1 (cur_page p)) as [_ | Hbad]; [| lia].
      destruct (Z.ltb_spec (cur_page p) (total p)) as [_ | Hbad]; [| lia].
      eexists. split; [reflexivity |]. cbn.
      repeat split; try (do 4 eexists; reflexivity); cbn; intros; try lia; reflexivity.
Qed.

Lemma update_embed_some (pg : Page) (v : PaginatorView) :
  exists v',
    _update_embed (Some pg) v = (Return tt, v', []) /\
    view_pages v' = view_pages v /\
    children v' = children v /\
    description (view_embed v') = content pg.
Proof.
  unfold _update_embed, mbind, get, modify. cbn.
  destruct (show_page_count v); cbn; eexists; repeat split.
Qed.

Lemma update_embed_none (v : PaginatorView) :
  _update_embed None v = (Raise AttributeError, v, []).
Proof.
  unfold _update_embed, mbind, get, raise, ret. cbn.
  destruct (show_page_count v); reflexivity.
Qed.

Lemma four_children_eq (v v' : PaginatorView) :
  children v' = children v -> four_children v -> four_children v'.
Proof. unfold four_children. intros ->. exact (fun H => H). Qed.

(** Rendering a page that exists: the controls are recomputed, and the
    result is the answer to the edit. *)
Lemma render_some (pg : Page) (i : Interaction) (v : PaginatorView) :
  2 <= total (view_pages v) ->
  cursor_in_range (view_pages v) ->
  four_children v ->
  exists v',
    render (Some pg) i v =
      (edit_answer i, v', [EditMessage (Some (view_embed v')) (children v')]) /\
    view_pages v' = view_pages v /\
    description (view_embed v') = content pg /\
    four_children v' /\
    enablement_ok v'.
Proof.
  intros Ht Hr Hc.
  destruct (update_embed_some pg v) as (v1 & Hu & Hp1 & Hc1 & Hd1).
  destruct (lock_enablement v1) as (v2 & Hl & Hp2 & He2 & Hc2 & Hen);
    try (rewrite Hp1; assumption).
  { eapply four_children_eq; eassumption. }
  exists v2. unfold render.
  rewrite (mbind_return _ _ _ _ _ _ Hu).
  rewrite (mbind_return _ _ _ _ _ _ Hl).
  cbn. rewrite Hp2, Hp1, He2, Hd1.
  split; [reflexivity |]. split; [reflexivity |]. split; [reflexivity |].
  split; assumption.
Qed.

Lemma render_none (i : Interaction) (v : PaginatorView) :
  render None i v = (Raise AttributeError, v, []).
Proof. unfold render. apply mbind_raise, update_embed_none. Qed.

(** What a navigation property hands to the callback. *)
Lemma navigate_cases (op : Nav) (p : Pages) :
  cursor_in_range p ->
  navigate op p = (Return None, p) \/
  exists pg p',
    navigate op p = (Return (Some pg), p') /\
    total p' = total p /\ cursor_in_range p' /\ index pg = cur_page p' /\
    current_page p' = Return pg.
Proof.
  intros Hr.
  assert (Hmove : forall c, 1 <= c <= total p ->
            exists pg, current_page (set_cur_page c p) = Return pg /\ index pg = c).
  { intros c Hc.
    destruct (current_page_in_range (set_cur_page c p)) as [x Hx].
    - unfold cursor_in_range. rewrite total_set_cur_page. exact Hc.
    - eexists. split; [exact Hx | reflexivity]. }
  unfold cursor_in_range in Hr.
  destruct op; cbn [navigate]; unfold some_page, first_page, last_page, previous_page, next_page.
  - right. destruct (Hmove 1) as (pg & Hpg & Hi); [lia |].
    exists pg, (set_cur_page 1 p). cbn. rewrite Hpg. cbn.
    repeat split; try assumption;
      try (rewrite ?total_set_cur_page; cbn [cur_page set_cur_page]; lia).
  - destruct (Z.eqb_spec (cur_page p) 1) as [| Hne]; [left; reflexivity | right].
    destruct (Hmove (cur_page p - 1)) as (pg & Hpg & Hi); [lia |].
    exists pg, (set_cur_page (cur_page p - 1) p). rewrite Hpg. cbn.
    repeat split; try assumption;
      try (rewrite ?total_set_cur_page; cbn [cur_page set_cur_page]; lia).
  - destruct (Z.eqb_spec (cur_page p) (total p)) as [| Hne]; [left; reflexivity | right].
    destruct (Hmove (cur_page p + 1)) as (pg & Hpg & Hi); [lia |].
    exists pg, (set_cur_page (cur_page p + 1) p). rewrite Hpg. cbn.
    repeat split; try assumption;
      try (rewrite ?total_set_cur_page; cbn [cur_page set_cur_page]; lia).
  - right. destruct (Hmove (total p)) as (pg & Hpg & Hi); [lia |].
    exists pg, (set_cur_page (total p) p). cbn. rewrite Hpg. cbn.
    repeat split; try assumption;
      try (rewrite ?total_set_cur_page; cbn [cur_page set_cur_page]; lia).
Qed.

Lemma set_view_pages_same (v : PaginatorView) : set_view_pages (view_pages v) v = v.
Proof. destruct v. reflexivity. Qed.

(** A callback leaves the view as it was, or moves the cursor, renders the
    new page and recomputes the controls. *)
Lemma callback_cases (op : Nav) (i : Interaction) (v : PaginatorView) :
  2 <= total (view_pages v) ->
  cursor_in_range (view_pages v) ->
  four_children v ->
  (view_of (callback op i v) = v /\
   (defer_answer i = Return tt ->
    navigate op (view_pages v) = (Return None, view_pages v) /\
    callback op i v = (Raise AttributeError, v, [Defer])) /\
   (forall e, defer_answer i = Raise e -> callback op i v = (Raise e, v, [Defer])))
  \/
  (exists pg p' v',
     defer_answer i = Return tt /\
     navigate op (view_pages v) = (Return (Some pg), p') /\
     callback op i v =
       (edit_answer i, v', [Defer; EditMessage (Some (view_embed v')) (children v')]) /\
     view_pages v' = p' /\ total p' = total (view_pages v) /\ cursor_in_range p' /\
     description (view_embed v') = content pg /\
     four_children v' /\ enablement_ok v').
Proof.
  intros Ht Hr Hc. rewrite callback_navigate.
  destruct (defer_answer i) as [[] | e] eqn:Hd.
  - assert (Hq : request Defer (Return tt) v = (Return tt, v, [Defer])) by reflexivity.
    rewrite (mbind_return _ _ _ _ _ _ Hq).
    destruct (navigate_cases op (view_pages v) Hr)
      as [Hnone | (pg & p' & Hnav & Htot & Hr' & Hidx & Hcur)].
    + left.
      assert (Hon : on_pages (navigate op) v = (Return None, v, [])).
      { unfold on_pages. rewrite Hnone, set_view_pages_same. reflexivity. }
      rewrite (mbind_return _ _ _ _ _ _ Hon), render_none. cbn.
      split; [reflexivity |]. split; [| intros e He; discriminate He].
      intros _. split; [exact Hnone | reflexivity].
    + right.
      assert (Hon : on_pages (navigate op) v = (Return (Some pg), set_view_pages p' v, [])).
      { unfold on_pages. rewrite Hnav. reflexivity. }
      rewrite (mbind_return _ _ _ _ _ _ Hon).
      destruct (render_some pg i (set_view_pages p' v)) as (v' & Hren & Hp' & Hd' & Hc' & Hen).
      * cbn. lia.
      * exact Hr'.
      * eapply four_children_eq; [| exact Hc]. reflexivity.
      * exists pg, p', v'. rewrite Hren. cbn.
        repeat (split; [first [reflexivity | assumption] |]). exact Hen.
  - left.
    assert (Hq : request Defer (Raise e) v = (Raise e, v, [Defer])) by reflexivity.
    rewrite (mbind_raise _ _ _ _ _ _ Hq). cbn.
    split; [reflexivity |]. split; [intros He; discriminate He |].
    intros e' He'. injection He' as ->. reflexivity.
Qed.


(** ** Authorization *)

Lemma interaction_check_owner (i : Interaction) (v : PaginatorView) :
  user_id i = ctx_author_id v -> interaction_check i v = (Return true, v, []).
Proof.
  intros Ho. unfold interaction_check, mbind, get. cbn.
  rewrite Ho, Z.eqb_refl. reflexivity.
Qed.

Lemma interaction_check_stranger (i : Interaction) (v : PaginatorView) :
  user_id i <> ctx_author_id v ->
  interaction_check i v =
    (_ <- send_answer i ;; Return false, v, [SendMessage (user_id i) rejection_text true]).
Proof.
  intros Hs. unfold interaction_check, mbind, get, request, ret. cbn.
  destruct (Z.eqb_spec (user_id i) (ctx_author_id v)) as [| _]; [contradiction |]. cbn.
  destruct (send_answer i) as [[] | e]; reflexivity.
Qed.

Lemma dispatch_owner (op : Nav) (i : Interaction) (v : PaginatorView) :
  user_id i = ctx_author_id v -> dispatch op i v = callback op i v.
Proof.
  intros Ho. unfold dispatch.
  rewrite (mbind_return _ _ _ _ _ _ (interaction_check_owner i v Ho)).
  destruct (callback op i v) as [[r v'] rs]. reflexivity.
Qed.

Lemma dispatch_stranger (op : Nav) (i : Interaction) (v : PaginatorView) :
  user_id i <> ctx_author_id v ->
  dispatch op i v =
    (_ <- send_answer i ;; Return tt, v, [SendMessage (user_id i) rejection_text true]).
Proof.
  intros Hs. unfold dispatch, mbind.
  rewrite (interaction_check_stranger i v Hs).
  destruct (send_answer i) as [[] | e]; reflexivity.
Qed.

Definition is_edit (rq : Request) : bool :=
  match rq with
  | EditMessage _ _ => true
  | _ => false
  end.

(** C6: a button press by anyone but the owner is rejected.  The view
    (cursor, embed and controls) is left exactly as it was, no edit of the
    message is requested, and the only request made is the ephemeral
    rejection message, addressed to the user who pressed. *)
Theorem stranger_rejected (op : Nav) (i : Interaction) (v : PaginatorView) :
  user_id i <> ctx_author_id v ->
  view_of (dispatch op i v) = v /\
  cur_page (view_pages (view_of (dispatch op i v))) = cur_page (view_pages v) /\
  requests_of (dispatch op i v) = [SendMessage (user_id i) rejection_text true] /\
  existsb is_edit (requests_of (dispatch op i v)) = false /\
  result_of (dispatch op i v) = (_ <- send_answer i ;; Return tt).
Proof.
  intros Hs. rewrite (dispatch_stranger op i v Hs). cbn. repeat split.
Qed.

Definition sample_view : PaginatorView :=
  view_of (PaginatorView_init 7 (Pages_init ["p1"; "p2"; "p3"]) (Embed_new None) true).

Definition owner_press : Interaction := mkInteraction 7 (Return tt) (Return tt) (Return tt).

Lemma stranger_rejected_witness :
  let i := mkInteraction 8 (Return tt) (Return tt) (Return tt) in
  view_of (dispatch NavNext i sample_view) = sample_view /\
  cur_page (view_pages (view_of (dispatch NavNext i sample_view)))
    = cur_page (view_pages sample_view) /\
  requests_of (dispatch NavNext i sample_view) = [SendMessage 8 rejection_text true] /\
  existsb is_edit (requests_of (dispatch NavNext i sample_view)) = false /\
  result_of (dispatch NavNext i sample_view) = Return tt.
Proof.
  apply (stranger_rejected NavNext (mkInteraction 8 (Return tt) (Return tt) (Return tt))
           sample_view).
  vm_compute. discriminate.
Defined.

(** The same press by the owner does move the cursor and render. *)
Example owner_accepted :
  let i := mkInteraction 7 (Return tt) (Return tt) (Return tt) in
  cur_page (view_pages (view_of (dispatch NavNext i sample_view))) = 2 /\
  existsb is_edit (requests_of (dispatch NavNext i sample_view)) = true /\
  description (view_embed (view_of (dispatch NavNext i sample_view))) = "p2" /\
  footer (view_embed (view_of (dispatch NavNext i sample_view))) = Some "Page 2 of 3".
Proof. vm_compute. repeat split. Qed.

(** A press of next on the last page, which the disabled control
    normally prevents: the property returns [None], [_update_embed] raises
    on it, and cursor and controls stay as they were. *)
Example press_at_boundary :
  let v := deliver_all [(NavLast, owner_press)] sample_view in
  cur_page (view_pages v) = 3 /\
  dispatch NavNext owner_press v = (Raise AttributeError, v, [Defer]).
Proof. vm_compute. split; reflexivity. Qed.

(** ** Enablement along a session *)



Lemma init_inv (author : Z) (ps : list string) (e : Embed) (spc : bool) :
  2 <= len ps ->
  result_of (PaginatorView_init author (Pages_init ps) e spc) = Return tt /\
  session_inv (view_of (PaginatorView_init author (Pages_init ps) e spc)).
Proof.
  intros Hn. cbn. split; [reflexivity |].
  unfold session_inv, cursor_in_range, enablement_ok, four_children, total. cbn.
  repeat split; try lia; try reflexivity.
  do 4 eexists. reflexivity.
Qed.

(** *** Cursors of any kind

    [PaginatorView] takes the [Pages] it is given, wherever their cursor
    is.  The table says nothing about a cursor outside [1..total], and a
    press that lands inside recomputes the controls. *)










(** On the last page [__init__] leaves all four controls enabled. *)
Lemma init_on_last_page (author : Z) (p : Pages) (e : Embed) (spc : bool) :
  2 <= total p ->
  cur_page p = total p ->
  map disabled (children (view_of (PaginatorView_init author p e spc)))
    = [false; false; false; false].
Proof.
  intros Ht Hlast. unfold PaginatorView_init.
  destruct (Z.eqb_spec (cur_page p) 1) as [Hone | Hnot]; [lia | reflexivity].
Qed.




(** The table on five pages: the controls after construction, after two
    presses of next, and after a press of last. *)
Example enablement_five_pages :
  let v1 := view_of (PaginatorView_init 7 (Pages_init ["1"; "2"; "3"; "4"; "5"])
                       (Embed_new None) true) in
  let v3 := deliver_all [(NavNext, owner_press); (NavNext, owner_press)] v1 in
  let v5 := deliver_all [(NavLast, owner_press)] v3 in
  (cur_page (view_pages v1), map disabled (children v1)) = (1, [true; true; false; false]) /\
  (cur_page (view_pages v3), map disabled (children v3)) = (3, [false; false; false; false]) /\
  (cur_page (view_pages v5), map disabled (children v5)) = (5, [false; false; true; true]).
Proof. vm_compute. repeat split. Qed.

(** ** Timeout *)

Lemma on_timeout_children (v : PaginatorView) :
  children (view_of (on_timeout v)) =
  map (fun child => mkButton grey (custom_id child) true) (children v).
Proof.
  unfold on_timeout, mbind, modify, suppress_http, get. cbn.
  destruct (message v) as [m |]; cbn.
  - destruct (message_edit_answer m) as [[] | []]; reflexivity.
  - reflexivity.
Qed.

(** C7: when the timeout fires on a session whose message is set, all four
    controls end up disabled and grey, an edit of the message is requested,
    and [on_timeout] returns normally whether that edit succeeds or raises
    [HTTPException].  In a button callback of the owner the same failures
    are not caught: a failing defer, or a failing edit after the cursor
    moved, is what the callback raises. *)
Theorem timeout_swallows_navigation_raises (v : PaginatorView) (m : Message) :
  session_inv v ->
  message v = Some m ->
  (message_edit_answer m = Return tt \/ message_edit_answer m = Raise HTTPException) ->
  let v' := view_of (on_timeout v) in
  result_of (on_timeout v) = Return tt /\
  map disabled (children v') = [true; true; true; true] /\
  map style (children v') = [grey; grey; grey; grey] /\
  requests_of (on_timeout v) = [EditMessage None (children v')] /\
  forall (op : Nav) (i : Interaction) (e : exn),
    user_id i = ctx_author_id v ->
    (defer_answer i = Raise e -> result_of (dispatch op i v) = Raise e) /\
    (forall pg p',
       defer_answer i = Return tt ->
       navigate op (view_pages v) = (Return (Some pg), p') ->
       edit_answer i = Raise e ->
       result_of (dispatch op i v) = Raise e).
Proof.
  intros (Ht & Hr & Hc & Hen) Hm Hans v'.
  assert (Hch : children v' = map (fun child => mkButton grey (custom_id child) true)
                                  (children v)) by apply on_timeout_children.
  destruct Hc as (b0 & b1 & b2 & b3 & Hc0). pose proof Hc0 as Hc1.
  rewrite Hc1 in Hch. cbn in Hch.
  split; [| split; [| split; [| split]]].
  - unfold on_timeout, mbind, modify, suppress_http, get, request. cbn.
    rewrite Hm. cbn. destruct Hans as [-> | ->]; reflexivity.
  - rewrite Hch. reflexivity.
  - rewrite Hch. reflexivity.
  - rewrite Hch. unfold on_timeout, mbind, modify, suppress_http, get, request. cbn.
    rewrite Hm, Hc1. cbn. destruct Hans as [-> | ->]; reflexivity.
  - intros op i e Ho. rewrite (dispatch_owner op i v Ho).
    assert (Hfour : four_children v) by (do 4 eexists; exact Hc0).
    destruct (callback_cases op i v Ht Hr Hfour)
      as [(_ & Hnone & Hdefer) | (pg & p' & v1 & Hd & Hnav & Hcb & _)].
    + split.
      * intros Hd. rewrite (Hdefer e Hd). reflexivity.
      * intros pg p' Hd Hnav _. destruct (Hnone Hd) as [Hnav' _].
        rewrite Hnav' in Hnav. discriminate Hnav.
    + split.
      * intros Hd'. rewrite Hd in Hd'. discriminate Hd'.
      * intros _ _ _ _ He. rewrite Hcb. cbn. exact He.
Qed.

Lemma timeout_swallows_navigation_raises_witness :
  let v := set_message (mkMessage (Raise HTTPException)) sample_view in
  let v' := view_of (on_timeout v) in
  result_of (on_timeout v) = Return tt /\
  map disabled (children v') = [true; true; true; true] /\
  map style (children v') = [grey; grey; grey; grey] /\
  requests_of (on_timeout v) = [EditMessage None (children v')] /\
  forall (op : Nav) (i : Interaction) (e : exn),
    user_id i = ctx_author_id v ->
    (defer_answer i = Raise e -> result_of (dispatch op i v) = Raise e) /\
    (forall pg p',
       defer_answer i = Return tt ->
       navigate op (view_pages v) = (Return (Some pg), p') ->
       edit_answer i = Raise e ->
       result_of (dispatch op i v) = Raise e).
Proof.
  intros v.
  apply (timeout_swallows_navigation_raises v (mkMessage (Raise HTTPException))).
  - unfold session_inv, cursor_in_range, four_children, enablement_ok, disabled_flags, total.
    cbn. repeat split; try lia; try reflexivity.
    do 4 eexists. reflexivity.
  - reflexivity.
  - right. reflexivity.
Defined.

(** A failing edit while the owner navigates comes out of the callback;
    the same failure in [on_timeout] does not. *)
Example failing_edit :
  let v := set_message (mkMessage (Raise HTTPException)) sample_view in
  let i := mkInteraction 7 (Return tt) (Raise HTTPException) (Return tt) in
  result_of (dispatch NavNext i v) = Raise HTTPException /\
  cur_page (view_pages (view_of (dispatch NavNext i v))) = 2 /\
  result_of (on_timeout v) = Return tt.
Proof. vm_compute. repeat split. Qed.

End ViewFacts.

Module UtilsFacts.
Import Utils Paginator.

(** ** Lists, strings and loops *)

Lemma str_len_append (s t : string) : str_len (s ++ t)%string = str_len s + str_len t.
Proof.
  unfold str_len. induction s as [| ch s IH]; cbn [String.append String.length].
  - reflexivity.
  - lia.
Qed.

Lemma str_len_newline : str_len newline = 1.
Proof. reflexivity. Qed.

Lemma str_len_nonneg (s : string) : 0 <= str_len s.
Proof. unfold str_len. lia. Qed.

Lemma append_empty_r (s : string) : (s ++ "")%string = s.
Proof. induction s as [| ch s IH]; cbn; [| rewrite IH]; reflexivity. Qed.

Lemma append_assoc (s t u : string) : ((s ++ t) ++ u)%string = (s ++ t ++ u)%string.
Proof. induction s as [| ch s IH]; cbn; [| rewrite IH]; reflexivity. Qed.

Lemma for_each_app {S A : Type} (body : S -> A -> result S) (st : S) (xs ys : list A) :
  for_each body st (xs ++ ys) = (st' <- for_each body st xs ;; for_each body st' ys).
Proof.
  revert st. induction xs as [| x xs IH]; intros st; cbn.
  - reflexivity.
  - destruct (body st x) as [st1 | e]; cbn; [apply IH | reflexivity].
Qed.

Lemma enumerate_from_app {A : Type} (i : Z) (xs ys : list A) :
  enumerate_from i (xs ++ ys) = enumerate_from i xs ++ enumerate_from (i + len xs) ys.
Proof.
  revert i. induction xs as [| x xs IH]; intros i; cbn.
  - unfold len. cbn. rewrite Z.add_0_r. reflexivity.
  - rewrite IH. unfold len. cbn [List.length].
    replace (i + 1 + Z.of_nat (List.length xs)) with (i + Z.of_nat (S (List.length xs))) by lia.
    reflexivity.
Qed.

Lemma Forall2_firstn {A B : Type} (R : A -> B -> Prop) (n : nat) (xs : list A) (ys : list B) :
  Forall2 R xs ys -> Forall2 R (firstn n xs) (firstn n ys).
Proof.
  intros H. revert n. induction H as [| x y xs ys Hxy _ IH]; intros [| n]; cbn;
    constructor; [exact Hxy | apply IH].
Qed.

Lemma Forall2_skipn {A B : Type} (R : A -> B -> Prop) (n : nat) (xs : list A) (ys : list B) :
  Forall2 R xs ys -> Forall2 R (skipn n xs) (skipn n ys).
Proof.
  intros H. revert n. induction H as [| x y xs ys Hxy H IH]; intros [| n]; cbn.
  - constructor.
  - constructor.
  - constructor; assumption.
  - apply IH.
Qed.

(** [ceil(n / k)] on integers. *)
Definition ceil_div (n k : Z) : Z := (n + k - 1) / k.

Lemma ceil_div_spec (n k : Z) :
  0 < k -> k * (ceil_div n k - 1) < n <= k * ceil_div n k.
Proof.
  intros Hk. unfold ceil_div.
  pose proof (Z.div_mod (n + k - 1) k ltac:(lia)) as Hdm.
  pose proof (Z.mod_pos_bound (n + k - 1) k Hk) as Hb.
  nia.
Qed.

(** [chunks_of] cuts [n] items into [ceil(n / size)] groups. *)
Lemma chunks_of_count {A : Type} (k : nat) (xs : list A) :
  len (chunks_of (S k) xs) = ceil_div (len xs) (Z.of_nat (S k)).
Proof.
  remember (List.length xs) as m eqn:Hm.
  revert xs Hm. induction m as [m IH] using lt_wf_ind. intros xs Hm.
  destruct xs as [| x xs]; simp chunks_of.
  - unfold ceil_div, len. cbn [List.length].
    symmetry. apply Z.div_small. lia.
  - unfold len in *. cbn [List.length] in *.
    specialize (IH (List.length (skipn k xs))).
    rewrite length_skipn in IH.
    specialize (IH ltac:(lia) (skipn k xs) ltac:(rewrite length_skipn; reflexivity)).
    rewrite Nat2Z.inj_succ, IH, length_skipn. unfold ceil_div.
    destruct (Nat.le_gt_cases k (List.length xs)) as [Hge | Hlt].
    + replace (Z.of_nat (S (List.length xs)) + Z.of_nat (S k) - 1)
        with (Z.of_nat (List.length xs - k) + Z.of_nat (S k) - 1 + 1 * Z.of_nat (S k)) by lia.
      rewrite Z.div_add by lia. lia.
    + replace (List.length xs - k)%nat with 0%nat by lia.
      replace (Z.of_nat (S (List.length xs)) + Z.of_nat (S k) - 1)
        with (Z.of_nat (List.length xs) + 1 * Z.of_nat (S k)) by lia.
      rewrite Z.div_add by lia.
      rewrite (Z.div_small (Z.of_nat 0 + Z.of_nat (S k) - 1)) by lia.
      rewrite (Z.div_small (Z.of_nat (List.length xs))) by lia. lia.
Qed.

Section CreateEmbedsFacts.

Variable Dict : Type.
Variable format : string -> Dict -> result string.
Variable fmt_line : string.
Variable c : option Z.

(** [lines] are the renderings of [arguments], in order. *)
Definition rendered (arguments : list Dict) (lines : list string) : Prop :=
  Forall2 (fun arg line => format fmt_line arg = Return line) arguments lines.

(** The text a unit holds once [lines] were added to it. *)
Fixpoint unit_text (lines : list string) : string :=
  match lines with
  | [] => ""
  | line :: lines' => (line ++ newline ++ unit_text lines')%string
  end.

Definition unit_embed (lines : list string) : Embed := mkEmbed "" (unit_text lines) c None.

(** ** Empty input *)

(** C9: for the empty argument list [create_embeds] returns [None]: no
    list at all, in particular not a list holding one empty embed. *)
Theorem create_embeds_empty (per_page : option Z) :
  create_embeds format fmt_line c per_page [] = Return None.
Proof. reflexivity. Qed.

(** ** The size trigger *)

Lemma exceeds_true (st : LoopState) (line : string) :
  exceeds st line = true <->
  str_len (description (embed st)) + str_len line + 1 > max_desc_length.
Proof. unfold exceeds. rewrite Z.gtb_gt. reflexivity. Qed.

Lemma exceeds_false (st : LoopState) (line : string) :
  exceeds st line = false <->
  str_len (description (embed st)) + str_len line + 1 <= max_desc_length.
Proof.
  unfold exceeds. rewrite Z.gtb_ltb, Z.ltb_ge. reflexivity.
Qed.

(** The state after an iteration that closed the unit first, and after
    one that did not. *)
Definition closed_then_added (n i : Z) (st : LoopState) (line : string) : LoopState :=
  mkLoop (embeds st ++ [embed st])
         (mkEmbed "" (line ++ newline) c None)
         (if i =? n - 1 then true else append_list st).

Definition added (n i : Z) (st : LoopState) (line : string) : LoopState :=
  mkLoop (embeds st)
         (set_description (description (embed st) ++ line ++ newline) (embed st))
         (if i =? n - 1 then true else append_list st).

Lemma loop_body_closed (per_page : option Z) (n i : Z) (st : LoopState)
      (arg : Dict) (line : string) :
  format fmt_line arg = Return line ->
  split_step c per_page st i line = Return (close_unit c st) ->
  loop_body format fmt_line c per_page n st (i, arg) = Return (closed_then_added n i st line).
Proof.
  intros Hf Hs. unfold loop_body. rewrite Hf. cbn [bind]. rewrite Hs. reflexivity.
Qed.

Lemma loop_body_kept (per_page : option Z) (n i : Z) (st : LoopState)
      (arg : Dict) (line : string) :
  format fmt_line arg = Return line ->
  split_step c per_page st i line = Return st ->
  loop_body format fmt_line c per_page n st (i, arg) = Return (added n i st line).
Proof.
  intros Hf Hs. unfold loop_body. rewrite Hf. cbn [bind]. rewrite Hs. reflexivity.
Qed.





(** ** The count trigger *)

Definition unit_len (lines : list string) : Z := str_len (unit_text lines).

Lemma unit_len_cons (line : string) (lines : list string) :
  unit_len (line :: lines) = str_len line + 1 + unit_len lines.
Proof.
  unfold unit_len. cbn [unit_text].
  rewrite !str_len_append, str_len_newline. lia.
Qed.

Lemma unit_len_nonneg (lines : list string) : 0 <= unit_len lines.
Proof. apply str_len_nonneg. Qed.

Section PerPage.

(** [per_page] is [k + 1] for a natural [k], that is, at least 1. *)
Variable k : nat.
Variable n : Z.

Let per_page : Z := Z.of_nat (S k).
Let body := loop_body format fmt_line c (Some per_page) n.

Lemma trigger_at (i : Z) :
  per_page_trigger (Some per_page) i = Return (i mod per_page =? 0).
Proof.
  unfold per_page_trigger, py_mod. cbn [Z.gtb Z.compare].
  destruct (Z.eqb_spec per_page 0) as [H0 | _]; [subst per_page; lia | reflexivity].
Qed.

(** Records at positions that are no multiple of [per_page], fitting
    into what is left of the budget, join the current unit. *)
Lemma run_inside (arguments : list Dict) (lines : list string) :
  rendered arguments lines ->
  forall (st : LoopState) (i : Z),
    (forall j, i <= j < i + len lines -> j mod per_page <> 0) ->
    str_len (description (embed st)) + unit_len lines <= max_desc_length ->
    exists b,
      for_each body st (enumerate_from i arguments) =
      Return (mkLoop (embeds st)
                     (set_description (description (embed st) ++ unit_text lines)
                                      (embed st))
                     b).
Proof.
  induction 1 as [| arg line arguments lines Hf _ IH]; intros st i Hpos Hfit.
  - exists (append_list st). cbn. rewrite append_empty_r.
    destruct st as [es [t d co fo] b]. reflexivity.
  - rewrite unit_len_cons in Hfit.
    pose proof (unit_len_nonneg lines) as Hnn.
    assert (Hstep : body st (i, arg) = Return (added n i st line)).
    { apply loop_body_kept; [exact Hf |].
      unfold split_step.
      assert (Hex : exceeds st line = false) by (apply exceeds_false; lia).
      rewrite Hex, trigger_at. cbn [bind].
      destruct (Z.eqb_spec (i mod per_page) 0) as [H0 | _]; [| reflexivity].
      exfalso. apply (Hpos i); [| exact H0].
      unfold len. cbn [List.length]. lia. }
    cbn [enumerate_from for_each]. rewrite Hstep. cbn [bind].
    destruct (IH (added n i st line) (i + 1)) as [b Hb].
    + intros j Hj. apply Hpos. unfold len in *. cbn [List.length]. lia.
    + cbn. rewrite !str_len_append, str_len_newline. lia.
    + exists b. rewrite Hb. cbn. rewrite !append_assoc. reflexivity.
Qed.

(** A group of at most [per_page] records that starts at a multiple of
    [per_page] and fits into the budget: the unit before it is closed,
    and the group becomes the current unit. *)
Lemma run_chunk (arg : Dict) (arguments : list Dict) (line : string) (lines : list string) :
  rendered (arg :: arguments) (line :: lines) ->
  forall (st : LoopState) (i : Z),
    0 <= i ->
    i mod per_page = 0 ->
    len (line :: lines) <= per_page ->
    unit_len (line :: lines) <= max_desc_length ->
    exists b,
      for_each body st (enumerate_from i (arg :: arguments)) =
      Return (mkLoop (embeds st ++ [embed st]) (unit_embed (line :: lines)) b).
Proof.
  intros Hr st i Hi Hmod Hlen Hfit.
  inversion Hr as [| ? ? ? ? Hf Hrest]; subst.
  rewrite unit_len_cons in Hfit. pose proof (unit_len_nonneg lines) as Hnn.
  assert (Hstep : body st (i, arg) = Return (closed_then_added n i st line)).
  { apply loop_body_closed; [exact Hf |].
    unfold split_step. destruct (exceeds st line); [reflexivity |].
    rewrite trigger_at, Hmod. reflexivity. }
  cbn [enumerate_from for_each]. rewrite Hstep. cbn [bind].
  destruct (run_inside arguments lines Hrest (closed_then_added n i st line) (i + 1))
    as [b Hb].
  - intros j Hj Hj0.
    unfold len in Hlen, Hj. cbn [List.length] in Hlen.
    assert (Hpp : 0 < per_page) by (subst per_page; lia).
    apply Z.mod_divide in Hmod; [| lia]. apply Z.mod_divide in Hj0; [| lia].
    destruct Hmod as [q Hq]. destruct Hj0 as [q' Hq'].
    assert (q < q') by nia. assert (q' < q + 1) by nia. lia.
  - cbn. rewrite !str_len_append, str_len_newline. lia.
  - exists b. rewrite Hb. cbn. unfold unit_embed. cbn [unit_text].
    rewrite !append_assoc. reflexivity.
Qed.

(** The last iteration, and only it, sets [append_list]. *)
Lemma append_list_set (arguments : list Dict) :
  forall (st st' : LoopState) (i : Z),
    arguments <> [] ->
    i + len arguments = n ->
    for_each body st (enumerate_from i arguments) = Return st' ->
    append_list st' = true.
Proof.
  induction arguments as [| arg arguments IH]; intros st st' i Hne Hn Hrun;
    [contradiction |].
  cbn [enumerate_from for_each] in Hrun.
  destruct (body st (i, arg)) as [st1 |] eqn:Hb; [| discriminate Hrun].
  cbn [bind] in Hrun.
  destruct arguments as [| arg' arguments].
  - cbn in Hrun. injection Hrun as <-.
    unfold body, loop_body in Hb.
    destruct (format fmt_line arg) as [line |]; [| discriminate Hb]. cbn [bind] in Hb.
    destruct (split_step c (Some per_page) st i line) as [st2 |]; [| discriminate Hb].
    cbn [bind] in Hb. injection Hb as <-. cbn.
    unfold len in Hn. cbn in Hn.
    destruct (Z.eqb_spec i (n - 1)) as [_ | Hbad]; [reflexivity | lia].
  - apply (IH st1 st' (i + 1)); [discriminate | | exact Hrun].
    unfold len in *. cbn [List.length] in *. lia.
Qed.

(** Records cut into groups of [per_page] as [chunks_of] cuts them,
    each group fitting into the budget: every group is closed into a
    unit of its own, after the unit that was current at the start. *)
Lemma run_chunks (m : nat) :
  forall (lines : list string) (arguments : list Dict) (st : LoopState) (i : Z),
    (List.length lines <= m)%nat ->
    rendered arguments lines ->
    0 <= i ->
    i mod per_page = 0 ->
    Forall (fun ch => unit_len ch <= max_desc_length) (chunks_of (S k) lines) ->
    exists st',
      for_each body st (enumerate_from i arguments) = Return st' /\
      embeds st' ++ [embed st'] =
        embeds st ++ [embed st] ++ map unit_embed (chunks_of (S k) lines).
Proof.
  induction m as [| m IH]; intros lines arguments st i Hm Hr Hi Hmod Hfit.
  - destruct lines; [| cbn in Hm; lia]. inversion Hr; subst.
    exists st. simp chunks_of. cbn. split; reflexivity.
  - destruct Hr as [| arg line arguments lines Hf Hr].
    { exists st. simp chunks_of. cbn. split; reflexivity. }
    simp chunks_of in Hfit |- *.
    apply Forall_cons_iff in Hfit. destruct Hfit as [Hfit1 Hfit].
    assert (Hsplit : arg :: arguments = (arg :: firstn k arguments) ++ skipn k arguments).
    { cbn. rewrite firstn_skipn. reflexivity. }
    rewrite Hsplit, enumerate_from_app, for_each_app.
    destruct (run_chunk arg (firstn k arguments) line (firstn k lines)) with (st := st) (i := i)
      as [b Hb]; try assumption.
    { constructor; [exact Hf | apply Forall2_firstn; exact Hr]. }
    { unfold len. cbn [List.length]. rewrite length_firstn. subst per_page. lia. }
    fold body in Hb. rewrite Hb. cbn [bind].
    pose proof (Forall2_length Hr) as Hlen.
    destruct (Nat.le_gt_cases (List.length lines) k) as [Hshort | Hlong].
    + rewrite (skipn_all2 arguments) by lia.
      rewrite (skipn_all2 lines) by lia.
      simp chunks_of. cbn. eexists. split; [reflexivity |].
      cbn. rewrite <- app_assoc. reflexivity.
    + destruct (IH (skipn k lines) (skipn k arguments)
                   (mkLoop (embeds st ++ [embed st]) (unit_embed (line :: firstn k lines)) b)
                   (i + len (arg :: firstn k arguments)))
        as (st' & Hrun & Hunits).
      * rewrite length_skipn. cbn in Hm. lia.
      * apply Forall2_skipn. exact Hr.
      * unfold len. lia.
      * unfold len. cbn [List.length]. rewrite length_firstn.
        replace (Z.of_nat (S (Nat.min k (List.length arguments)))) with (1 * per_page)
          by (subst per_page; lia).
        rewrite Z.mod_add by (subst per_page; lia). exact Hmod.
      * exact Hfit.
      * exists st'. split; [exact Hrun |]. rewrite Hunits. cbn.
        rewrite <- app_assoc. reflexivity.
Qed.

End PerPage.

Definition fits (lines : list string) : Prop := unit_len lines <= 4096.

(** With [per_page = k >= 1] and every group of [k] records fitting into
    the budget, the result is an empty embed followed by one embed for
    each group. *)
Lemma per_page_units (k : Z) (arguments : list Dict) (lines : list string) :
  1 <= k ->
  arguments <> [] ->
  rendered arguments lines ->
  Forall fits (chunks_of (Z.to_nat k) lines) ->
  create_embeds format fmt_line c (Some k) arguments =
  Return (Some (Embed_new c :: map unit_embed (chunks_of (Z.to_nat k) lines))).
Proof.
  intros Hk Hne Hr Hfit.
  destruct (Z.to_nat k) as [| k'] eqn:Hk'; [lia |].
  assert (Hkz : k = Z.of_nat (S k')) by lia.
  destruct arguments as [| arg arguments]; [contradiction |].
  unfold create_embeds, enumerate.
  destruct (run_chunks k' (len (arg :: arguments)) (List.length lines) lines
              (arg :: arguments) (loop_init c) 0 (le_n _) Hr (Z.le_refl 0))
    as (st' & Hrun & Hunits).
  - apply Z.mod_0_l. lia.
  - exact Hfit.
  - rewrite Hkz, Hrun. cbn [bind].
    rewrite (append_list_set k' (len (arg :: arguments)) (arg :: arguments)
               (loop_init c) st' 0); [| discriminate | reflexivity | exact Hrun].
    rewrite Hunits. reflexivity.
Qed.

(** C2, as the code has it: for a non-empty argument list and
    [per_page = k >= 1], when every group of [k] consecutive records
    (records [0..k-1], [k..2k-1], ...) fits, with its separators, into 4096
    characters, the trigger fires on record 0, the first embed of the result
    has an empty description, and the result holds [1 + ceil(n / k)] embeds
    for [n] records: the empty one and one per group. *)
Theorem leading_empty_unit (k : Z) (arguments : list Dict) (lines : list string) :
  1 <= k ->
  arguments <> [] ->
  rendered arguments lines ->
  Forall fits (chunks_of (Z.to_nat k) lines) ->
  exists first rest,
    create_embeds format fmt_line c (Some k) arguments = Return (Some (first :: rest)) /\
    description first = "" /\
    rest = map unit_embed (chunks_of (Z.to_nat k) lines) /\
    len (first :: rest) = 1 + ceil_div (len arguments) k.
Proof.
  intros Hk Hne Hr Hfit.
  exists (Embed_new c), (map unit_embed (chunks_of (Z.to_nat k) lines)).
  split; [apply per_page_units; assumption |].
  split; [reflexivity |]. split; [reflexivity |].
  unfold len at 1. cbn [List.length]. rewrite length_map, Nat2Z.inj_succ.
  destruct (Z.to_nat k) as [| k'] eqn:Hk'; [lia |].
  fold (len (chunks_of (S k') lines)). rewrite chunks_of_count.
  unfold len. rewrite <- (Forall2_length Hr).
  replace (Z.of_nat (S k')) with k by lia. lia.
Qed.

(** C1, what the code does: with [per_page = 2] and five records whose
    groups fit into the budget, the result holds four embeds, not three:
    an empty one, closed before record 0 is added, and then the records
    two, two and one to a unit. *)
Theorem five_records_two_per_page (a0 a1 a2 a3 a4 : Dict) (l0 l1 l2 l3 l4 : string) :
  rendered [a0; a1; a2; a3; a4] [l0; l1; l2; l3; l4] ->
  fits [l0; l1] -> fits [l2; l3] -> fits [l4] ->
  create_embeds format fmt_line c (Some 2) [a0; a1; a2; a3; a4] =
  Return (Some [Embed_new c; unit_embed [l0; l1]; unit_embed [l2; l3]; unit_embed [l4]]).
Proof.
  intros Hr H01 H23 H4.
  rewrite (per_page_units 2 [a0; a1; a2; a3; a4] [l0; l1; l2; l3; l4]).
  - reflexivity.
  - lia.
  - discriminate.
  - exact Hr.
  - change (Z.to_nat 2) with 2%nat. simp chunks_of. cbn [firstn skipn].
    simp chunks_of. cbn [firstn skipn]. simp chunks_of.
    repeat constructor; assumption.
Qed.

End CreateEmbedsFacts.

Arguments unit_embed c lines : clear implicits.
Arguments rendered {Dict} format fmt_line arguments lines.

(** ** Concrete runs *)

Ltac fits_by_computation := apply Z.leb_le; vm_compute; reflexivity.

Definition record (value : string) : StrDict := [("x", value)].

(** [n] copies of a character. *)
Fixpoint copies (n : nat) (ch : ascii) : string :=
  match n with
  | O => ""
  | S n' => String ch (copies n' ch)
  end.

Definition five_records : list StrDict :=
  [record "a"; record "b"; record "c"; record "d"; record "e"].

Lemma five_records_two_per_page_witness :
  create_embeds str_format "{x}" None (Some 2) five_records =
  Return (Some [Embed_new None; unit_embed None ["a"; "b"]; unit_embed None ["c"; "d"];
                unit_embed None ["e"]]).
Proof.
  apply (five_records_two_per_page StrDict str_format "{x}" None
           (record "a") (record "b") (record "c") (record "d") (record "e")).
  - repeat constructor.
  - fits_by_computation.
  - fits_by_computation.
  - fits_by_computation.
Defined.

Lemma leading_empty_unit_witness :
  exists first rest,
    create_embeds str_format "{x}" None (Some 2) five_records = Return (Some (first :: rest)) /\
    description first = "" /\
    rest = map (unit_embed None) (chunks_of (Z.to_nat 2) ["a"; "b"; "c"; "d"; "e"]) /\
    len (first :: rest) = 1 + ceil_div (len five_records) 2.
Proof.
  apply (leading_empty_unit StrDict str_format "{x}" None 2 five_records
           ["a"; "b"; "c"; "d"; "e"]).
  - lia.
  - discriminate.
  - repeat constructor.
  - change (Z.to_nat 2) with 2%nat. repeat (simp chunks_of; cbn [firstn skipn]).
    repeat constructor; fits_by_computation.
Defined.

(** The unit sizes of a result, to read off where it was split. *)
Definition description_lengths (r : result (option (list Embed))) : option (list Z) :=
  match r with
  | Return (Some es) => Some (map (fun e => str_len (description e)) es)
  | _ => None
  end.

(** C2 as stated fails: three records of 2047 characters, each of which
    fits with its separator, and [per_page = 3].  The third does not fit
    next to the first two, the size trigger closes their unit, and the result
    holds three embeds where [1 + ceil(3 / 3)] is two. *)
Lemma accumulated_lines_add_units :
  let line := copies 2047 "a" in
  let arguments := [record line; record line; record line] in
  str_format "{x}" (record line) = Return line /\
  str_len line + 1 <= 4096 /\
  description_lengths (create_embeds str_format "{x}" None (Some 3) arguments)
    = Some [0; 4096; 2048] /\
  1 + ceil_div (len arguments) 3 = 2.
Proof. vm_compute. repeat split. discriminate. Qed.



(** ** group_items_by *)

(** *** Dotted names

    The documentation calls each element of the key path an attribute name;
    the code also accepts a dotted name, [a.b], for the attribute [b] of the
    attribute [a].  [dotted] writes such a name from its parts, none of which
    holds a dot. *)
Fixpoint plain_name (s : string) : bool :=
  match s with
  | EmptyString => true
  | String ch s' => negb (Ascii.eqb ch ".") && plain_name s'
  end.

Definition dotted (names : list string) : string := String.concat "." names.

Lemma dotted_cons (n n' : string) (ns : list string) :
  dotted (n :: n' :: ns) = (n ++ String "." (dotted (n' :: ns)))%string.
Proof. reflexivity. Qed.

Lemma plain_name_snoc (s : string) (ch : ascii) :
  plain_name s = true -> Ascii.eqb ch "." = false ->
  plain_name (s ++ String ch "")%string = true.
Proof.
  intros Hs Hch. induction s as [| a s IH]; cbn in *.
  - rewrite Hch. reflexivity.
  - apply andb_true_iff in Hs. destruct Hs as [Ha Hs]. rewrite Ha, (IH Hs). reflexivity.
Qed.

Lemma split_go_plain (n cur : string) :
  plain_name n = true -> split_go "." n cur = [(cur ++ n)%string].
Proof.
  revert cur. induction n as [| ch n IH]; intros cur Hn; cbn in *.
  - rewrite append_empty_r. reflexivity.
  - apply andb_true_iff in Hn. destruct Hn as [Hch Hn].
    apply negb_true_iff in Hch. rewrite Hch, (IH _ Hn), append_assoc. reflexivity.
Qed.

Lemma split_go_dot (n rest cur : string) :
  plain_name n = true ->
  split_go "." (n ++ String "." rest) cur = (cur ++ n)%string :: split_go "." rest "".
Proof.
  revert cur. induction n as [| ch n IH]; intros cur Hn; cbn in *.
  - rewrite append_empty_r. reflexivity.
  - apply andb_true_iff in Hn. destruct Hn as [Hch Hn].
    apply negb_true_iff in Hch. rewrite Hch, (IH _ Hn), append_assoc. reflexivity.
Qed.

Lemma split_go_dotted (ns : list string) :
  forall n cur,
    Forall (fun name => plain_name name = true) (n :: ns) ->
    split_go "." (dotted (n :: ns)) cur = (cur ++ n)%string :: ns.
Proof.
  induction ns as [| n' ns IH]; intros n cur Hall.
  - apply Forall_inv in Hall. apply (split_go_plain n cur Hall).
  - pose proof (Forall_inv Hall) as Hn. apply Forall_inv_tail in Hall.
    rewrite dotted_cons, (split_go_dot n _ cur Hn), (IH n' "" Hall). reflexivity.
Qed.

(** [split] reads a dotted name back into its parts. *)
Lemma split_dotted (n : string) (ns : list string) :
  Forall (fun name => plain_name name = true) (n :: ns) ->
  split "." (dotted (n :: ns)) = n :: ns.
Proof. intros Hall. unfold split. rewrite (split_go_dotted ns n "" Hall). reflexivity. Qed.

(** And every string is a dotted name, of the parts [split] gives. *)
Lemma split_go_parts (s cur : string) :
  plain_name cur = true ->
  split_go "." s cur <> [] /\
  Forall (fun name => plain_name name = true) (split_go "." s cur) /\
  dotted (split_go "." s cur) = (cur ++ s)%string.
Proof.
  revert cur. induction s as [| ch s IH]; intros cur Hcur; cbn [split_go].
  - split; [discriminate |]. split; [repeat constructor; exact Hcur |].
    cbn. rewrite append_empty_r. reflexivity.
  - destruct (Ascii.eqb ch ".") eqn:Hch.
    + apply Ascii.eqb_eq in Hch. subst ch.
      destruct (IH "" eq_refl) as (Hne & Hall & Hd).
      split; [discriminate |]. split; [constructor; assumption |].
      destruct (split_go "." s "") as [| t ts]; [contradiction |].
      rewrite dotted_cons, Hd. reflexivity.
    + destruct (IH (cur ++ String ch "")%string (plain_name_snoc cur ch Hcur Hch))
        as (Hne & Hall & Hd).
      split; [exact Hne |]. split; [exact Hall |].
      rewrite Hd, append_assoc. reflexivity.
Qed.

Section GroupFacts.

Variable Obj : Type.
Variable getattr : Obj -> string -> result Obj.
Variable hashable : Obj -> bool.
Variable eqb : Obj -> Obj -> bool.

(** The keys of a dict are told apart by [==]. *)
Hypothesis eqb_eq : forall x y, eqb x y = true <-> x = y.

(** The value an item is grouped by, as the code computes it. *)
Definition key_of (key : string) (item : Obj) : result Obj :=
  get_attr getattr item (split "." key).

(** The same value in the words of the documentation: [v] is what the
    attribute names [names], followed one after the other from [obj], lead
    to. *)
Inductive has_value : Obj -> list string -> Obj -> Prop :=
| value_here (obj : Obj) : has_value obj [] obj
| value_there (obj next v : Obj) (name : string) (names : list string) :
    getattr obj name = Return next ->
    has_value next names v ->
    has_value obj (name :: names) v.

(** [v] is the value of the key [key] on [item]: the key is a name, or
    names joined by dots, and [v] is where they lead. *)
Definition key_value (key : string) (item v : Obj) : Prop :=
  exists names,
    names <> [] /\
    Forall (fun name => plain_name name = true) names /\
    dotted names = key /\
    has_value item names v.

Lemma get_attr_has_value (names : list string) :
  forall obj v, get_attr getattr obj names = Return v <-> has_value obj names v.
Proof.
  induction names as [| name names IH]; intros obj v; cbn [get_attr].
  - split.
    + intros H. injection H as <-. constructor.
    + intros H. inversion H. reflexivity.
  - split.
    + intros H. destruct (getattr obj name) as [next |] eqn:Hn; [| discriminate H].
      cbn [bind] in H. apply (value_there obj next v name names Hn). apply IH. exact H.
    + intros H. inversion H as [| o next v' name' names' Hn Hrest]; subst.
      rewrite Hn. cbn [bind]. apply IH. exact Hrest.
Qed.

(** The attribute access fails with [e] somewhere along [names]. *)
Inductive raises_at : Obj -> list string -> exn -> Prop :=
| raises_here (obj : Obj) (name : string) (names : list string) (e : exn) :
    getattr obj name = Raise e ->
    raises_at obj (name :: names) e
| raises_there (obj next : Obj) (name : string) (names : list string) (e : exn) :
    getattr obj name = Return next ->
    raises_at next names e ->
    raises_at obj (name :: names) e.

(** The key [key] has no value on [item]: reading it raises [e]. *)
Definition key_error (key : string) (item : Obj) (e : exn) : Prop :=
  exists names,
    names <> [] /\
    Forall (fun name => plain_name name = true) names /\
    dotted names = key /\
    raises_at item names e.

Lemma get_attr_raises_at (names : list string) :
  forall obj e, get_attr getattr obj names = Raise e <-> raises_at obj names e.
Proof.
  induction names as [| name names IH]; intros obj e; cbn [get_attr].
  - split; [discriminate | intros H; inversion H].
  - split.
    + intros H. destruct (getattr obj name) as [next | e'] eqn:Hn; cbn [bind] in H.
      * apply (raises_there obj next name names e Hn). apply IH. exact H.
      * injection H as ->. apply raises_here. exact Hn.
    + intros H. inversion H as [o n ns e' Hn | o next n ns e' Hn Hrest]; subst.
      * rewrite Hn. reflexivity.
      * rewrite Hn. cbn [bind]. apply IH. exact Hrest.
Qed.

Lemma key_of_key_error (key : string) (item : Obj) (e : exn) :
  key_of key item = Raise e <-> key_error key item e.
Proof.
  unfold key_of, key_error. split.
  - intros Hk. exists (split "." key).
    destruct (split_go_parts key "" eq_refl) as (Hne & Hall & Hd).
    split; [exact Hne |]. split; [exact Hall |]. split; [exact Hd |].
    apply get_attr_raises_at. exact Hk.
  - intros (names & Hne & Hall & <- & Hv).
    destruct names as [| n ns]; [contradiction |].
    rewrite (split_dotted n ns Hall). apply get_attr_raises_at. exact Hv.
Qed.

(** The code groups by the value of the key. *)
Lemma key_of_key_value (key : string) (item v : Obj) :
  key_of key item = Return v <-> key_value key item v.
Proof.
  unfold key_of, key_value. split.
  - intros Hk. exists (split "." key).
    destruct (split_go_parts key "" eq_refl) as (Hne & Hall & Hd).
    split; [exact Hne |]. split; [exact Hall |]. split; [exact Hd |].
    apply get_attr_has_value. exact Hk.
  - intros (names & Hne & Hall & <- & Hv).
    destruct names as [| n ns]; [contradiction |].
    rewrite (split_dotted n ns Hall). apply get_attr_has_value. exact Hv.
Qed.

Let Groups := list (Obj * list Obj).

Lemma dict_contains_In (v : Obj) (d : Groups) :
  dict_contains Obj eqb v d = true <-> In v (map fst d).
Proof.
  induction d as [| [k g] d IH]; cbn.
  - split; [discriminate | contradiction].
  - rewrite orb_true_iff, eqb_eq, IH. reflexivity.
Qed.

Lemma eqb_neq (x y : Obj) : x <> y -> eqb x y = false.
Proof.
  intros Hne. destruct (eqb x y) eqn:He; [| reflexivity].
  apply eqb_eq in He. contradiction.
Qed.

Lemma dict_setitem_fresh (v : Obj) (g : list Obj) (d : Groups) :
  ~ In v (map fst d) -> dict_setitem Obj eqb v g d = d ++ [(v, g)].
Proof.
  induction d as [| [k g'] d IH]; cbn; intros Hfresh.
  - reflexivity.
  - rewrite eqb_neq by tauto. rewrite IH by tauto. reflexivity.
Qed.

Lemma dict_append_last (v x : Obj) (g : list Obj) (d : Groups) :
  ~ In v (map fst d) ->
  dict_append Obj eqb v x (d ++ [(v, g)]) = Return (d ++ [(v, g ++ [x])]).
Proof.
  induction d as [| [k g'] d IH]; cbn; intros Hfresh.
  - replace (eqb v v) with true by (symmetry; apply eqb_eq; reflexivity). reflexivity.
  - rewrite eqb_neq by tauto. rewrite IH by tauto. reflexivity.
Qed.

(** An item either meets its value among the keys and is dropped, or
    opens a group of its own at the end. *)
Lemma group_step_cases (key : string) (groups : Groups) (item v : Obj) :
  key_of key item = Return v ->
  hashable v = true ->
  (In v (map fst groups) /\ group_step Obj getattr hashable eqb key groups item = Return groups) \/
  (~ In v (map fst groups) /\
   group_step Obj getattr hashable eqb key groups item = Return (groups ++ [(v, [item])])).
Proof.
  intros Hk Hh. unfold group_step, hash_key. fold (key_of key item).
  rewrite Hk. cbn [bind]. rewrite Hh. cbn [bind].
  destruct (dict_contains Obj eqb v groups) eqn:Hc; cbn [negb].
  - left. split; [apply dict_contains_In; exact Hc | reflexivity].
  - right.
    assert (Hfresh : ~ In v (map fst groups)).
    { intros Hin. apply dict_contains_In in Hin. congruence. }
    split; [exact Hfresh |].
    rewrite dict_setitem_fresh by exact Hfresh.
    apply (dict_append_last v item [] groups Hfresh).
Qed.

Lemma group_step_returns (key : string) (groups groups' : Groups) (item : Obj) :
  group_step Obj getattr hashable eqb key groups item = Return groups' ->
  exists v, key_of key item = Return v /\ hashable v = true.
Proof.
  unfold group_step, hash_key. fold (key_of key item).
  destruct (key_of key item) as [v | e]; [| discriminate]. cbn [bind].
  destruct (hashable v) eqn:Hh; [| discriminate].
  intros _. exists v. split; [reflexivity | exact Hh].
Qed.

(** A value that cannot be hashed stops the loop. *)
Lemma group_step_unhashable (key : string) (groups : Groups) (item v : Obj) :
  key_of key item = Return v ->
  hashable v = false ->
  group_step Obj getattr hashable eqb key groups item = Raise TypeError.
Proof.
  intros Hk Hh. unfold group_step, hash_key. fold (key_of key item).
  rewrite Hk. cbn [bind]. rewrite Hh. reflexivity.
Qed.

(** [x] is the first of [items] whose value is [v]. *)
Definition first_with (key : string) (items : list Obj) (v x : Obj) : Prop :=
  exists pre post,
    items = pre ++ x :: post /\
    key_of key x = Return v /\
    forall y, In y pre -> key_of key y <> Return v.

(** [groups] after the first loop went through [items]. *)
Definition grouped (key : string) (items : list Obj) (groups : Groups) : Prop :=
  NoDup (map fst groups) /\
  (forall v, In v (map fst groups) <-> exists x, In x items /\ key_of key x = Return v) /\
  Forall (fun vg => exists x, snd vg = [x] /\ first_with key items (fst vg) x) groups.

Lemma first_with_more (key : string) (items : list Obj) (v x y : Obj) :
  first_with key items v x -> first_with key (items ++ [y]) v x.
Proof.
  intros (pre & post & -> & Hk & Hpre).
  exists pre, (post ++ [y]). rewrite <- app_assoc. repeat split; assumption.
Qed.

Lemma grouped_step (key : string) (items : list Obj) (groups groups' : Groups) (item : Obj) :
  grouped key items groups ->
  group_step Obj getattr hashable eqb key groups item = Return groups' ->
  grouped key (items ++ [item]) groups'.
Proof.
  intros (Hnd & Hkeys & Hfirst) Hstep.
  destruct (group_step_returns key groups groups' item Hstep) as (v & Hv & Hh).
  assert (Hitems : forall v',
             (exists x, In x (items ++ [item]) /\ key_of key x = Return v') <->
             (In v' (map fst groups) \/ v' = v)).
  { intros v'. rewrite Hkeys. split.
    - intros (x & Hin & Hx). apply in_app_or in Hin. destruct Hin as [Hin | [<- | []]].
      + left. exists x. split; assumption.
      + right. congruence.
    - intros [(x & Hin & Hx) | ->].
      + exists x. split; [apply in_or_app; left; exact Hin | exact Hx].
      + exists item. split; [apply in_or_app; right; left; reflexivity | exact Hv]. }
  assert (Hold : Forall (fun vg => exists x, snd vg = [x] /\
                                    first_with key (items ++ [item]) (fst vg) x) groups).
  { eapply Forall_impl; [| exact Hfirst]. intros vg (x & Hx & Hf).
    exists x. split; [exact Hx | apply first_with_more; exact Hf]. }
  destruct (group_step_cases key groups item v Hv Hh) as [[Hin Heq] | [Hfresh Heq]];
    rewrite Heq in Hstep; injection Hstep as <-.
  - split; [exact Hnd |]. split; [| exact Hold].
    intros v'. rewrite Hitems. split; [tauto |]. intros [H | ->]; assumption.
  - split; [| split].
    + rewrite map_app. cbn. apply NoDup_app; [exact Hnd | repeat constructor; tauto |].
      intros a Ha [<- | []]. exact (Hfresh Ha).
    + intros v'. rewrite Hitems, map_app, in_app_iff. cbn. intuition congruence.
    + apply Forall_app. split; [exact Hold |]. constructor; [| constructor].
      exists item. split; [reflexivity |].
      exists items, []. cbn. repeat split; [exact Hv |].
      intros y Hy Hyv. apply Hfresh, Hkeys. exists y. split; assumption.
Qed.

Lemma grouped_loop (key : string) (rest : list Obj) :
  forall (items : list Obj) (groups groups' : Groups),
    grouped key items groups ->
    for_each (group_step Obj getattr hashable eqb key) groups rest = Return groups' ->
    grouped key (items ++ rest) groups'.
Proof.
  induction rest as [| item rest IH]; intros items groups groups' Hg Hrun.
  - cbn in Hrun. injection Hrun as <-. rewrite app_nil_r. exact Hg.
  - cbn [for_each] in Hrun.
    destruct (group_step Obj getattr hashable eqb key groups item) as [groups1 |] eqn:Hstep;
      [| discriminate Hrun].
    cbn [bind] in Hrun.
    replace (items ++ item :: rest) with ((items ++ [item]) ++ rest)
      by (rewrite <- app_assoc; reflexivity).
    apply (IH _ groups1); [| exact Hrun].
    apply (grouped_step key items groups); assumption.
Qed.

Lemma grouped_nil (key : string) : grouped key [] [].
Proof.
  split; [constructor |]. split; [| constructor].
  intros v. cbn. split; [contradiction | intros (x & [] & _)].
Qed.

(** Every attribute path of [key_path] resolves on [item], to a value
    that can be hashed. *)
Definition resolves (key_path : list string) (item : Obj) : Prop :=
  forall key, In key key_path -> exists v, key_of key item = Return v /\ hashable v = true.

Lemma first_loop_returns (key : string) (items : list Obj) :
  forall groups : Groups,
    (forall x, In x items -> exists v, key_of key x = Return v /\ hashable v = true) ->
    exists groups',
      for_each (group_step Obj getattr hashable eqb key) groups items = Return groups'.
Proof.
  induction items as [| item items IH]; intros groups Hres.
  - exists groups. reflexivity.
  - destruct (Hres item (or_introl eq_refl)) as (v & Hv & Hh).
    cbn [for_each].
    destruct (group_step_cases key groups item v Hv Hh) as [[_ Heq] | [_ Heq]];
      rewrite Heq; cbn [bind]; apply IH; intros x Hx; apply Hres; right; exact Hx.
Qed.

(** The recursive calls: a group of one item comes back as it is. *)
Lemma group_of_one (key_path : list string) (x : Obj) :
  (forall r, group_items_by getattr hashable eqb [x] key_path = Return r -> r = [[x]]) /\
  (resolves key_path x -> group_items_by getattr hashable eqb [x] key_path = Return [[x]]).
Proof.
  induction key_path as [| key sub IH].
  - cbn. split; [intros r Hr; injection Hr as <-; reflexivity | reflexivity].
  - destruct IH as [IHr IHt].
    assert (Hinner : forall groups,
               for_each (group_step Obj getattr hashable eqb key) [] [x] = Return groups ->
               exists v, groups = [(v, [x])]).
    { intros groups Hrun. cbn [for_each] in Hrun.
      destruct (group_step Obj getattr hashable eqb key [] x) as [g |] eqn:Hstep; [| discriminate Hrun].
      cbn in Hrun. injection Hrun as <-.
      destruct (group_step_returns key [] g x Hstep) as (v & Hv & Hh).
      destruct (group_step_cases key [] x v Hv Hh) as [[[] _] | [_ Heq]].
      rewrite Heq in Hstep. injection Hstep as <-. exists v. reflexivity. }
    split.
    + intros r Hr. cbn [group_items_by] in Hr.
      destruct (for_each (group_step Obj getattr hashable eqb key) [] [x]) as [groups |] eqn:Hrun;
        [| discriminate Hr].
      destruct (Hinner groups eq_refl) as [v ->].
      cbn in Hr.
      destruct (group_items_by getattr hashable eqb [x] sub) as [r0 |] eqn:Hsub; [| discriminate Hr].
      cbn in Hr. injection Hr as <-. apply IHr. reflexivity.
    + intros Hres. cbn [group_items_by].
      destruct (first_loop_returns key [x] []) as [groups Hrun].
      { intros y [<- | []]. apply Hres. left. reflexivity. }
      rewrite Hrun. destruct (Hinner groups Hrun) as [v ->]. cbn.
      rewrite IHt; [reflexivity |].
      intros key' Hk. apply Hres. right. exact Hk.
Qed.

Definition collect (sub_key_path : list string) (sub_groups : list (list Obj))
           (group : list Obj) : result (list (list Obj)) :=
  r <- group_items_by getattr hashable eqb group sub_key_path ;; Return (sub_groups ++ r).

Lemma second_loop (sub : list string) (gs : list (list Obj)) :
  Forall (fun g => exists x, g = [x]) gs ->
  forall acc,
    (forall r, for_each (collect sub) acc gs = Return r -> r = acc ++ gs) /\
    (Forall (fun g => forall x, In x g -> resolves sub x) gs ->
     for_each (collect sub) acc gs = Return (acc ++ gs)).
Proof.
  induction 1 as [| g gs [x ->] _ IH]; intros acc.
  - cbn. rewrite app_nil_r.
    split; [intros r Hr; injection Hr as <-; reflexivity | reflexivity].
  - destruct (group_of_one sub x) as [Hone Htot].
    replace (acc ++ [x] :: gs) with ((acc ++ [[x]]) ++ gs)
      by (rewrite <- app_assoc; reflexivity).
    split.
    + intros r Hr. cbn [for_each] in Hr. unfold collect at 1 in Hr.
      destruct (group_items_by getattr hashable eqb [x] sub) as [r0 |] eqn:Hsub; [| discriminate Hr].
      rewrite (Hone r0 eq_refl) in Hr. cbn [bind] in Hr.
      apply (IH (acc ++ [[x]])). exact Hr.
    + intros Hres. apply Forall_cons_iff in Hres. destruct Hres as [Hx Hres].
      cbn [for_each]. unfold collect at 1.
      rewrite Htot by (apply Hx; left; reflexivity). cbn [bind].
      apply (IH (acc ++ [[x]])). exact Hres.
Qed.

Lemma first_with_In (key : string) (items : list Obj) (v x : Obj) :
  first_with key items v x -> In x items.
Proof. intros (pre & post & -> & _). apply in_or_app. right. left. reflexivity. Qed.

Lemma singletons_of_first_items (items : list Obj) (key_path : list string) :
  key_path <> [] ->
  (forall r,
     group_items_by getattr hashable eqb items key_path = Return r ->
     exists keys,
       Forall2 (fun v g => exists x, g = [x] /\ first_with (hd "" key_path) items v x) keys r /\
       NoDup keys /\
       (forall v, In v keys <->
                  exists x, In x items /\ key_of (hd "" key_path) x = Return v) /\
       Forall (fun g => List.length g = 1%nat) r /\
       List.length r = List.length keys /\
       List.length (List.concat r) = List.length keys) /\
  ((forall x, In x items -> resolves key_path x) ->
   exists r, group_items_by getattr hashable eqb items key_path = Return r).
Proof.
  destruct key_path as [| key sub]; [contradiction |]. intros _. cbn [hd].
  cbn [group_items_by]. fold (collect sub).
  split.
  - intros r Hr.
    destruct (for_each (group_step Obj getattr hashable eqb key) [] items) as [groups |] eqn:Hrun;
      [| discriminate Hr].
    cbn [bind] in Hr.
    pose proof (grouped_loop key items [] [] groups (grouped_nil key) Hrun)
      as (Hnd & Hkeys & Hfirst).
    cbn [app] in Hkeys, Hfirst.
    assert (Hsingle : Forall (fun g => exists x, g = [x]) (dict_values Obj groups)).
    { unfold dict_values. apply Forall_map. eapply Forall_impl; [| exact Hfirst].
      intros vg (x & Hx & _). exists x. exact Hx. }
    destruct (second_loop sub _ Hsingle []) as [Hsecond _].
    apply Hsecond in Hr. cbn [app] in Hr. subst r.
    exists (map fst groups). unfold dict_values.
    split; [| split; [exact Hnd | split; [exact Hkeys |]]].
    + clear -Hfirst. induction Hfirst as [| vg groups (x & Hx & Hf) _ IH]; cbn.
      * constructor.
      * constructor; [exists x; split; assumption | exact IH].
    + split; [| split].
      * apply Forall_map. eapply Forall_impl; [| exact Hfirst].
        intros vg (x & -> & _). reflexivity.
      * rewrite !length_map. reflexivity.
      * rewrite length_map. clear -Hfirst.
        induction Hfirst as [| vg groups (x & Hx & _) _ IH]; cbn; [reflexivity |].
        rewrite Hx, length_app, IH. reflexivity.
  - intros Hres.
    destruct (first_loop_returns key items []) as [groups Hrun].
    { intros x Hx. apply (Hres x Hx). left. reflexivity. }
    rewrite Hrun. cbn [bind].
    pose proof (grouped_loop key items [] [] groups (grouped_nil key) Hrun)
      as (_ & _ & Hfirst).
    cbn [app] in Hfirst.
    assert (Hsingle : Forall (fun g => exists x, g = [x]) (dict_values Obj groups)).
    { unfold dict_values. apply Forall_map. eapply Forall_impl; [| exact Hfirst].
      intros vg (x & Hx & _). exists x. exact Hx. }
    destruct (second_loop sub _ Hsingle []) as [_ Htot].
    eexists. apply Htot.
    unfold dict_values. apply Forall_map. eapply Forall_impl; [| exact Hfirst].
    intros vg (x & -> & Hf) y [<- | []] key' Hk.
    apply (Hres x (first_with_In _ _ _ _ Hf)). right. exact Hk.
Qed.

(** [x] is the first of [items] whose key has the value [v]. *)
Definition first_of (key : string) (items : list Obj) (v x : Obj) : Prop :=
  exists pre post,
    items = pre ++ x :: post /\
    key_value key x v /\
    forall y, In y pre -> ~ key_value key y v.

(** On [item] every key of [key_path] has a value, and one that can be
    hashed. *)
Definition groupable (key_path : list string) (item : Obj) : Prop :=
  forall key, In key key_path -> exists v, key_value key item v /\ hashable v = true.

Lemma first_with_first_of (key : string) (items : list Obj) (v x : Obj) :
  first_with key items v x <-> first_of key items v x.
Proof.
  unfold first_with, first_of. split.
  - intros (pre & post & Hi & Hk & Hpre). exists pre, post.
    split; [exact Hi |]. split; [apply key_of_key_value; exact Hk |].
    intros y Hy Hv. apply (Hpre y Hy). apply key_of_key_value. exact Hv.
  - intros (pre & post & Hi & Hk & Hpre). exists pre, post.
    split; [exact Hi |]. split; [apply key_of_key_value; exact Hk |].
    intros y Hy Hv. apply (Hpre y Hy). apply key_of_key_value. exact Hv.
Qed.

Lemma groupable_resolves (key_path : list string) (item : Obj) :
  groupable key_path item -> resolves key_path item.
Proof.
  intros Hg key Hk. destruct (Hg key Hk) as (v & Hv & Hh).
  exists v. split; [apply key_of_key_value; exact Hv | exact Hh].
Qed.

(** C10: for every item list and every non-empty key path, whenever
    [group_items_by] returns, every inner list of the result is a
    singleton holding the first item whose first key has its value; the
    later items with that value are not in the output.  The values of the
    singletons are pairwise different and are exactly the values the first
    key has on the items, so the result has as many groups, and as many
    items, as there are distinct values.  The value of a key is the
    attribute it names, followed through the dots of a dotted name.  The
    call does return when on every item every key has a value that can be
    hashed. *)
Theorem groups_are_singletons (items : list Obj) (key_path : list string) :
  key_path <> [] ->
  (forall r,
     group_items_by getattr hashable eqb items key_path = Return r ->
     exists keys,
       Forall2 (fun v g => exists x, g = [x] /\ first_of (hd "" key_path) items v x) keys r /\
       NoDup keys /\
       (forall v, In v keys <->
                  exists x, In x items /\ key_value (hd "" key_path) x v) /\
       Forall (fun g => List.length g = 1%nat) r /\
       List.length r = List.length keys /\
       List.length (List.concat r) = List.length keys) /\
  ((forall x, In x items -> groupable key_path x) ->
   exists r, group_items_by getattr hashable eqb items key_path = Return r).
Proof.
  intros Hne. destruct (singletons_of_first_items items key_path Hne) as [Hret Htot].
  split.
  - intros r Hr. destruct (Hret r Hr) as (keys & Hfirst & Hnd & Hkeys & Hone & Hlen & Hcount).
    exists keys. split; [| split; [exact Hnd | split; [| repeat split; assumption]]].
    + eapply Forall2_impl; [| exact Hfirst].
      intros v g (x & Hg & Hf). exists x. split; [exact Hg |].
      apply first_with_first_of. exact Hf.
    + intros v. rewrite (Hkeys v). split; intros (x & Hin & Hx); exists x;
        (split; [exact Hin | apply key_of_key_value; exact Hx]).
  - intros Hg. apply Htot. intros x Hx. apply groupable_resolves, Hg, Hx.
Qed.

End GroupFacts.

Arguments key_of {Obj} getattr key item.
Arguments has_value {Obj} getattr obj names v.
Arguments key_value {Obj} getattr key item v.
Arguments key_error {Obj} getattr key item e.
Arguments first_with {Obj} getattr key items v x.
Arguments first_of {Obj} getattr key items v x.
Arguments resolves {Obj} getattr hashable key_path item.
Arguments groupable {Obj} getattr hashable key_path item.

(** The example of the docstring: members of an enum, grouped by [value].
    A member also has [_member_names_], the list of the names of its enum,
    and a list cannot be hashed. *)
Inductive Value : Type :=
| Member (name : string) (value : Z)
| Int (z : Z)
| Str (s : string)
| Names (names : list string).

Definition value_getattr (obj : Value) (attr : string) : result Value :=
  match obj with
  | Member name value =>
      if String.eqb attr "value" then Return (Int value)
      else if String.eqb attr "name" then Return (Str name)
      else if String.eqb attr "_member_names_" then Return (Names ["RED"; "GREEN"; "BLUE"])
      else Raise AttributeError
  | _ => Raise AttributeError
  end.

Definition value_hashable (x : Value) : bool :=
  match x with
  | Names _ => false
  | _ => true
  end.

Definition value_eqb (x y : Value) : bool :=
  match x, y with
  | Member n v, Member n' v' => String.eqb n n' && (v =? v')
  | Int z, Int z' => z =? z'
  | Str s, Str s' => String.eqb s s'
  | Names ns, Names ns' => if list_eq_dec string_dec ns ns' then true else false
  | _, _ => false
  end.

Lemma value_eqb_eq (x y : Value) : value_eqb x y = true <-> x = y.
Proof.
  destruct x, y; cbn; try (split; [discriminate | intros H; discriminate H]).
  - rewrite andb_true_iff, String.eqb_eq, Z.eqb_eq. split.
    + intros [-> ->]. reflexivity.
    + intros H. injection H as -> ->. split; reflexivity.
  - rewrite Z.eqb_eq. split; [intros ->; reflexivity | intros H; injection H as ->; reflexivity].
  - rewrite String.eqb_eq.
    split; [intros ->; reflexivity | intros H; injection H as ->; reflexivity].
  - destruct (list_eq_dec string_dec names names0) as [-> | Hne].
    + split; reflexivity.
    + split; [discriminate | intros H; injection H as ->; contradiction].
Qed.

Definition RED : Value := Member "RED" 1.
Definition GREEN : Value := Member "GREEN" 2.
Definition BLUE : Value := Member "BLUE" 3.

Definition colors : list Value := [RED; GREEN; BLUE; RED].

Lemma groups_are_singletons_witness :
  (forall r,
     group_items_by value_getattr value_hashable value_eqb colors ["value"] = Return r ->
     exists keys,
       Forall2 (fun v g => exists x, g = [x] /\ first_of value_getattr "value" colors v x)
               keys r /\
       NoDup keys /\
       (forall v, In v keys <->
                  exists x, In x colors /\ key_value value_getattr "value" x v) /\
       Forall (fun g => List.length g = 1%nat) r /\
       List.length r = List.length keys /\
       List.length (List.concat r) = List.length keys) /\
  ((forall x, In x colors -> groupable value_getattr value_hashable ["value"] x) ->
   exists r, group_items_by value_getattr value_hashable value_eqb colors ["value"] = Return r).
Proof.
  apply (groups_are_singletons Value value_getattr value_hashable value_eqb value_eqb_eq
           colors ["value"]).
  discriminate.
Defined.

(** On the docstring's input the second [RED] is gone from the output; a
    key no member has raises [AttributeError], and a key whose value is a
    list raises [TypeError]. *)
Example group_colors_by_value :
  group_items_by value_getattr value_hashable value_eqb colors ["value"]
    = Return [[RED]; [GREEN]; [BLUE]] /\
  group_items_by value_getattr value_hashable value_eqb colors ["name"; "value"]
    = Return [[RED]; [GREEN]; [BLUE]] /\
  group_items_by value_getattr value_hashable value_eqb colors [] = Return [colors] /\
  group_items_by value_getattr value_hashable value_eqb colors ["colour"]
    = Raise AttributeError /\
  group_items_by value_getattr value_hashable value_eqb colors ["_member_names_"]
    = Raise TypeError.
Proof. vm_compute. repeat split. Qed.

End UtilsFacts.

(** * Further properties of the paginator *)

Module ChunkFacts.
Import Paginator.

(** Induction along the cuts of [chunks_of]. *)
Lemma chunks_ind {A : Type} (k : nat) (P : list A -> Prop) :
  P [] ->
  (forall x xs, P (skipn k xs) -> P (x :: xs)) ->
  forall xs, P xs.
Proof.
  intros Hnil Hcons xs.
  remember (List.length xs) as m eqn:Hm. revert xs Hm.
  induction m as [m IH] using lt_wf_ind. intros xs Hm.
  destruct xs as [| x xs]; [exact Hnil |].
  apply Hcons. apply (IH (List.length (skipn k xs))); [| reflexivity].
  rewrite length_skipn. subst m. cbn [List.length]. lia.
Qed.

(** Chunking loses nothing and keeps the order: the chunks, put back
    together, are the input. *)
Lemma chunks_of_concat {A : Type} (size : nat) (xs : list A) :
  (0 < size)%nat -> List.concat (chunks_of size xs) = xs.
Proof.
  intros Hs. destruct size as [| k]; [lia |].
  induction xs as [| x xs IH] using (chunks_ind k); simp chunks_of.
  - reflexivity.
  - cbn [List.concat app]. rewrite IH, firstn_skipn. reflexivity.
Qed.

(** All chunks but the last hold exactly [size] items. *)
Fixpoint all_but_last_full {A : Type} (size : Z) (chunks : list (list A)) : Prop :=
  match chunks with
  | [] => True
  | [_] => True
  | ch :: rest => len ch = size /\ all_but_last_full size rest
  end.

(** No chunk is empty, none holds more than [size] items, and only the
    last one may hold fewer. *)
Lemma chunks_of_sizes {A : Type} (size : nat) (xs : list A) :
  (0 < size)%nat ->
  Forall (fun ch => 1 <= len ch <= Z.of_nat size) (chunks_of size xs) /\
  all_but_last_full (Z.of_nat size) (chunks_of size xs).
Proof.
  intros Hs. destruct size as [| k]; [lia |].
  induction xs as [| x xs IH] using (chunks_ind k); simp chunks_of.
  - split; [constructor | exact I].
  - destruct IH as [IHf IHl]. split.
    + constructor; [| exact IHf]. unfold len. cbn [List.length]. rewrite length_firstn. lia.
    + cbn [all_but_last_full].
      destruct (chunks_of (S k) (skipn k xs)) as [| ch rest] eqn:Hrest; [exact I |].
      split; [| exact IHl].
      unfold len. cbn [List.length]. rewrite length_firstn.
      destruct (Nat.le_gt_cases (List.length xs) k) as [Hshort | Hlong]; [| lia].
      rewrite skipn_all2 in Hrest by exact Hshort.
      simp chunks_of in Hrest. discriminate Hrest.
Qed.

Lemma get_chunks_accepted {A : Type} (xs : list A) (size : Z) :
  0 <= size <= sys_maxsize -> get_chunks xs size = Return (chunks_of (Z.to_nat size) xs).
Proof.
  intros Hs. unfold get_chunks.
  destruct (Z.ltb_spec size 0); [lia |].
  destruct (Z.ltb_spec sys_maxsize size); [lia | reflexivity].
Qed.

Lemma get_chunks_refused {A : Type} (xs : list A) (size : Z) :
  size < 0 \/ sys_maxsize < size -> get_chunks xs size = Raise ValueError.
Proof.
  intros Hs. unfold get_chunks.
  destruct (Z.ltb_spec size 0); [reflexivity |].
  destruct (Z.ltb_spec sys_maxsize size); [reflexivity | lia].
Qed.

(** X1: [get_chunks] accepts the sizes from 0 to [sys.maxsize] and raises
    [ValueError] for every other one, whatever it is given to cut.  Size 0
    gives no chunk at all.  For a size of at least 1 it cuts the input into
    consecutive pieces: put back together the chunks are the input, none is
    empty, none holds more than [size] items, and only the last may hold
    fewer. *)
Theorem get_chunks_partition {A : Type} (xs : list A) (size : Z) :
  (size < 0 \/ sys_maxsize < size -> get_chunks xs size = Raise ValueError) /\
  (size = 0 -> get_chunks xs size = Return []) /\
  (1 <= size <= sys_maxsize ->
   exists chunks,
     get_chunks xs size = Return chunks /\
     List.concat chunks = xs /\
     Forall (fun ch => 1 <= len ch <= size) chunks /\
     all_but_last_full size chunks).
Proof.
  split; [apply get_chunks_refused |]. split.
  - intros ->. reflexivity.
  - intros Hs. exists (chunks_of (Z.to_nat size) xs).
    assert (Hpos : (0 < Z.to_nat size)%nat) by lia.
    destruct (chunks_of_sizes (Z.to_nat size) xs Hpos) as [Hf Hl].
    rewrite Z2Nat.id in Hf, Hl by lia.
    split; [apply get_chunks_accepted; lia |].
    split; [apply chunks_of_concat, Hpos |]. split; assumption.
Qed.

Lemma get_chunks_partition_witness :
  get_chunks ["a"; "b"; "c"; "d"; "e"] (-1) = Raise ValueError /\
  get_chunks ["a"; "b"; "c"; "d"; "e"] (sys_maxsize + 1) = Raise ValueError /\
  get_chunks ["a"; "b"; "c"; "d"; "e"] 0 = Return [] /\
  exists chunks,
    get_chunks ["a"; "b"; "c"; "d"; "e"] 2 = Return chunks /\
    List.concat chunks = ["a"; "b"; "c"; "d"; "e"] /\
    Forall (fun ch => 1 <= len ch <= 2) chunks /\
    all_but_last_full 2 chunks.
Proof.
  split; [| split; [| split]].
  - apply (get_chunks_partition ["a"; "b"; "c"; "d"; "e"] (-1)). left. lia.
  - apply (get_chunks_partition ["a"; "b"; "c"; "d"; "e"] (sys_maxsize + 1)). right. lia.
  - apply (get_chunks_partition ["a"; "b"; "c"; "d"; "e"] 0). reflexivity.
  - apply (get_chunks_partition ["a"; "b"; "c"; "d"; "e"] 2). unfold sys_maxsize. lia.
Defined.

End ChunkFacts.

Module PagesMore.
Import Paginator PagesFacts.

(** Where a navigation operation puts the cursor when it moves. *)
Definition target (op : Nav) (p : Pages) : Z :=
  match op with
  | NavFirst => 1
  | NavPrevious => cur_page p - 1
  | NavNext => cur_page p + 1
  | NavLast => total p
  end.

Lemma current_page_nth (p : Pages) :
  cursor_in_range p ->
  exists c,
    current_page p = Return (mkPage (cur_page p) c) /\
    nth_error (pages p) (Z.to_nat (cur_page p - 1)) = Some c.
Proof.
  intros Hr. unfold cursor_in_range, total in Hr.
  destruct (list_getitem_in_range (pages p) (cur_page p - 1)) as (c & Hc & Hn); [lia |].
  exists c. unfold current_page. rewrite Hc. split; [reflexivity | exact Hn].
Qed.

(** X2: With the cursor in range, a navigation operation that returns a page
    returns the page under the new cursor: its index is the new [cur_page],
    its content is that entry of the page list, the list itself is untouched,
    and the cursor is at 1, one down, one up or at [total] as the operation
    says. *)
Theorem navigate_returns_page_under_cursor (op : Nav) (p p' : Pages) (pg : Page) :
  1 <= cur_page p <= total p ->
  navigate op p = (Return (Some pg), p') ->
  pages p' = pages p /\
  cur_page p' = target op p /\
  index pg = cur_page p' /\
  nth_error (pages p) (Z.to_nat (cur_page p' - 1)) = Some (content pg).
Proof.
  intros Hr Hnav.
  assert (Hmoved : forall c, 1 <= c <= total p ->
            (p0 <- current_page (set_cur_page c p) ;; Return (Some p0), set_cur_page c p)
              = (Return (Some pg), p') ->
            pages p' = pages p /\ cur_page p' = c /\ index pg = cur_page p' /\
            nth_error (pages p) (Z.to_nat (cur_page p' - 1)) = Some (content pg)).
  { intros c Hc Heq.
    destruct (current_page_nth (set_cur_page c p)) as (x & Hx & Hn).
    - unfold cursor_in_range. rewrite total_set_cur_page. exact Hc.
    - rewrite Hx in Heq. cbn in Heq. injection Heq as <- <-. cbn in *.
      repeat split; try reflexivity. exact Hn. }
  destruct op; cbn [navigate target] in *;
    unfold some_page, first_page, last_page, previous_page, next_page in Hnav; cbn in Hnav.
  - apply Hmoved; [lia | exact Hnav].
  - destruct (Z.eqb_spec (cur_page p) 1) as [| Hne]; [discriminate Hnav |].
    apply Hmoved; [lia | exact Hnav].
  - destruct (Z.eqb_spec (cur_page p) (total p)) as [| Hne]; [discriminate Hnav |].
    apply Hmoved; [lia | exact Hnav].
  - apply Hmoved; [lia | exact Hnav].
Qed.

Lemma navigate_returns_page_under_cursor_witness :
  let p := mkPages ["a"; "b"; "c"] 2 in
  let p' := mkPages ["a"; "b"; "c"] 3 in
  let pg := mkPage 3 "c" in
  pages p' = pages p /\
  cur_page p' = target NavNext p /\
  index pg = cur_page p' /\
  nth_error (pages p) (Z.to_nat (cur_page p' - 1)) = Some (content pg).
Proof.
  apply (navigate_returns_page_under_cursor NavNext (mkPages ["a"; "b"; "c"] 2)
           (mkPages ["a"; "b"; "c"] 3) (mkPage 3 "c")).
  - vm_compute. split; discriminate.
  - reflexivity.
Defined.

(** X3: Away from the last page, [next_page] followed by [previous_page] is a
    round trip: the object is as before and the page that comes back is the
    one [current_page] gave at the start.  Likewise [previous_page] followed
    by [next_page] away from the first page. *)
Theorem next_previous_round_trip (p : Pages) :
  1 <= cur_page p <= total p ->
  (cur_page p < total p ->
   snd (previous_page (snd (next_page p))) = p /\
   fst (previous_page (snd (next_page p))) = (pg <- current_page p ;; Return (Some pg))) /\
  (1 < cur_page p ->
   snd (next_page (snd (previous_page p))) = p /\
   fst (next_page (snd (previous_page p))) = (pg <- current_page p ;; Return (Some pg))).
Proof.
  intros Hr. destruct p as [ps cur]. unfold total in *. cbn [pages cur_page] in *.
  split; intros Hc.
  - unfold next_page, total. cbn [pages cur_page].
    destruct (Z.eqb_spec cur (len ps)) as [| _]; [lia |].
    cbn [snd]. unfold previous_page, set_cur_page. cbn [pages cur_page].
    destruct (Z.eqb_spec (cur + 1) 1) as [| _]; [lia |].
    replace (cur + 1 - 1) with cur by lia. split; reflexivity.
  - unfold previous_page. cbn [pages cur_page].
    destruct (Z.eqb_spec cur 1) as [| _]; [lia |].
    cbn [snd]. unfold next_page, set_cur_page, total. cbn [pages cur_page].
    destruct (Z.eqb_spec (cur - 1) (len ps)) as [| _]; [lia |].
    replace (cur - 1 + 1) with cur by lia. split; reflexivity.
Qed.

Lemma next_previous_round_trip_witness :
  let p := mkPages ["a"; "b"; "c"] 2 in
  (cur_page p < total p ->
   snd (previous_page (snd (next_page p))) = p /\
   fst (previous_page (snd (next_page p))) = (pg <- current_page p ;; Return (Some pg))) /\
  (1 < cur_page p ->
   snd (next_page (snd (previous_page p))) = p /\
   fst (next_page (snd (previous_page p))) = (pg <- current_page p ;; Return (Some pg))).
Proof.
  apply (next_previous_round_trip (mkPages ["a"; "b"; "c"] 2)).
  vm_compute. split; discriminate.
Defined.

(** X4: Repeated [next_page] stops at the last page and repeated
    [previous_page] at the first: after [n] of them the cursor is
    [min(cur_page + n, total)], respectively [max(cur_page - n, 1)]. *)
Theorem repeated_navigation_saturates (p : Pages) (n : nat) :
  1 <= cur_page p <= total p ->
  cur_page (navigate_all (repeat NavNext n) p) = Z.min (cur_page p + Z.of_nat n) (total p) /\
  cur_page (navigate_all (repeat NavPrevious n) p) = Z.max (cur_page p - Z.of_nat n) 1.
Proof.
  revert p. induction n as [| n IH]; intros p Hr.
  - cbn. lia.
  - change (navigate_all (repeat NavNext (S n)) p)
      with (navigate_all (repeat NavNext n) (snd (navigate NavNext p))).
    change (navigate_all (repeat NavPrevious (S n)) p)
      with (navigate_all (repeat NavPrevious n) (snd (navigate NavPrevious p))).
    pose proof (navigate_in_range NavNext p Hr) as Hn.
    pose proof (navigate_in_range NavPrevious p Hr) as Hp.
    unfold cursor_in_range in Hn, Hp.
    destruct (IH _ Hn) as [-> _]. destruct (IH _ Hp) as [_ ->].
    rewrite (navigate_total NavNext p).
    cbn [navigate]. unfold next_page, previous_page.
    destruct (Z.eqb_spec (cur_page p) (total p)); destruct (Z.eqb_spec (cur_page p) 1);
      cbn [snd set_cur_page cur_page]; lia.
Qed.

Lemma repeated_navigation_saturates_witness :
  let p := mkPages ["a"; "b"; "c"] 2 in
  cur_page (navigate_all (repeat NavNext 5) p) = Z.min (cur_page p + Z.of_nat 5) (total p) /\
  cur_page (navigate_all (repeat NavPrevious 5) p) = Z.max (cur_page p - Z.of_nat 5) 1.
Proof.
  apply (repeated_navigation_saturates (mkPages ["a"; "b"; "c"] 2) 5).
  vm_compute. split; discriminate.
Defined.

Lemma list_getitem_nil {A : Type} (i : Z) : list_getitem (@nil A) i = Raise IndexError.
Proof.
  unfold list_getitem, len. cbn [List.length].
  destruct (i <? 0); cbn.
  - destruct (Z.ltb_spec (i + 0) 0); [reflexivity |].
    destruct (Z.leb_spec 0 (i + 0)); [reflexivity | lia].
  - destruct (Z.ltb_spec i 0); [reflexivity |].
    destruct (Z.leb_spec 0 i); [reflexivity | lia].
Qed.

(** Over an empty page list nothing can be shown: [current_page],
    [first_page] and [last_page] raise [IndexError] wherever the cursor is,
    and [next_page] and [previous_page] raise it too, after having moved the
    cursor, unless the cursor sits on their boundary value. *)
Theorem empty_pages_raise (p : Pages) :
  pages p = [] ->
  current_page p = Raise IndexError /\
  fst (first_page p) = Raise IndexError /\
  fst (last_page p) = Raise IndexError /\
  (cur_page p <> 0 -> next_page p = (Raise IndexError, set_cur_page (cur_page p + 1) p)) /\
  (cur_page p <> 1 -> previous_page p = (Raise IndexError, set_cur_page (cur_page p - 1) p)).
Proof.
  destruct p as [ps cur]. cbn [pages]. intros ->.
  unfold first_page, last_page, next_page, previous_page, current_page, set_cur_page, total, len.
  cbn [pages cur_page List.length fst]. rewrite !list_getitem_nil. cbn [bind].
  repeat split.
  - intros Hc. destruct (Z.eqb_spec cur (Z.of_nat 0)); [cbn in *; lia | reflexivity].
  - intros Hc. destruct (Z.eqb_spec cur 1); [lia | reflexivity].
Qed.

Lemma empty_pages_raise_witness :
  let p := Pages_init [] in
  current_page p = Raise IndexError /\
  fst (first_page p) = Raise IndexError /\
  fst (last_page p) = Raise IndexError /\
  (cur_page p <> 0 -> next_page p = (Raise IndexError, set_cur_page (cur_page p + 1) p)) /\
  (cur_page p <> 1 -> previous_page p = (Raise IndexError, set_cur_page (cur_page p - 1) p)).
Proof. apply (empty_pages_raise (Pages_init [])). reflexivity. Defined.

End PagesMore.

Module ViewMore.
Import Paginator PagesFacts ViewFacts.

(** ** What a method leaves alone *)

Section Keeps.

Variable R : PaginatorView -> PaginatorView -> Prop.
Hypothesis R_refl : forall v, R v v.
Hypothesis R_trans : forall v1 v2 v3, R v1 v2 -> R v2 v3 -> R v1 v3.

(** [m] relates the view it is run on to the view it leaves. *)
Definition keeps {A : Type} (m : M A) : Prop := forall v, R v (view_of (m v)).

Lemma keeps_ret {A : Type} (a : A) : keeps (ret a).
Proof. intros v. apply R_refl. Qed.

Lemma keeps_raise {A : Type} (e : exn) : keeps (@raise A e).
Proof. intros v. apply R_refl. Qed.

Lemma keeps_get : keeps get.
Proof. intros v. apply R_refl. Qed.

Lemma keeps_request (rq : Request) (answer : result unit) : keeps (request rq answer).
Proof. intros v. apply R_refl. Qed.

Lemma keeps_modify (f : PaginatorView -> PaginatorView) :
  (forall v, R v (f v)) -> keeps (modify f).
Proof. intros Hf v. apply Hf. Qed.

Lemma keeps_mbind {A B : Type} (m : M A) (k : A -> M B) :
  keeps m -> (forall a, keeps (k a)) -> keeps (mbind m k).
Proof.
  intros Hm Hk v. unfold view_of, mbind. specialize (Hm v). unfold view_of in Hm.
  destruct (m v) as [[[a | e] v1] rs1]; cbn in *.
  - specialize (Hk a v1). unfold view_of in Hk.
    destruct (k a v1) as [[r v2] rs2]. cbn in *. eapply R_trans; eassumption.
  - exact Hm.
Qed.

Lemma keeps_suppress_http (m : M unit) : keeps m -> keeps (suppress_http m).
Proof.
  intros Hm v. specialize (Hm v). unfold view_of, suppress_http in *.
  destruct (m v) as [[[a | []] v1] rs1]; exact Hm.
Qed.

Lemma keeps_child_set_disabled (i : nat) (b : bool) :
  (forall v cs, list_update i (set_disabled b) (children v) = Some cs -> R v (set_children cs v)) ->
  keeps (child_set_disabled i b).
Proof.
  intros Hset v. unfold view_of, child_set_disabled.
  destruct (list_update i (set_disabled b) (children v)) as [cs |] eqn:Hu; cbn.
  - apply Hset. exact Hu.
  - apply R_refl.
Qed.

Lemma keeps_on_pages {A : Type} (op : Pages -> result A * Pages) :
  (forall v, R v (set_view_pages (snd (op (view_pages v))) v)) -> keeps (on_pages op).
Proof.
  intros Hop v. unfold view_of, on_pages. specialize (Hop v).
  destruct (op (view_pages v)) as [r p]. exact Hop.
Qed.

Lemma keeps_lock :
  (forall b n v cs, list_update n (set_disabled b) (children v) = Some cs ->
                    R v (set_children cs v)) ->
  (forall v, R v (set_children (map (set_disabled false) (children v)) v)) ->
  keeps _lock.
Proof.
  intros Hset Hall.
  unfold _lock. apply keeps_mbind; [apply keeps_get | intros v0].
  destruct (cur_page (view_pages v0) =? total (view_pages v0)).
  { repeat (apply keeps_mbind; [| intros _]);
      apply keeps_child_set_disabled; apply Hset. }
  destruct (cur_page (view_pages v0) =? 1).
  { repeat (apply keeps_mbind; [| intros _]);
      apply keeps_child_set_disabled; apply Hset. }
  destruct ((1 <? cur_page (view_pages v0)) && (cur_page (view_pages v0) <? total (view_pages v0))).
  - apply keeps_modify. exact Hall.
  - apply keeps_ret.
Qed.

(** What [_lock], [_update_embed] and the edit request leave alone,
    [render] leaves alone. *)
Lemma keeps_render (page : option Page) (i : Interaction) :
  (forall b n v cs, list_update n (set_disabled b) (children v) = Some cs ->
                    R v (set_children cs v)) ->
  (forall v, R v (set_children (map (set_disabled false) (children v)) v)) ->
  (forall v t, R v (set_view_embed (set_footer t (view_embed v)) v)) ->
  (forall v d, R v (set_view_embed (set_description d (view_embed v)) v)) ->
  keeps (render page i).
Proof.
  intros Hset Hall Hfoot Hdesc. unfold render.
  apply keeps_mbind; [| intros _; apply keeps_mbind].
  - unfold _update_embed. apply keeps_mbind; [apply keeps_get | intros v0].
    apply keeps_mbind.
    + destruct (show_page_count v0); [| apply keeps_ret].
      destruct page; [| apply keeps_raise].
      apply keeps_modify. intros v. apply Hfoot.
    + intros _. destruct page; [| apply keeps_raise].
      apply keeps_modify. intros v. apply Hdesc.
  - apply keeps_lock; assumption.
  - intros _. apply keeps_mbind; [apply keeps_get | intros v0]. apply keeps_request.
Qed.

End Keeps.

Lemma list_update_map {A B : Type} (g : A -> B) (f : A -> A) (i : nat) (xs ys : list A) :
  (forall x, g (f x) = g x) ->
  list_update i f xs = Some ys -> map g ys = map g xs.
Proof.
  intros Hg. revert i ys. induction xs as [| x xs IH]; intros i ys Hu.
  - destruct i; discriminate Hu.
  - destruct i as [| i]; cbn in Hu.
    + injection Hu as <-. cbn. rewrite Hg. reflexivity.
    + destruct (list_update i f xs) as [zs |] eqn:Hz; [| discriminate Hu].
      injection Hu as <-. cbn. rewrite (IH i zs Hz). reflexivity.
Qed.

(** ** The frame of a session *)

(** Everything of the view but the cursor, the description and footer of
    the embed and the [disabled] flags of the controls. *)
Definition frame (v : PaginatorView) : Z * option Message * bool * list string *
                                       string * option Z * list (ButtonStyle * string) :=
  (ctx_author_id v, message v, show_page_count v, pages (view_pages v),
   title (view_embed v), color (view_embed v),
   map (fun child => (style child, custom_id child)) (children v)).

Definition same_frame (v v' : PaginatorView) : Prop := frame v = frame v'.

Lemma same_frame_set_children (v : PaginatorView) (cs : list Button) :
  map (fun child => (style child, custom_id child)) cs
    = map (fun child => (style child, custom_id child)) (children v) ->
  same_frame v (set_children cs v).
Proof. intros Hcs. unfold same_frame, frame. cbn. rewrite Hcs. reflexivity. Qed.

Lemma callback_same_frame (op : Nav) (i : Interaction) : keeps same_frame (callback op i).
Proof.
  assert (Hrefl : forall v, same_frame v v) by reflexivity.
  assert (Htrans : forall v1 v2 v3, same_frame v1 v2 -> same_frame v2 v3 -> same_frame v1 v3)
    by (unfold same_frame; intros; congruence).
  assert (Hrender : forall page, keeps same_frame (render page i)).
  { intros page. apply (keeps_render same_frame Hrefl Htrans).
    - intros b n v cs Hu. apply same_frame_set_children.
      apply (list_update_map (fun child => (style child, custom_id child))
               (set_disabled b) n _ _ (fun x => eq_refl) Hu).
    - intros v. apply same_frame_set_children. rewrite map_map. reflexivity.
    - intros v t. reflexivity.
    - intros v d. reflexivity. }
  destruct op; cbn [callback]; unfold _first, _previous, _next, _last;
    (apply (keeps_mbind same_frame Htrans);
     [apply (keeps_request same_frame Hrefl) | intros _]);
    (apply (keeps_mbind same_frame Htrans); [| intros page; apply Hrender]);
    apply (keeps_on_pages same_frame); intros v;
    unfold first_page, last_page, previous_page, next_page;
    repeat match goal with |- context [if ?b then _ else _] => destruct b end; reflexivity.
Qed.

Lemma dispatch_same_frame (op : Nav) (i : Interaction) (v : PaginatorView) :
  same_frame v (view_of (dispatch op i v)).
Proof.
  destruct (Z.eq_dec (user_id i) (ctx_author_id v)) as [Ho | Hs].
  - rewrite (dispatch_owner op i v Ho). apply callback_same_frame.
  - rewrite (dispatch_stranger op i v Hs). reflexivity.
Qed.

(** X5: Whatever is pressed, by whomever and with whatever answers from the
    service, a session never changes its owner, its message, its
    [show_page_count], the list of pages, the title and colour of the embed,
    or the styles and ids of its controls. *)
Theorem session_keeps_frame (evs : list (Nav * Interaction)) (v : PaginatorView) :
  frame (deliver_all evs v) = frame v.
Proof.
  revert v. induction evs as [| [op i] evs IH]; intros v.
  - reflexivity.
  - change (deliver_all ((op, i) :: evs) v)
      with (deliver_all evs (view_of (dispatch op i v))).
    rewrite (IH (view_of (dispatch op i v))).
    symmetry. apply dispatch_same_frame.
Qed.

(** ** Strangers *)

Definition by_owner (author : Z) (ev : Nav * Interaction) : bool :=
  user_id (snd ev) =? author.

(** X6: Presses by other users leave no trace in the session: the view after
    a sequence of presses is the view after the owner's presses alone. *)
Theorem strangers_leave_no_trace (evs : list (Nav * Interaction)) (v : PaginatorView) :
  deliver_all evs v = deliver_all (filter (by_owner (ctx_author_id v)) evs) v.
Proof.
  revert v. induction evs as [| [op i] evs IH]; intros v.
  - reflexivity.
  - cbn [filter]. unfold by_owner at 1. cbn [snd].
    assert (Hauthor : ctx_author_id (view_of (dispatch op i v)) = ctx_author_id v).
    { pose proof (dispatch_same_frame op i v) as Hf. unfold same_frame, frame in Hf.
      congruence. }
    destruct (Z.eqb_spec (user_id i) (ctx_author_id v)) as [Ho | Hs].
    + change (deliver_all ((op, i) :: evs) v)
        with (deliver_all evs (view_of (dispatch op i v))).
      change (deliver_all ((op, i) :: filter (by_owner (ctx_author_id v)) evs) v)
        with (deliver_all (filter (by_owner (ctx_author_id v)) evs)
                (view_of (dispatch op i v))).
      rewrite IH, Hauthor. reflexivity.
    + change (deliver_all ((op, i) :: evs) v)
        with (deliver_all evs (view_of (dispatch op i v))).
      rewrite (dispatch_stranger op i v Hs). cbn [view_of fst snd]. apply IH.
Qed.

(** ** The cursor of a session *)

Definition same_pages (v v' : PaginatorView) : Prop := view_pages v' = view_pages v.

Lemma render_same_pages (page : option Page) (i : Interaction) :
  keeps same_pages (render page i).
Proof.
  apply (keeps_render same_pages); unfold same_pages; try reflexivity.
  intros v1 v2 v3 H12 H23. congruence.
Qed.

(** A callback moves the cursor as the navigation property of its button
    does, unless the defer fails before the property is read. *)
Lemma callback_pages (op : Nav) (i : Interaction) (v : PaginatorView) :
  view_pages (view_of (callback op i v)) =
  match defer_answer i with
  | Return _ => snd (navigate op (view_pages v))
  | Raise _ => view_pages v
  end.
Proof.
  rewrite callback_navigate.
  destruct (defer_answer i) as [[] | e] eqn:Hd.
  - assert (Hq : request Defer (Return tt) v = (Return tt, v, [Defer])) by reflexivity.
    rewrite (mbind_return _ _ _ _ _ _ Hq). cbn [view_of fst snd].
    unfold mbind, on_pages.
    destruct (navigate op (view_pages v)) as [[page | e] p'] eqn:Hnav; cbn [snd].
    + pose proof (render_same_pages page i (set_view_pages p' v)) as Hr.
      unfold same_pages, view_of in Hr.
      destruct (render page i (set_view_pages p' v)) as [[r v2] rs2].
      cbn in Hr |- *. exact Hr.
    + reflexivity.
  - assert (Hq : request Defer (Raise e) v = (Raise e, v, [Defer])) by reflexivity.
    rewrite (mbind_raise _ _ _ _ _ _ Hq). reflexivity.
Qed.

(** A press counts when the owner made it and its defer went through. *)
Definition accepted (author : Z) (ev : Nav * Interaction) : bool :=
  (user_id (snd ev) =? author) &&
  match defer_answer (snd ev) with
  | Return _ => true
  | Raise _ => false
  end.

(** X7: The cursor of a session is the cursor [Pages] reaches by the
    navigation operations of the presses that count, in order: failed edits,
    presses at a boundary and presses by others do not disturb it. *)
Theorem cursor_tracks_navigation (evs : list (Nav * Interaction)) (v : PaginatorView) :
  view_pages (deliver_all evs v) =
  navigate_all (map fst (filter (accepted (ctx_author_id v)) evs)) (view_pages v).
Proof.
  revert v. induction evs as [| [op i] evs IH]; intros v.
  - reflexivity.
  - change (deliver_all ((op, i) :: evs) v)
      with (deliver_all evs (view_of (dispatch op i v))).
    assert (Hauthor : ctx_author_id (view_of (dispatch op i v)) = ctx_author_id v).
    { pose proof (dispatch_same_frame op i v) as Hf. unfold same_frame, frame in Hf.
      congruence. }
    rewrite IH, Hauthor. cbn [filter]. unfold accepted at 2. cbn [snd].
    destruct (Z.eqb_spec (user_id i) (ctx_author_id v)) as [Ho | Hs]; cbn [andb].
    + rewrite (dispatch_owner op i v Ho), callback_pages.
      destruct (defer_answer i); reflexivity.
    + rewrite (dispatch_stranger op i v Hs). reflexivity.
Qed.

(** ** What an accepted press shows *)

Definition same_embed (v v' : PaginatorView) : Prop := view_embed v' = view_embed v.

Lemma lock_same_embed : keeps same_embed _lock.
Proof.
  apply (keeps_lock same_embed); unfold same_embed; try reflexivity.
  intros v1 v2 v3 H12 H23. congruence.
Qed.

(** The embed after [_update_embed] on a page. *)
Definition shown (pg : Page) (v : PaginatorView) : Embed :=
  mkEmbed (title (view_embed v)) (content pg) (color (view_embed v))
          (if show_page_count v
           then Some (page_footer (index pg) (total (view_pages v)))
           else footer (view_embed v)).

Lemma update_embed_shown (pg : Page) (v : PaginatorView) :
  _update_embed (Some pg) v = (Return tt, set_view_embed (shown pg v) v, []).
Proof.
  unfold _update_embed, mbind, get, modify, shown. cbn.
  destruct v as [a p e s cs m]. destruct s; reflexivity.
Qed.

(** X8: When the owner's press moves the cursor, the message is edited once,
    after the defer, to exactly what the view then holds: the embed with the
    new page's content as description, with footer [Page i of n] for the new
    cursor when [show_page_count] is set and the old footer otherwise, title
    and colour as before, and the controls as [_lock] left them.  The
    callback's outcome is the answer to that edit. *)
Theorem accepted_press_renders
  (op : Nav) (i : Interaction) (v : PaginatorView) (pg : Page) (p' : Pages) :
  session_inv v ->
  user_id i = ctx_author_id v ->
  defer_answer i = Return tt ->
  navigate op (view_pages v) = (Return (Some pg), p') ->
  let v' := view_of (dispatch op i v) in
  dispatch op i v = (edit_answer i, v', [Defer; EditMessage (Some (view_embed v')) (children v')]) /\
  view_pages v' = p' /\
  view_embed v' =
    mkEmbed (title (view_embed v)) (content pg) (color (view_embed v))
            (if show_page_count v
             then Some (page_footer (cur_page p') (total p'))
             else footer (view_embed v)).
Proof.
  intros (Ht & Hr & Hc & Hen) Ho Hd Hnav v'. subst v'.
  rewrite (dispatch_owner op i v Ho).
  destruct (callback_cases op i v Ht Hr Hc)
    as [(_ & Hnone & _) | (pg0 & p0 & v1 & _ & Hnav0 & Hcb & Hp1 & _)].
  { destruct (Hnone Hd) as [Hnav' _]. rewrite Hnav' in Hnav. discriminate Hnav. }
  rewrite Hnav in Hnav0. injection Hnav0 as <- <-.
  rewrite Hcb. cbn [view_of fst snd].
  split; [reflexivity |]. split; [exact Hp1 |].
  (* the embed: recompute the callback up to [_lock] *)
  assert (Hidx : index pg = cur_page p').
  { destruct (navigate_cases op (view_pages v) Hr) as [Hn | (pg1 & p1 & Hn & _ & _ & Hi & _)];
      rewrite Hnav in Hn; [discriminate Hn |]. injection Hn as <- <-. exact Hi. }
  pose proof (f_equal view_of Hcb) as Hv1. cbn [view_of fst snd] in Hv1.
  rewrite callback_navigate in Hv1.
  assert (Hq : request Defer (defer_answer i) v = (Return tt, v, [Defer]))
    by (rewrite Hd; reflexivity).
  rewrite (mbind_return _ _ _ _ _ _ Hq) in Hv1. cbn [view_of fst snd] in Hv1.
  assert (Hon : on_pages (navigate op) v = (Return (Some pg), set_view_pages p' v, []))
    by (unfold on_pages; rewrite Hnav; reflexivity).
  rewrite (mbind_return _ _ _ _ _ _ Hon) in Hv1. cbn [view_of fst snd] in Hv1.
  unfold render in Hv1.
  rewrite (mbind_return _ _ _ _ _ _ (update_embed_shown pg (set_view_pages p' v))) in Hv1.
  cbn [view_of fst snd] in Hv1.
  set (v2 := set_view_embed (shown pg (set_view_pages p' v)) (set_view_pages p' v)) in *.
  pose proof (lock_same_embed v2) as Hlock. unfold same_embed in Hlock.
  unfold mbind at 1 in Hv1.
  destruct (_lock v2) as [[[[] | e] v3] rs3] eqn:Hl; cbn [view_of fst snd] in *.
  - unfold mbind, get, request in Hv1. cbn in Hv1. subst v1.
    rewrite Hlock. subst v2. unfold shown. cbn. rewrite Hidx. reflexivity.
  - subst v1. rewrite Hlock. subst v2. unfold shown. cbn. rewrite Hidx. reflexivity.
Qed.

Lemma accepted_press_renders_witness :
  let v := sample_view in
  let v' := view_of (dispatch NavNext owner_press v) in
  dispatch NavNext owner_press v
    = (edit_answer owner_press, v',
       [Defer; EditMessage (Some (view_embed v')) (children v')]) /\
  view_pages v' = mkPages ["p1"; "p2"; "p3"] 2 /\
  view_embed v' =
    mkEmbed (title (view_embed v)) (content (mkPage 2 "p2")) (color (view_embed v))
            (if show_page_count v
             then Some (page_footer (cur_page (mkPages ["p1"; "p2"; "p3"] 2))
                                    (total (mkPages ["p1"; "p2"; "p3"] 2)))
             else footer (view_embed v)).
Proof.
  apply (accepted_press_renders NavNext owner_press sample_view (mkPage 2 "p2")
           (mkPages ["p1"; "p2"; "p3"] 2)).
  - unfold session_inv, cursor_in_range, four_children, enablement_ok, disabled_flags, total.
    cbn. repeat split; try lia; try reflexivity.
    do 4 eexists. reflexivity.
  - reflexivity.
  - reflexivity.
  - reflexivity.
Defined.

(** ** Timeout, in general *)

(** The view [on_timeout] leaves: the controls greyed and disabled, and
    nothing else touched, whatever becomes of the edit. *)
Definition timed_out (v : PaginatorView) : PaginatorView :=
  set_children (map (fun child => mkButton grey (custom_id child) true) (children v)) v.

Lemma on_timeout_view (v : PaginatorView) : view_of (on_timeout v) = timed_out v.
Proof.
  unfold on_timeout, timed_out, mbind, modify, suppress_http, get, request, raise. cbn.
  destruct (message v) as [m |]; cbn; [| reflexivity].
  destruct (message_edit_answer m) as [[] | []]; reflexivity.
Qed.

(** X9: Whatever the view holds, [on_timeout] leaves every control disabled
    and grey with its id and changes nothing else of the view: owner,
    message, pages and cursor, embed and [show_page_count] are as before.
    Doing it again changes nothing more.  It returns normally when the edit
    succeeds or raises [HTTPException]; it raises [AttributeError], without
    a request, when no message was set; and any other exception of the edit
    comes out of it. *)
Theorem on_timeout_outcomes (v : PaginatorView) :
  let v' := view_of (on_timeout v) in
  v' = mkView (ctx_author_id v) (view_pages v) (view_embed v) (show_page_count v)
              (map (fun child => mkButton grey (custom_id child) true) (children v))
              (message v) /\
  Forall (fun child => disabled child = true /\ style child = grey) (children v') /\
  view_of (on_timeout v') = v' /\
  result_of (on_timeout v) =
    match message v with
    | None => Raise AttributeError
    | Some m =>
        match message_edit_answer m with
        | Raise HTTPException => Return tt
        | answer => answer
        end
    end /\
  requests_of (on_timeout v) =
    match message v with
    | None => []
    | Some _ => [EditMessage None (children v')]
    end.
Proof.
  intros v'. subst v'. rewrite !on_timeout_view.
  split; [reflexivity |]. split; [| split; [| split]].
  - unfold timed_out. cbn [children set_children].
    apply Forall_map. apply Forall_forall. intros child _. split; reflexivity.
  - unfold timed_out, set_children. cbn. rewrite map_map. reflexivity.
  - unfold on_timeout, mbind, modify, suppress_http, get, request, raise. cbn.
    destruct (message v) as [m |]; cbn; [| reflexivity].
    destruct (message_edit_answer m) as [[] | []]; reflexivity.
  - unfold on_timeout, timed_out, mbind, modify, suppress_http, get, request, raise. cbn.
    destruct (message v) as [m |]; cbn; [| reflexivity].
    destruct (message_edit_answer m) as [[] | []]; reflexivity.
Qed.

End ViewMore.

(** * Further properties of the utilities *)

Module EmbedsMore.
Import Utils UtilsFacts.

(** The descriptions of a list of embeds, one after the other. *)
Fixpoint text_of (es : list Embed) : string :=
  match es with
  | [] => ""
  | e :: es' => (description e ++ text_of es')%string
  end.

Lemma text_of_app (es es' : list Embed) :
  text_of (es ++ es') = (text_of es ++ text_of es')%string.
Proof.
  induction es as [| e es IH]; cbn; [reflexivity |].
  rewrite IH, append_assoc. reflexivity.
Qed.

Lemma unit_text_app (ls ls' : list string) :
  unit_text (ls ++ ls') = (unit_text ls ++ unit_text ls')%string.
Proof.
  induction ls as [| l ls IH]; cbn; [reflexivity |].
  rewrite IH, !append_assoc. reflexivity.
Qed.

(** The units of a loop state: the closed ones and the current one. *)
Definition units (st : LoopState) : list Embed := embeds st ++ [embed st].

(** An embed as [create_embeds] makes them. *)
Definition plain (c : option Z) (e : Embed) : Prop :=
  title e = "" /\ color e = c /\ footer e = None.

Section Loop.

Variable Dict : Type.
Variable format : string -> Dict -> result string.
Variable fmt_line : string.
Variable c : option Z.
Variable per_page : option Z.
Variable n : Z.

Let body := loop_body format fmt_line c per_page n.

(** An iteration that returns either closed the unit first or, the line
    fitting, added to the current one. *)
Lemma loop_body_cases (st st' : LoopState) (i : Z) (arg : Dict) (line : string) :
  format fmt_line arg = Return line ->
  body st (i, arg) = Return st' ->
  st' = closed_then_added c n i st line \/
  (exceeds st line = false /\ st' = added n i st line).
Proof.
  intros Hf Hb. unfold body, loop_body in Hb. rewrite Hf in Hb. cbn [bind] in Hb.
  unfold split_step in Hb.
  destruct (exceeds st line) eqn:Hex.
  - left. cbn in Hb. injection Hb as <-. reflexivity.
  - destruct (per_page_trigger per_page i) as [[|] |]; cbn in Hb;
      [left | right; split; [reflexivity |] | discriminate Hb];
      injection Hb as <-; reflexivity.
Qed.

(** It does return unless [i % per_page] divides by zero. *)
Lemma loop_body_returns (st : LoopState) (i : Z) (arg : Dict) (line : string) :
  format fmt_line arg = Return line ->
  per_page <> Some 0 ->
  exists st', body st (i, arg) = Return st'.
Proof.
  intros Hf Hpp. unfold body, loop_body. rewrite Hf. cbn [bind].
  unfold split_step. destruct (exceeds st line); [eexists; reflexivity |].
  unfold per_page_trigger, py_mod.
  destruct per_page as [k |]; [| eexists; reflexivity].
  cbn [Z.gtb Z.compare].
  destruct (Z.eqb_spec k 0) as [-> | _]; [contradiction | eexists; reflexivity].
Qed.

(** Induction along the loop, for a property of the state and of the lines
    added so far. *)
Lemma loop_induction (P : list string -> LoopState -> Prop) :
  (forall done st i arg line st',
     P done st ->
     format fmt_line arg = Return line ->
     body st (i, arg) = Return st' ->
     P (done ++ [line]) st') ->
  forall arguments lines,
    rendered format fmt_line arguments lines ->
    forall done st i st',
      P done st ->
      for_each body st (enumerate_from i arguments) = Return st' ->
      P (done ++ lines) st'.
Proof.
  intros Hstep arguments lines Hr.
  induction Hr as [| arg line arguments lines Hf _ IH]; intros done st i st' HP Hrun.
  - cbn in Hrun. injection Hrun as <-. rewrite app_nil_r. exact HP.
  - cbn [enumerate_from for_each] in Hrun.
    destruct (body st (i, arg)) as [st1 |] eqn:Hb; [| discriminate Hrun].
    cbn [bind] in Hrun.
    replace (done ++ line :: lines) with ((done ++ [line]) ++ lines)
      by (rewrite <- app_assoc; reflexivity).
    apply (IH _ st1 (i + 1)); [| exact Hrun].
    apply (Hstep done st i arg line); assumption.
Qed.

Lemma loop_returns (arguments : list Dict) (lines : list string) :
  rendered format fmt_line arguments lines ->
  per_page <> Some 0 ->
  forall st i, exists st', for_each body st (enumerate_from i arguments) = Return st'.
Proof.
  intros Hr Hpp. induction Hr as [| arg line arguments lines Hf _ IH]; intros st i.
  - exists st. reflexivity.
  - destruct (loop_body_returns st i arg line Hf Hpp) as [st1 Hb].
    cbn [enumerate_from for_each]. rewrite Hb. cbn [bind]. apply IH.
Qed.

(** The last iteration sets [append_list]. *)
Lemma last_iteration_sets_flag (arguments : list Dict) :
  forall st st' i,
    arguments <> [] ->
    i + len arguments = n ->
    for_each body st (enumerate_from i arguments) = Return st' ->
    append_list st' = true.
Proof.
  induction arguments as [| arg arguments IH]; intros st st' i Hne Hn Hrun;
    [contradiction |].
  cbn [enumerate_from for_each] in Hrun.
  destruct (body st (i, arg)) as [st1 |] eqn:Hb; [| discriminate Hrun].
  cbn [bind] in Hrun.
  destruct arguments as [| arg' arguments].
  - cbn in Hrun. injection Hrun as <-.
    unfold body, loop_body in Hb.
    destruct (format fmt_line arg) as [line |]; [| discriminate Hb]. cbn [bind] in Hb.
    destruct (split_step c per_page st i line) as [st2 |]; [| discriminate Hb].
    cbn [bind] in Hb. injection Hb as <-. cbn.
    unfold len in Hn. cbn in Hn.
    destruct (Z.eqb_spec i (n - 1)) as [_ | Hbad]; [reflexivity | lia].
  - apply (IH st1 st' (i + 1)); [discriminate | | exact Hrun].
    unfold len in *. cbn [List.length] in *. lia.
Qed.

End Loop.

Section Results.

Variable Dict : Type.
Variable format : string -> Dict -> result string.
Variable fmt_line : string.
Variable c : option Z.

(** The result of a call on a non-empty list is the units of the final
    loop state. *)
Lemma create_embeds_units (per_page : option Z) (arguments : list Dict)
      (r : option (list Embed)) :
  arguments <> [] ->
  create_embeds format fmt_line c per_page arguments = Return r ->
  exists st,
    for_each (loop_body format fmt_line c per_page (len arguments)) (loop_init c)
             (enumerate arguments) = Return st /\
    r = Some (units st).
Proof.
  intros Hne Hrun. destruct arguments as [| arg arguments]; [contradiction |].
  unfold create_embeds in Hrun.
  destruct (for_each (loop_body format fmt_line c per_page (len (arg :: arguments)))
                     (loop_init c) (enumerate (arg :: arguments))) as [st |] eqn:Hloop;
    [| discriminate Hrun].
  cbn [bind] in Hrun.
  rewrite (last_iteration_sets_flag Dict format fmt_line c per_page (len (arg :: arguments))
             (arg :: arguments) (loop_init c) st 0) in Hrun;
    [| discriminate | reflexivity | exact Hloop].
  injection Hrun as <-. exists st. split; reflexivity.
Qed.

Lemma create_embeds_runs (per_page : option Z) (arguments : list Dict) (lines : list string) :
  arguments <> [] ->
  rendered format fmt_line arguments lines ->
  per_page <> Some 0 ->
  exists st,
    for_each (loop_body format fmt_line c per_page (len arguments)) (loop_init c)
             (enumerate arguments) = Return st /\
    create_embeds format fmt_line c per_page arguments = Return (Some (units st)).
Proof.
  intros Hne Hr Hpp.
  destruct (loop_returns Dict format fmt_line c per_page (len arguments) arguments lines
              Hr Hpp (loop_init c) 0) as [st Hloop].
  exists st. split; [exact Hloop |].
  destruct arguments as [| arg arguments]; [contradiction |].
  unfold create_embeds. unfold enumerate in Hloop. unfold enumerate. rewrite Hloop. cbn [bind].
  rewrite (last_iteration_sets_flag Dict format fmt_line c per_page (len (arg :: arguments))
             (arg :: arguments) (loop_init c) st 0);
    [reflexivity | discriminate | reflexivity | exact Hloop].
Qed.

(** X10: For a non-empty argument list whose records all render, and a
    [per_page] that is not 0, [create_embeds] returns a list, the list is not
    empty, and every embed in it has the empty title, the colour given and no
    footer. *)
Theorem create_embeds_returns_plain_embeds
  (per_page : option Z) (arguments : list Dict) (lines : list string) :
  arguments <> [] ->
  rendered format fmt_line arguments lines ->
  per_page <> Some 0 ->
  exists es,
    create_embeds format fmt_line c per_page arguments = Return (Some es) /\
    es <> [] /\
    Forall (plain c) es.
Proof.
  intros Hne Hr Hpp.
  destruct (create_embeds_runs per_page arguments lines Hne Hr Hpp) as (st & Hloop & Hres).
  exists (units st). split; [exact Hres |]. split.
  - unfold units. destruct (embeds st); discriminate.
  - pose proof (loop_induction Dict format fmt_line c per_page (len arguments)
                  (fun _ st => Forall (plain c) (units st))) as Hind.
    unfold enumerate in Hloop.
    refine (Hind _ arguments lines Hr [] (loop_init c) 0 st _ Hloop).
    + intros done st0 i arg line st' HP Hf Hb.
      apply Forall_app in HP. destruct HP as [Hes He].
      destruct (loop_body_cases Dict format fmt_line c per_page (len arguments)
                  st0 st' i arg line Hf Hb) as [-> | [_ ->]]; unfold units; cbn.
      * apply Forall_app. split; [apply Forall_app; split; assumption |].
        repeat constructor.
      * apply Forall_app. split; [exact Hes |]. constructor; [| constructor].
        apply Forall_inv in He. exact He.
    + repeat constructor.
Qed.

(** X11: Under the same conditions nothing is lost, added or reordered: the
    descriptions of the result, read one after the other, are the rendered
    lines, each followed by a newline. *)
Theorem create_embeds_keeps_lines
  (per_page : option Z) (arguments : list Dict) (lines : list string) :
  arguments <> [] ->
  rendered format fmt_line arguments lines ->
  per_page <> Some 0 ->
  exists es,
    create_embeds format fmt_line c per_page arguments = Return (Some es) /\
    text_of es = unit_text lines.
Proof.
  intros Hne Hr Hpp.
  destruct (create_embeds_runs per_page arguments lines Hne Hr Hpp) as (st & Hloop & Hres).
  exists (units st). split; [exact Hres |].
  pose proof (loop_induction Dict format fmt_line c per_page (len arguments)
                (fun done st => text_of (units st) = unit_text done)) as Hind.
  unfold enumerate in Hloop.
  refine (Hind _ arguments lines Hr [] (loop_init c) 0 st _ Hloop).
  - intros done st0 i arg line st' HP Hf Hb.
    rewrite unit_text_app. cbn [unit_text]. rewrite <- HP.
    destruct (loop_body_cases Dict format fmt_line c per_page (len arguments)
                st0 st' i arg line Hf Hb) as [-> | [_ ->]]; unfold units; cbn.
    + rewrite text_of_app. cbn. rewrite !append_assoc. reflexivity.
    + rewrite !text_of_app. cbn. rewrite !append_assoc. reflexivity.
  - reflexivity.
Qed.

(** X12: When every rendered line, with its newline, fits into 4096 characters,
    so does the description of every embed of the result. *)
Theorem create_embeds_within_budget
  (per_page : option Z) (arguments : list Dict) (lines : list string) :
  arguments <> [] ->
  rendered format fmt_line arguments lines ->
  per_page <> Some 0 ->
  Forall (fun line => str_len line + 1 <= 4096) lines ->
  exists es,
    create_embeds format fmt_line c per_page arguments = Return (Some es) /\
    Forall (fun e => str_len (description e) <= 4096) es.
Proof.
  intros Hne Hr Hpp Hsmall.
  destruct (create_embeds_runs per_page arguments lines Hne Hr Hpp) as (st & Hloop & Hres).
  exists (units st). split; [exact Hres |].
  pose proof (loop_induction Dict format fmt_line c per_page (len arguments)
                (fun done st =>
                   Forall (fun line => str_len line + 1 <= 4096) done ->
                   Forall (fun e => str_len (description e) <= 4096) (units st))) as Hind.
  unfold enumerate in Hloop. revert Hsmall.
  refine (Hind _ arguments lines Hr [] (loop_init c) 0 st _ Hloop).
  - intros done st0 i arg line st' HP Hf Hb Hall.
    apply Forall_app in Hall. destruct Hall as [Hdone Hline].
    apply Forall_inv in Hline. specialize (HP Hdone).
    destruct (loop_body_cases Dict format fmt_line c per_page (len arguments)
                st0 st' i arg line Hf Hb) as [-> | [Hex ->]]; unfold units; cbn.
    + apply Forall_app. split; [exact HP |]. constructor; [| constructor].
      cbn. rewrite str_len_append, str_len_newline. exact Hline.
    + apply Forall_app in HP. destruct HP as [Hes _].
      apply Forall_app. split; [exact Hes |]. constructor; [| constructor].
      cbn. rewrite !str_len_append, str_len_newline.
      apply exceeds_false in Hex. unfold max_desc_length in Hex. lia.
  - intros _. repeat constructor. cbn. unfold str_len. cbn. lia.
Qed.

(** X13: [per_page = 0] is an error: as soon as the first line fits into the
    budget the call raises [ZeroDivisionError], whatever follows. *)
Theorem per_page_zero_raises (arg : Dict) (arguments : list Dict) (line : string) :
  format fmt_line arg = Return line ->
  str_len line + 1 <= 4096 ->
  create_embeds format fmt_line c (Some 0) (arg :: arguments) = Raise ZeroDivisionError.
Proof.
  intros Hf Hfit. unfold create_embeds, enumerate. cbn [enumerate_from for_each].
  unfold loop_body at 1. rewrite Hf. cbn [bind]. unfold split_step.
  assert (Hex : exceeds (loop_init c) line = false).
  { apply exceeds_false. cbn. unfold max_desc_length. lia. }
  rewrite Hex. reflexivity.
Qed.

(** X14: A record that does not render stops the call with the error of the
    rendering: nothing is returned for the records before it. *)
Theorem rendering_error_propagates
  (per_page : option Z) (before after : list Dict) (arg : Dict) (lines : list string) (e : exn) :
  rendered format fmt_line before lines ->
  format fmt_line arg = Raise e ->
  per_page <> Some 0 ->
  create_embeds format fmt_line c per_page (before ++ arg :: after) = Raise e.
Proof.
  intros Hr Hf Hpp.
  assert (Hloop : forall n st i,
             for_each (loop_body format fmt_line c per_page n) st
                      (enumerate_from i (before ++ arg :: after)) = Raise e).
  { intros n st i. rewrite enumerate_from_app, for_each_app.
    destruct (loop_returns Dict format fmt_line c per_page n before lines Hr Hpp st i)
      as [st1 ->].
    cbn [bind enumerate_from for_each]. unfold loop_body at 1. rewrite Hf. reflexivity. }
  assert (Hne : before ++ arg :: after <> []) by (destruct before; discriminate).
  unfold create_embeds, enumerate.
  destruct (before ++ arg :: after) as [| a l]; [contradiction |].
  rewrite Hloop. reflexivity.
Qed.

(** X15: Without [per_page], lines that fit together into 4096 characters end
    up in one embed. *)
Theorem one_embed_when_all_fits (arguments : list Dict) (lines : list string) :
  arguments <> [] ->
  rendered format fmt_line arguments lines ->
  unit_len lines <= 4096 ->
  create_embeds format fmt_line c None arguments = Return (Some [unit_embed c lines]).
Proof.
  intros Hne Hr Hfit.
  destruct (create_embeds_runs None arguments lines Hne Hr ltac:(discriminate))
    as (st & Hloop & Hres).
  rewrite Hres. f_equal. f_equal.
  pose proof (loop_induction Dict format fmt_line c None (len arguments)
                (fun done st =>
                   unit_len done <= 4096 -> units st = [unit_embed c done])) as Hind.
  unfold enumerate in Hloop. revert Hfit.
  refine (Hind _ arguments lines Hr [] (loop_init c) 0 st _ Hloop).
  - intros done st0 i arg line st' HP Hf Hb Hall.
    unfold unit_len in Hall. rewrite unit_text_app, str_len_append in Hall.
    fold (unit_len done) in Hall. fold (unit_len [line]) in Hall.
    rewrite unit_len_cons in Hall. pose proof (unit_len_nonneg done) as Hd.
    pose proof (unit_len_nonneg (@nil string)) as Hnil.
    pose proof (str_len_nonneg line) as Hl.
    specialize (HP ltac:(lia)).
    destruct st0 as [es e b]. unfold units in HP. cbn in HP.
    destruct es as [| e0 es]; [| destruct es; discriminate HP].
    cbn in HP. injection HP as ->.
    assert (Hstep : loop_body format fmt_line c None (len arguments)
                              (mkLoop [] (unit_embed c done) b) (i, arg)
                    = Return (added (len arguments) i (mkLoop [] (unit_embed c done) b) line)).
    { apply loop_body_kept; [exact Hf |]. unfold split_step.
      assert (Hex : exceeds (mkLoop [] (unit_embed c done) b) line = false).
      { apply exceeds_false. cbn. fold (unit_len done). unfold max_desc_length. lia. }
      rewrite Hex. reflexivity. }
    rewrite Hstep in Hb. injection Hb as <-.
    unfold units, added, unit_embed. cbn.
    rewrite unit_text_app. cbn. reflexivity.
  - intros _. reflexivity.
Qed.

(** A line that is too long for the budget on its own is not cut: a
    single such record gives an empty embed followed by an embed that holds
    the whole line and exceeds 4096 characters, whatever [per_page] is. *)
Theorem oversize_line_is_not_split (per_page : option Z) (arg : Dict) (line : string) :
  format fmt_line arg = Return line ->
  str_len line + 1 > 4096 ->
  create_embeds format fmt_line c per_page [arg]
    = Return (Some [Embed_new c; unit_embed c [line]]) /\
  str_len (description (unit_embed c [line])) > 4096.
Proof.
  intros Hf Hbig. split.
  - unfold create_embeds, enumerate. cbn [enumerate_from for_each].
    unfold loop_body at 1. rewrite Hf. cbn [bind]. unfold split_step.
    assert (Hex : exceeds (loop_init c) line = true).
    { apply exceeds_true. cbn. unfold max_desc_length. lia. }
    rewrite Hex. cbn. unfold unit_embed. cbn [unit_text].
    rewrite (append_empty_r newline). reflexivity.
  - unfold unit_embed. cbn [description unit_text].
    rewrite !str_len_append, str_len_newline.
    change (str_len "") with 0. lia.
Qed.

End Results.

Definition five_lines : list string := ["a"; "b"; "c"; "d"; "e"].

Lemma five_records_rendered : rendered str_format "{x}" five_records five_lines.
Proof. repeat constructor. Qed.

Lemma create_embeds_returns_plain_embeds_witness :
  exists es,
    create_embeds str_format "{x}" (Some 7) (Some 2) five_records = Return (Some es) /\
    es <> [] /\
    Forall (plain (Some 7)) es.
Proof.
  apply (create_embeds_returns_plain_embeds StrDict str_format "{x}" (Some 7) (Some 2)
           five_records five_lines).
  - discriminate.
  - repeat constructor.
  - discriminate.
Defined.

Lemma create_embeds_keeps_lines_witness :
  exists es,
    create_embeds str_format "{x}" None (Some 2) five_records = Return (Some es) /\
    text_of es = unit_text five_lines.
Proof.
  apply (create_embeds_keeps_lines StrDict str_format "{x}" None (Some 2)
           five_records five_lines).
  - discriminate.
  - repeat constructor.
  - discriminate.
Defined.

Lemma create_embeds_within_budget_witness :
  exists es,
    create_embeds str_format "{x}" None None
                  [record (copies 2047 "a"); record (copies 2047 "b"); record (copies 4095 "c")]
      = Return (Some es) /\
    Forall (fun e => str_len (description e) <= 4096) es.
Proof.
  apply (create_embeds_within_budget StrDict str_format "{x}" None None
           [record (copies 2047 "a"); record (copies 2047 "b"); record (copies 4095 "c")]
           [copies 2047 "a"; copies 2047 "b"; copies 4095 "c"]).
  - discriminate.
  - repeat constructor.
  - discriminate.
  - repeat constructor; fits_by_computation.
Defined.

Lemma per_page_zero_raises_witness :
  create_embeds str_format "{x}" None (Some 0) five_records = Raise ZeroDivisionError.
Proof.
  apply (per_page_zero_raises StrDict str_format "{x}" None (record "a")
           [record "b"; record "c"; record "d"; record "e"] "a").
  - reflexivity.
  - fits_by_computation.
Defined.

Lemma rendering_error_propagates_witness :
  create_embeds str_format "{x}" None (Some 2)
                ([record "a"; record "b"] ++ [("y", "c")] :: [record "d"])
    = Raise KeyError.
Proof.
  apply (rendering_error_propagates StrDict str_format "{x}" None (Some 2)
           [record "a"; record "b"] [record "d"] [("y", "c")] ["a"; "b"] KeyError).
  - repeat constructor.
  - reflexivity.
  - discriminate.
Defined.

Lemma one_embed_when_all_fits_witness :
  create_embeds str_format "{x}" None None five_records
    = Return (Some [unit_embed None five_lines]).
Proof.
  apply (one_embed_when_all_fits StrDict str_format "{x}" None five_records five_lines).
  - discriminate.
  - repeat constructor.
  - fits_by_computation.
Defined.

Lemma oversize_line_is_not_split_witness :
  create_embeds str_format "{x}" None None [record (copies 4096 "a")]
    = Return (Some [Embed_new None; unit_embed None [copies 4096 "a"]]) /\
  str_len (description (unit_embed None [copies 4096 "a"])) > 4096.
Proof.
  apply (oversize_line_is_not_split StrDict str_format "{x}" None None
           (record (copies 4096 "a")) (copies 4096 "a")).
  - reflexivity.
  - vm_compute. reflexivity.
Defined.

End EmbedsMore.

Module GroupMore.
Import Utils UtilsFacts.

(** [xs] is [ys] with some elements left out. *)
Inductive subseq {A : Type} : list A -> list A -> Prop :=
| subseq_nil : subseq [] []
| subseq_skip (y : A) (xs ys : list A) : subseq xs ys -> subseq xs (y :: ys)
| subseq_take (x : A) (xs ys : list A) : subseq xs ys -> subseq (x :: xs) (x :: ys).

Lemma subseq_snoc_skip {A : Type} (xs ys : list A) (y : A) :
  subseq xs ys -> subseq xs (ys ++ [y]).
Proof.
  induction 1 as [| z xs ys _ IH | z xs ys _ IH]; cbn.
  - apply subseq_skip, subseq_nil.
  - apply subseq_skip, IH.
  - apply subseq_take, IH.
Qed.

Lemma subseq_snoc_take {A : Type} (xs ys : list A) (y : A) :
  subseq xs ys -> subseq (xs ++ [y]) (ys ++ [y]).
Proof.
  induction 1 as [| z xs ys _ IH | z xs ys _ IH]; cbn.
  - apply subseq_take, subseq_nil.
  - apply subseq_skip, IH.
  - apply subseq_take, IH.
Qed.

Section GroupMoreFacts.

Variable Obj : Type.
Variable getattr : Obj -> string -> result Obj.
Variable hashable : Obj -> bool.
Variable eqb : Obj -> Obj -> bool.
Hypothesis eqb_eq : forall x y, eqb x y = true <-> x = y.

Let step := group_step Obj getattr hashable eqb.

(** X16: The first item on which the first key has no value that can be
    hashed stops the call, however many items before it were grouped: with
    the error of the attribute access (for [getattr], [AttributeError]) when
    the key does not resolve, and with [TypeError] when it resolves to a
    value that cannot be hashed, such as a list. *)
Theorem missing_attribute_raises
  (before after : list Obj) (x : Obj) (key : string) (sub : list string) :
  (forall y, In y before -> exists v, key_value getattr key y v /\ hashable v = true) ->
  (forall e,
     key_error getattr key x e ->
     group_items_by getattr hashable eqb (before ++ x :: after) (key :: sub) = Raise e) /\
  (forall v,
     key_value getattr key x v ->
     hashable v = false ->
     group_items_by getattr hashable eqb (before ++ x :: after) (key :: sub)
       = Raise TypeError).
Proof.
  intros Hres.
  assert (Hres' : forall y, In y before ->
                    exists v, key_of getattr key y = Return v /\ hashable v = true).
  { intros y Hy. destruct (Hres y Hy) as (v & Hv & Hh).
    exists v. split; [apply key_of_key_value; exact Hv | exact Hh]. }
  destruct (first_loop_returns Obj getattr hashable eqb eqb_eq key before [] Hres')
    as [groups Hrun].
  split.
  - intros e Hx. apply key_of_key_error in Hx.
    cbn [group_items_by]. rewrite for_each_app, Hrun.
    cbn [bind for_each]. unfold group_step at 1.
    unfold key_of in Hx. rewrite Hx. reflexivity.
  - intros v Hx Hh. apply key_of_key_value in Hx.
    cbn [group_items_by]. rewrite for_each_app, Hrun.
    cbn [bind for_each].
    rewrite (group_step_unhashable Obj getattr hashable eqb key groups x v Hx Hh).
    reflexivity.
Qed.

(** After the first loop the kept items are, in order, items of the input. *)
Lemma first_loop_order (key : string) (rest : list Obj) :
  forall (items : list Obj) (groups groups' : list (Obj * list Obj)),
    subseq (List.concat (dict_values Obj groups)) items ->
    for_each (step key) groups rest = Return groups' ->
    subseq (List.concat (dict_values Obj groups')) (items ++ rest).
Proof.
  induction rest as [| item rest IH]; intros items groups groups' Hsub Hrun.
  - cbn in Hrun. injection Hrun as <-. rewrite app_nil_r. exact Hsub.
  - cbn [for_each] in Hrun.
    destruct (step key groups item) as [groups1 |] eqn:Hstep; [| discriminate Hrun].
    cbn [bind] in Hrun.
    replace (items ++ item :: rest) with ((items ++ [item]) ++ rest)
      by (rewrite <- app_assoc; reflexivity).
    apply (IH _ groups1); [| exact Hrun].
    destruct (group_step_returns Obj getattr hashable eqb key groups groups1 item Hstep)
      as (v & Hv & Hh).
    destruct (group_step_cases Obj getattr hashable eqb eqb_eq key groups item v Hv Hh)
      as [[_ Heq] | [_ Heq]]; fold step in Heq; rewrite Heq in Hstep; injection Hstep as <-.
    + apply subseq_snoc_skip. exact Hsub.
    + unfold dict_values. rewrite map_app, concat_app. cbn.
      apply subseq_snoc_take. exact Hsub.
Qed.

Lemma collect_all (gs : list (list Obj)) :
  forall acc, for_each (collect Obj getattr hashable eqb []) acc gs = Return (acc ++ gs).
Proof.
  induction gs as [| g gs IH]; intros acc; cbn.
  - rewrite app_nil_r. reflexivity.
  - rewrite IH, <- app_assoc. reflexivity.
Qed.

(** What a call with a non-empty key path returns is the groups of its
    first loop. *)
Lemma result_is_first_loop (items : list Obj) (key : string) (sub : list string)
      (r : list (list Obj)) :
  group_items_by getattr hashable eqb items (key :: sub) = Return r ->
  exists groups,
    for_each (step key) [] items = Return groups /\ r = dict_values Obj groups.
Proof.
  intros Hr. cbn [group_items_by] in Hr. fold (collect Obj getattr hashable eqb sub) in Hr.
  fold (step key) in Hr.
  destruct (for_each (step key) [] items) as [groups |] eqn:Hrun; [| discriminate Hr].
  cbn [bind] in Hr. exists groups. split; [reflexivity |].
  pose proof (grouped_loop Obj getattr hashable eqb eqb_eq key items [] [] groups
                (grouped_nil Obj getattr key) Hrun) as (_ & _ & Hfirst).
  assert (Hsingle : Forall (fun g => exists x, g = [x]) (dict_values Obj groups)).
  { unfold dict_values. apply Forall_map. eapply Forall_impl; [| exact Hfirst].
    intros vg (x & Hx & _). exists x. exact Hx. }
  destruct (second_loop Obj getattr hashable eqb eqb_eq sub _ Hsingle []) as [Hsecond _].
  apply Hsecond in Hr. exact Hr.
Qed.

(** X17: The items of the result come in the order they have in the input:
    read group by group, the result is the input with some items left out. *)
Theorem result_keeps_input_order (items : list Obj) (key : string) (sub : list string)
        (r : list (list Obj)) :
  group_items_by getattr hashable eqb items (key :: sub) = Return r ->
  subseq (List.concat r) items.
Proof.
  intros Hr. destruct (result_is_first_loop items key sub r Hr) as (groups & Hrun & ->).
  apply (first_loop_order key items [] [] groups); [apply subseq_nil | exact Hrun].
Qed.

(** X18: Keys after the first never change the result: whenever a call with a
    longer key path returns, it returns what the call with the first key
    alone returns. *)
Theorem deeper_keys_change_nothing (items : list Obj) (key : string) (sub : list string)
        (r : list (list Obj)) :
  group_items_by getattr hashable eqb items (key :: sub) = Return r ->
  group_items_by getattr hashable eqb items [key] = Return r.
Proof.
  intros Hr. destruct (result_is_first_loop items key sub r Hr) as (groups & Hrun & ->).
  cbn [group_items_by]. fold (step key). rewrite Hrun. cbn [bind].
  apply (collect_all (dict_values Obj groups) []).
Qed.

End GroupMoreFacts.

Lemma value_of_member (name : string) (z : Z) :
  key_value value_getattr "value" (Member name z) (Int z).
Proof.
  exists ["value"]. split; [discriminate |]. split; [repeat constructor |].
  split; [reflexivity |]. apply (value_there _ _ (Member name z) (Int z) (Int z) "value" []).
  - reflexivity.
  - constructor.
Qed.

Lemma missing_attribute_raises_witness :
  group_items_by value_getattr value_hashable value_eqb
                 ([RED; GREEN] ++ Int 5 :: [BLUE]) ["value"]
    = Raise AttributeError /\
  group_items_by value_getattr value_hashable value_eqb
                 ([] ++ RED :: [GREEN; BLUE]) ["_member_names_"]
    = Raise TypeError.
Proof.
  split.
  - apply (missing_attribute_raises Value value_getattr value_hashable value_eqb value_eqb_eq
             [RED; GREEN] [BLUE] (Int 5) "value" []).
    + intros y [<- | [<- | []]]; eexists; (split; [apply value_of_member | reflexivity]).
    + exists ["value"]. split; [discriminate |]. split; [repeat constructor |].
      split; [reflexivity |]. apply raises_here. reflexivity.
  - refine (proj2 (missing_attribute_raises Value value_getattr value_hashable value_eqb
                     value_eqb_eq [] [GREEN; BLUE] RED "_member_names_" [] _)
                  (Names ["RED"; "GREEN"; "BLUE"]) _ _).
    + intros y [].
    + exists ["_member_names_"]. split; [discriminate |]. split; [repeat constructor |].
      split; [reflexivity |].
      apply (value_there _ _ RED (Names ["RED"; "GREEN"; "BLUE"]) _ "_member_names_" []).
      * reflexivity.
      * constructor.
    + reflexivity.
Defined.

Lemma result_keeps_input_order_witness :
  subseq (List.concat [[RED]; [GREEN]; [BLUE]]) colors.
Proof.
  apply (result_keeps_input_order Value value_getattr value_hashable value_eqb value_eqb_eq colors
           "value" ["name"] [[RED]; [GREEN]; [BLUE]]).
  reflexivity.
Defined.

Lemma deeper_keys_change_nothing_witness :
  group_items_by value_getattr value_hashable value_eqb colors ["value"] = Return [[RED]; [GREEN]; [BLUE]].
Proof.
  apply (deeper_keys_change_nothing Value value_getattr value_hashable value_eqb value_eqb_eq colors
           "value" ["name"] [[RED]; [GREEN]; [BLUE]]).
  reflexivity.
Defined.

End GroupMore.

(** * Starting a paginator *)

Module SessionFacts.
Import Paginator Session PagesFacts ViewFacts UtilsFacts ChunkFacts.

(** ["".join(xs)] *)
Definition join (xs : list string) : string := String.concat "" xs.

Lemma join_cons (x : string) (xs : list string) : join (x :: xs) = (x ++ join xs)%string.
Proof.
  unfold join. cbn [String.concat]. destruct xs as [| y ys].
  - cbn. rewrite append_empty_r. reflexivity.
  - reflexivity.
Qed.

Lemma join_app (xs ys : list string) : join (xs ++ ys) = (join xs ++ join ys)%string.
Proof.
  induction xs as [| x xs IH]; [reflexivity |].
  cbn [app]. rewrite !join_cons, IH, append_assoc. reflexivity.
Qed.

Lemma join_chunks (k : nat) (xs : list string) :
  join (map join (chunks_of (S k) xs)) = join xs.
Proof.
  induction xs as [| x xs IH] using (chunks_ind k); simp chunks_of.
  - reflexivity.
  - cbn [map]. rewrite join_cons, IH, <- join_app.
    change (x :: firstn k xs) with ([x] ++ firstn k xs).
    rewrite <- app_assoc, firstn_skipn. reflexivity.
Qed.

Lemma chunks_single {A : Type} (k : nat) (xs : list A) :
  xs <> [] -> (List.length xs <= S k)%nat -> chunks_of (S k) xs = [xs].
Proof.
  intros Hne Hlen. destruct xs as [| x xs]; [contradiction |].
  simp chunks_of. cbn [List.length] in Hlen.
  rewrite firstn_all2 by lia. rewrite skipn_all2 by lia. simp chunks_of. reflexivity.
Qed.

Lemma chunks_many {A : Type} (k : nat) (xs : list A) :
  (S k < List.length xs)%nat ->
  exists ch rest,
    chunks_of (S k) xs = firstn (S k) xs :: ch :: rest.
Proof.
  intros Hlen. destruct xs as [| x xs]; [cbn in Hlen; lia |].
  simp chunks_of. cbn [List.length] in Hlen.
  destruct (skipn k xs) as [| y ys] eqn:Hs.
  - pose proof (length_skipn k xs) as Hl. rewrite Hs in Hl. cbn in Hl. lia.
  - simp chunks_of. eexists. eexists. reflexivity.
Qed.

(** The pages [start] builds. *)
Definition pages_of (self : RedPaginator) : list string :=
  map join (chunks_of (Z.to_nat (paginator_per_page self)) (paginator_lines self)).

Lemma build_pages_ok (self : RedPaginator) :
  0 <= paginator_per_page self <= sys_maxsize -> build_pages self = Return (pages_of self).
Proof.
  intros Hpp. unfold build_pages. rewrite (get_chunks_accepted _ _ Hpp). reflexivity.
Qed.

Lemma build_pages_refused (self : RedPaginator) :
  paginator_per_page self < 0 \/ sys_maxsize < paginator_per_page self ->
  build_pages self = Raise ValueError.
Proof.
  intros Hpp. unfold build_pages. rewrite (get_chunks_refused _ _ Hpp). reflexivity.
Qed.

(** X19: [start] needs something to show: with a [per_page] that is
    negative or above [sys.maxsize] it raises [ValueError] before anything
    happens; with [per_page = 0], or without lines and a [per_page] in range,
    it builds an empty [Pages] and raises [IndexError].  In neither case is
    anything sent. *)
Theorem start_without_pages (answer : result Message) (self : RedPaginator) :
  (paginator_per_page self < 0 \/ sys_maxsize < paginator_per_page self ->
   start answer self = mkStarted (Raise ValueError) self [] None) /\
  (0 <= paginator_per_page self <= sys_maxsize ->
   paginator_per_page self = 0 \/ paginator_lines self = [] ->
   start answer self
     = mkStarted (Raise IndexError) (set_pages (Pages_init []) self) [] None).
Proof.
  split.
  - intros Hpp. unfold start. rewrite (build_pages_refused self Hpp). reflexivity.
  - intros Hpp Hcase. unfold start. rewrite (build_pages_ok self Hpp).
    assert (Hnone : pages_of self = []).
    { unfold pages_of. destruct Hcase as [-> | ->].
      - cbn. simp chunks_of. reflexivity.
      - destruct (Z.to_nat (paginator_per_page self)); simp chunks_of; reflexivity. }
    rewrite Hnone. reflexivity.
Qed.

(** The embed [start] sends first: page 1. *)
Definition first_embed (self : RedPaginator) (content : string) (n : Z) : Embed :=
  mkEmbed (match paginator_title self with
           | Some (String ch t) => String ch t
           | _ => ""
           end)
          content (Some dark_embed)
          (if paginator_show_page_count self then Some (page_footer 1 n) else None).

Lemma embed_first_page (self : RedPaginator) (p : string) (ps : list string) :
  embed (set_pages (Pages_init (p :: ps)) self)
    = Return (first_embed self p (len (p :: ps))).
Proof.
  unfold embed, first_embed. cbn.
  destruct (paginator_title self) as [[| ch t] |]; destruct (paginator_show_page_count self);
    reflexivity.
Qed.

(** X20: Lines that fit on one page, with a [per_page] that is at most
    [sys.maxsize]: [start] sends one embed with all of them and no view, and
    returns the message; no session comes to life. *)
Theorem start_single_page (answer : result Message) (self : RedPaginator) :
  paginator_lines self <> [] ->
  len (paginator_lines self) <= paginator_per_page self ->
  paginator_per_page self <= sys_maxsize ->
  start answer self =
  mkStarted (m <- answer ;; Return (Some m))
            (set_pages (Pages_init [join (paginator_lines self)]) self)
            [SendEmbed (first_embed self (join (paginator_lines self)) 1) None]
            None.
Proof.
  intros Hne Hlen Hmax.
  assert (Hpp : 0 <= paginator_per_page self <= sys_maxsize) by (unfold len in Hlen; lia).
  unfold start. rewrite (build_pages_ok self Hpp).
  assert (Hone : pages_of self = [join (paginator_lines self)]).
  { unfold pages_of. destruct (Z.to_nat (paginator_per_page self)) as [| k] eqn:Hk.
    - destruct (paginator_lines self); [contradiction |]. unfold len in Hlen. cbn in Hlen. lia.
    - rewrite chunks_single; [reflexivity | exact Hne |]. unfold len in Hlen. lia. }
  rewrite Hone, embed_first_page. reflexivity.
Qed.

Lemma start_without_pages_witness :
  start (Return (mkMessage (Return tt))) (RedPaginator_init 7 (-1) None true)
    = mkStarted (Raise ValueError) (RedPaginator_init 7 (-1) None true) [] None /\
  (let self := add_lines "a" newline (RedPaginator_init 7 (sys_maxsize + 1) None true) in
   start (Return (mkMessage (Return tt))) self = mkStarted (Raise ValueError) self [] None) /\
  start (Return (mkMessage (Return tt))) (RedPaginator_init 7 10 None true)
    = mkStarted (Raise IndexError)
                (set_pages (Pages_init []) (RedPaginator_init 7 10 None true)) [] None.
Proof.
  split; [| split].
  - apply (start_without_pages (Return (mkMessage (Return tt)))
             (RedPaginator_init 7 (-1) None true)).
    left. vm_compute. reflexivity.
  - intros self. apply (start_without_pages (Return (mkMessage (Return tt))) self).
    right. vm_compute. reflexivity.
  - apply (start_without_pages (Return (mkMessage (Return tt)))
             (RedPaginator_init 7 10 None true)).
    + split; vm_compute; discriminate.
    + right. reflexivity.
Defined.

Lemma start_single_page_witness :
  let self := add_lines "b" newline (add_lines "a" newline
                (RedPaginator_init 7 10 (Some "List") true)) in
  start (Return (mkMessage (Return tt))) self =
  mkStarted (m <- Return (mkMessage (Return tt)) ;; Return (Some m))
            (set_pages (Pages_init [join (paginator_lines self)]) self)
            [SendEmbed (first_embed self (join (paginator_lines self)) 1) None]
            None.
Proof.
  intros self. apply (start_single_page (Return (mkMessage (Return tt))) self).
  - discriminate.
  - vm_compute. discriminate.
  - vm_compute. discriminate.
Defined.

(** X21: Whatever the number of lines, with [per_page] from 1 to
    [sys.maxsize] the pages [start] builds hold all the lines in order, there
    are [ceil(n / per_page)] of them, and the cursor is on the first. *)
Theorem start_builds_pages (answer : result Message) (self : RedPaginator) :
  1 <= paginator_per_page self <= sys_maxsize ->
  exists ps,
    paginator_pages (paginator (start answer self)) = Some ps /\
    join (pages ps) = join (paginator_lines self) /\
    total ps = ceil_div (len (paginator_lines self)) (paginator_per_page self) /\
    cur_page ps = 1.
Proof.
  intros Hpp. exists (Pages_init (pages_of self)).
  split; [| split; [| split]].
  - unfold start. rewrite (build_pages_ok self) by lia.
    destruct (embed (set_pages (Pages_init (pages_of self)) self)); [| reflexivity].
    destruct (negb (total (Pages_init (pages_of self)) >? 1)); [reflexivity |].
    destruct (PaginatorView_init _ _ _ _) as [[[] ?] ?]; [| reflexivity].
    destruct answer; reflexivity.
  - cbn [pages Pages_init]. unfold pages_of.
    destruct (Z.to_nat (paginator_per_page self)) as [| k] eqn:Hk; [lia |].
    apply join_chunks.
  - unfold total, pages_of. cbn [pages Pages_init]. unfold len at 1. rewrite length_map.
    destruct (Z.to_nat (paginator_per_page self)) as [| k] eqn:Hk; [lia |].
    fold (len (chunks_of (S k) (paginator_lines self))). rewrite chunks_of_count.
    replace (Z.of_nat (S k)) with (paginator_per_page self) by lia. reflexivity.
  - reflexivity.
Qed.

Lemma start_builds_pages_witness :
  let self := add_lines "c" newline (add_lines "b" newline (add_lines "a" newline
                (RedPaginator_init 7 2 None true))) in
  exists ps,
    paginator_pages (paginator (start (Return (mkMessage (Return tt))) self)) = Some ps /\
    join (pages ps) = join (paginator_lines self) /\
    total ps = ceil_div (len (paginator_lines self)) (paginator_per_page self) /\
    cur_page ps = 1.
Proof.
  intros self. apply (start_builds_pages (Return (mkMessage (Return tt))) self).
  split; vm_compute; discriminate.
Defined.

(** The controls of a new view: on page 1, first and previous are disabled. *)
Definition first_controls : list Button :=
  [ mkButton green "first" true;
    mkButton green "previous" true;
    mkButton green "next" false;
    mkButton green "last" false ].

(** X22: More lines than fit on one page: [start] sends the first [per_page]
    lines as page 1 of [ceil(n / per_page)], with the four controls of which
    first and previous are disabled, and, when the send succeeds, leaves a
    session whose view is attached to the message, owned by the author, and
    in a state from which the enablement table holds.  When the send fails
    the error comes out and there is no session.  The list of lines is one
    Python can hold: it has at most [sys.maxsize] items, and so [per_page] is
    a size [get_chunks] accepts. *)
Theorem start_multi_page (answer : result Message) (self : RedPaginator) :
  1 <= paginator_per_page self ->
  paginator_per_page self < len (paginator_lines self) ->
  len (paginator_lines self) <= sys_maxsize ->
  let ps := Pages_init (pages_of self) in
  let em := first_embed self
              (join (firstn (Z.to_nat (paginator_per_page self)) (paginator_lines self)))
              (ceil_div (len (paginator_lines self)) (paginator_per_page self)) in
  let v := mkView (paginator_author self) ps em (paginator_show_page_count self)
                  first_controls None in
  session_inv v /\
  start answer self =
  match answer with
  | Return m =>
      mkStarted (Return None) (set_pages ps self) [SendEmbed em (Some first_controls)]
                (Some (set_message m v))
  | Raise e =>
      mkStarted (Raise e) (set_pages ps self) [SendEmbed em (Some first_controls)] None
  end.
Proof.
  intros Hpp Hlen Hmax ps em v.
  destruct (Z.to_nat (paginator_per_page self)) as [| k] eqn:Hk; [lia |].
  destruct (chunks_many k (paginator_lines self)) as (ch & rest & Hchunks).
  { unfold len in Hlen. lia. }
  assert (Hpages : pages_of self
                   = join (firstn (S k) (paginator_lines self)) :: join ch :: map join rest).
  { unfold pages_of. rewrite Hk, Hchunks. reflexivity. }
  assert (Hcount : len (pages_of self)
                   = ceil_div (len (paginator_lines self)) (paginator_per_page self)).
  { unfold pages_of. unfold len at 1. rewrite length_map, Hk.
    fold (len (chunks_of (S k) (paginator_lines self))). rewrite chunks_of_count.
    replace (Z.of_nat (S k)) with (paginator_per_page self) by lia. reflexivity. }
  assert (Htwo : 2 <= len (pages_of self)).
  { rewrite Hpages. unfold len. cbn [List.length]. lia. }
  assert (Hem : embed (set_pages ps self) = Return em).
  { subst ps em. rewrite <- Hcount. rewrite Hpages at 1. rewrite embed_first_page.
    rewrite <- Hpages. reflexivity. }
  assert (Hview : PaginatorView_init (paginator_author self) ps em
                                     (paginator_show_page_count self) = (Return tt, v, [])).
  { reflexivity. }
  split.
  - pose proof (init_inv (paginator_author self) (pages_of self) em
                  (paginator_show_page_count self) Htwo) as [_ Hinv].
    fold ps in Hinv. rewrite Hview in Hinv. exact Hinv.
  - unfold start. rewrite (build_pages_ok self) by lia. fold ps.
    rewrite Hem.
    assert (Hgt : (total ps >? 1) = true).
    { apply Z.gtb_lt. unfold total. cbn [pages ps Pages_init]. lia. }
    rewrite Hgt. cbn [negb].
    change (paginator_author (set_pages ps self)) with (paginator_author self).
    change (paginator_show_page_count (set_pages ps self))
      with (paginator_show_page_count self).
    rewrite Hview. destruct answer; reflexivity.
Qed.

Lemma start_multi_page_witness :
  let self := add_lines "c" newline (add_lines "b" newline (add_lines "a" newline
                (RedPaginator_init 7 2 None true))) in
  let answer := Return (mkMessage (Return tt)) in
  let ps := Pages_init (pages_of self) in
  let em := first_embed self
              (join (firstn (Z.to_nat (paginator_per_page self)) (paginator_lines self)))
              (ceil_div (len (paginator_lines self)) (paginator_per_page self)) in
  let v := mkView (paginator_author self) ps em (paginator_show_page_count self)
                  first_controls None in
  session_inv v /\
  start answer self =
  mkStarted (Return None) (set_pages ps self) [SendEmbed em (Some first_controls)]
            (Some (set_message (mkMessage (Return tt)) v)).
Proof.
  intros self answer.
  apply (start_multi_page answer self).
  - vm_compute. discriminate.
  - vm_compute. reflexivity.
  - vm_compute. discriminate.
Defined.

(** Three lines, two to a page, as they come out of [start]. *)
Example start_three_lines :
  let self := add_lines "c" newline (add_lines "b" newline (add_lines "a" newline
                (RedPaginator_init 7 2 (Some "List") true))) in
  sent (start (Return (mkMessage (Return tt))) self) =
  [SendEmbed (mkEmbed "List" ("a" ++ newline ++ "b" ++ newline) (Some dark_embed)
                      (Some "Page 1 of 2"))
             (Some first_controls)].
Proof. vm_compute. reflexivity. Qed.

End SessionFacts.

(** * Lookups and loggers *)

Module LookupFacts.
Import Lookup.

Section GetOrFetchFacts.

Variable T : Type.

(** X23: The default stands in for an error of [fetch_<attr>], and only for
    that.  On a cache miss where the fetch raises [HTTPException] or
    [ValueError], a call with a default returns the default (be it [None])
    and a call without one raises the error.  Where [obj] has no
    [fetch_<attr>] (or calling it raises [AttributeError]) the call falls
    back on [_fetch_<attr>], and there the default is never used: a [None]
    from the fallback becomes [ValueError] and whatever it raises comes out,
    with or without a default, so the call does not return [None] on that
    path. *)
Theorem default_only_for_fetch_errors (obj : Methods T) (id : Z) (d : option T) :
  call (get_ obj) id = Return None ->
  (forall e,
     call (fetch_ obj) id = Raise e ->
     e = HTTPException \/ e = ValueError ->
     get_or_fetch obj id (Some d) = Return d /\
     get_or_fetch obj id None = Raise e) /\
  (call (fetch_ obj) id = Raise AttributeError ->
   get_or_fetch obj id (Some d) = get_or_fetch obj id None /\
   get_or_fetch obj id (Some d) <> Return None /\
   (call (_fetch_ obj) id = Return None -> get_or_fetch obj id (Some d) = Raise ValueError) /\
   (forall e, call (_fetch_ obj) id = Raise e -> get_or_fetch obj id (Some d) = Raise e)).
Proof.
  intros Hget. unfold get_or_fetch. rewrite Hget. cbn [bind]. split.
  - intros e Hfetch He. rewrite Hfetch. destruct He as [-> | ->]; split; reflexivity.
  - intros Hfetch. rewrite Hfetch.
    split; [reflexivity |]. split; [| split].
    + destruct (call (_fetch_ obj) id) as [[x |] | e]; discriminate.
    + intros ->. reflexivity.
    + intros e ->. reflexivity.
Qed.

End GetOrFetchFacts.

(** A guild cache that misses, with a fetch that fails, and one without
    [fetch_guild]. *)
Definition failing_fetch : Methods string :=
  mkMethods (Some (fun _ => Return None)) (Some (fun _ => Raise HTTPException)) None.

Definition only_fallback : Methods string :=
  mkMethods (Some (fun _ => Return None)) None (Some (fun _ => Return None)).

Lemma default_only_for_fetch_errors_witness :
  (get_or_fetch failing_fetch 1 (Some None) = Return None /\
   get_or_fetch failing_fetch 1 None = Raise HTTPException) /\
  (get_or_fetch only_fallback 1 (Some None) = get_or_fetch only_fallback 1 None /\
   get_or_fetch only_fallback 1 (Some None) <> Return None /\
   get_or_fetch only_fallback 1 (Some None) = Raise ValueError).
Proof.
  split.
  - destruct (default_only_for_fetch_errors string failing_fetch 1 None eq_refl)
      as [Hdefault _].
    apply (Hdefault HTTPException); [reflexivity | left; reflexivity].
  - destruct (default_only_for_fetch_errors string only_fallback 1 None eq_refl)
      as [_ Hfallback].
    destruct (Hfallback eq_refl) as (Hsame & Hnot & Hnone & _).
    split; [exact Hsame |]. split; [exact Hnot |]. apply Hnone. reflexivity.
Defined.

End LookupFacts.

Module LoggingFacts.
Import Logging.

(** The table of the docstring, with the numbers of the [logging] module:
    critical 50, error 40, warning 30, info 20, debug 10, and below it
    verbose 7 and trace 5. *)
Definition documented_levels : list Z := [50; 40; 30; 20; 10; 7; 5].

Lemma level_known (logger_level : Z) :
  0 <= logger_level <= 6 ->
  dict_get logger_level level_map
    = Some (nth (Z.to_nat logger_level) documented_levels 0).
Proof.
  intros Hc.
  assert (Hcases : logger_level = 0 \/ logger_level = 1 \/ logger_level = 2 \/
                   logger_level = 3 \/ logger_level = 4 \/ logger_level = 5 \/
                   logger_level = 6) by lia.
  destruct Hcases as [-> | [-> | [-> | [-> | [-> | [-> | ->]]]]]]; reflexivity.
Qed.

Section SilenceFacts.

Variable Logger : Type.
Variable getLogger : string -> Logger.
Variable same_logger : Logger -> Logger -> bool.

Hypothesis same_logger_eq : forall a b, same_logger a b = true <-> a = b.

Lemma logger_eq_dec (a b : Logger) : {a = b} + {a <> b}.
Proof.
  destruct (same_logger a b) eqn:Hs.
  - left. apply same_logger_eq. exact Hs.
  - right. intros ->.
    assert (Ht : same_logger b b = true) by (apply same_logger_eq; reflexivity).
    congruence.
Qed.

Lemma silence_loop (level : Z) (names : list string) :
  forall st : LogState Logger,
  exists st',
    for_each (silence_step getLogger same_logger level) st names = Return st' /\
    (forall l, In l (map getLogger names) -> fst st' l = level) /\
    (forall l, ~ In l (map getLogger names) -> fst st' l = fst st l) /\
    snd st' = snd st ++ map silenced names.
Proof.
  induction names as [| name names IH]; intros st.
  - exists st. cbn. rewrite app_nil_r.
    split; [reflexivity |]. split; [contradiction |]. split; reflexivity.
  - cbn [for_each]. unfold silence_step at 1. cbn [bind].
    destruct (IH (setLevel same_logger (getLogger name) level (fst st),
                  snd st ++ [silenced name]))
      as (st' & Hrun & Hin & Hout & Hlog).
    exists st'. cbn [fst snd map] in *. split; [exact Hrun |]. split; [| split].
    + intros l [<- | Hl].
      * destruct (in_dec logger_eq_dec (getLogger name) (map getLogger names))
          as [Hyes | Hno]; [apply Hin, Hyes |].
        rewrite (Hout _ Hno). unfold setLevel.
        replace (same_logger (getLogger name) (getLogger name)) with true
          by (symmetry; apply same_logger_eq; reflexivity).
        reflexivity.
      * apply Hin, Hl.
    + intros l Hl. rewrite Hout by (intros H; apply Hl; right; exact H).
      unfold setLevel. destruct (same_logger l (getLogger name)) eqn:Hs; [| reflexivity].
      exfalso. apply Hl. left. symmetry. apply same_logger_eq. exact Hs.
    + rewrite Hlog, <- app_assoc. reflexivity.
Qed.

(** X24: Only the codes 0 to 6 are levels, and they stand for the levels 50,
    40, 30, 20, 10, 7 and 5.  For such a code every logger that one of the
    names stands for ends at the level of the code, every other logger keeps
    its level, and [main_logger] gets one warning for each name, in order
    (twice for a name given twice).  For any other code the call raises
    [ValueError], whatever loggers are named. *)
Theorem silence_debug_loggers_outcome
        (logger_level : Z) (names : list string) (st : LogState Logger) :
  (0 <= logger_level <= 6 ->
   exists st',
     silence_debug_loggers getLogger same_logger logger_level names st = Return st' /\
     (forall l, In l (map getLogger names) ->
                fst st' l = nth (Z.to_nat logger_level) documented_levels 0) /\
     (forall l, ~ In l (map getLogger names) -> fst st' l = fst st l) /\
     snd st' = snd st ++ map silenced names) /\
  (logger_level < 0 \/ 6 < logger_level ->
   silence_debug_loggers getLogger same_logger logger_level names st = Raise ValueError).
Proof.
  unfold silence_debug_loggers. split.
  - intros Hc. rewrite (level_known logger_level Hc).
    destruct (silence_loop (nth (Z.to_nat logger_level) documented_levels 0) names st)
      as (st' & Hrun & Hin & Hout & Hlog).
    exists st'. repeat split; assumption.
  - intros Hc. unfold level_map. cbn [dict_get].
    repeat match goal with
           | |- context [?a =? logger_level] =>
               destruct (Z.eqb_spec a logger_level); [lia |]
           end.
    reflexivity.
Qed.

End SilenceFacts.

(** The loggers of Python 3.9 and later, each under the name it carries in
    the hierarchy: the root logger, whether asked for as [""] or as
    ["root"], is [""]. *)
Definition logger_named (name : string) : string :=
  if String.eqb name "root" then "" else name.

Definition quiet : LogState string := (fun _ => 30, []).

Lemma silence_debug_loggers_outcome_witness :
  (exists st',
     silence_debug_loggers logger_named String.eqb 5 ["discord"; "root"] quiet = Return st' /\
     (forall l, In l (map logger_named ["discord"; "root"]) ->
                fst st' l = nth (Z.to_nat 5) documented_levels 0) /\
     (forall l, ~ In l (map logger_named ["discord"; "root"]) -> fst st' l = fst quiet l) /\
     snd st' = snd quiet ++ map silenced ["discord"; "root"]) /\
  silence_debug_loggers logger_named String.eqb 7 ["discord"; "root"] quiet
    = Raise ValueError.
Proof.
  split.
  - apply (silence_debug_loggers_outcome string logger_named String.eqb String.eqb_eq
             5 ["discord"; "root"] quiet).
    lia.
  - apply (silence_debug_loggers_outcome string logger_named String.eqb String.eqb_eq
             7 ["discord"; "root"] quiet).
    right. lia.
Defined.

(** Verbose logging for a library and for the root logger, asked for by
    its name: the level read under [""] is the root logger's. *)
Example silence_two_loggers :
  match silence_debug_loggers logger_named String.eqb 5 ["discord"; "root"] quiet with
  | Return st =>
      (fst st (logger_named "discord"), fst st (logger_named ""), fst st (logger_named "red"),
       snd st) =
      (7, 7, 30, ["Silenced debug logger: discord."; "Silenced debug logger: root."])
  | Raise _ => False
  end.
Proof. vm_compute. reflexivity. Qed.

End LoggingFacts.

(** * Mentions *)

Module MentionFacts.
Import Mentions.

Fixpoint all_digits (s : string) : bool :=
  match s with
  | EmptyString => true
  | String ch s' => is_digit ch && all_digits s'
  end.

(** No [<] in the text. *)
Fixpoint no_lt (s : string) : bool :=
  match s with
  | EmptyString => true
  | String ch s' => negb (Ascii.eqb ch "<") && no_lt s'
  end.

Lemma length_append (s t : string) :
  String.length (s ++ t) = (String.length s + String.length t)%nat.
Proof. induction s as [| ch s IH]; cbn; [| rewrite IH]; reflexivity. Qed.

Lemma digit_value (ch : ascii) :
  is_digit ch = true -> 0 <= Z.of_nat (nat_of_ascii ch) - 48 <= 9.
Proof.
  unfold is_digit. intros H. apply andb_true_iff in H. destruct H as [H1 H2].
  apply Nat.leb_le in H1. apply Nat.leb_le in H2. lia.
Qed.

Lemma int_of_digits_from_bound (ds : string) :
  all_digits ds = true ->
  forall acc, 0 <= acc ->
    acc * 10 ^ Z.of_nat (String.length ds) <= int_of_digits_from acc ds
      < (acc + 1) * 10 ^ Z.of_nat (String.length ds).
Proof.
  induction ds as [| ch ds IH]; intros Hd acc Hacc.
  - cbn. lia.
  - cbn [all_digits] in Hd. apply andb_true_iff in Hd. destruct Hd as [Hch Hds].
    pose proof (digit_value ch Hch) as Hv.
    cbn [int_of_digits_from String.length].
    specialize (IH Hds (10 * acc + (Z.of_nat (nat_of_ascii ch) - 48)) ltac:(lia)).
    rewrite Nat2Z.inj_succ, Z.pow_succ_r by lia.
    assert (Hpos : 0 < 10 ^ Z.of_nat (String.length ds)) by (apply Z.pow_pos_nonneg; lia).
    nia.
Qed.

Lemma take_digits_spec (s : string) :
  all_digits (fst (take_digits s)) = true /\
  s = (fst (take_digits s) ++ snd (take_digits s))%string.
Proof.
  induction s as [| ch s [IHd IHs]]; cbn.
  - split; reflexivity.
  - destruct (is_digit ch) eqn:Hch.
    + destruct (take_digits s) as [ds rest]. cbn in *. rewrite Hch, IHd.
      split; [reflexivity |]. rewrite <- IHs. reflexivity.
    + split; reflexivity.
Qed.

Lemma take_digits_stops (ds rest : string) (ch : ascii) :
  all_digits ds = true ->
  is_digit ch = false ->
  take_digits (ds ++ String ch rest) = (ds, String ch rest).
Proof.
  intros Hd Hch. induction ds as [| d ds IH]; cbn.
  - rewrite Hch. reflexivity.
  - cbn [all_digits] in Hd. apply andb_true_iff in Hd. destruct Hd as [Hd1 Hd2].
    rewrite Hd1, (IH Hd2). reflexivity.
Qed.

(** What [match_at] finds is a number of at most twenty digits, and the
    match is not empty. *)
Lemma match_at_bound (prefix : string) (bang : bool) (s : string) (id : Z) (n : nat) :
  match_at prefix bang s = Some (id, n) ->
  0 <= id < 10 ^ 20 /\ (1 <= n)%nat.
Proof.
  unfold match_at. destruct (strip_prefix prefix s) as [s1 |]; [| discriminate].
  destruct (strip_bang bang s1) as [s2 banged].
  pose proof (take_digits_spec s2) as [Hd _].
  destruct (take_digits s2) as [ds s3]. cbn [fst] in Hd.
  destruct ((15 <=? String.length ds)%nat && (String.length ds <=? 20)%nat) eqn:Hlen;
    [| discriminate].
  apply andb_true_iff in Hlen. destruct Hlen as [_ H20]. apply Nat.leb_le in H20.
  destruct s3 as [| ch s3]; [discriminate |].
  destruct (Ascii.eqb ch ">"); [| discriminate].
  intros H. injection H as <- <-. split; [| lia].
  pose proof (int_of_digits_from_bound ds Hd 0 ltac:(lia)) as Hb.
  unfold int_of_digits.
  assert (Hp : 10 ^ Z.of_nat (String.length ds) <= 10 ^ 20).
  { apply Z.pow_le_mono_r; lia. }
  lia.
Qed.

Lemma findall_bound (prefix : string) (bang : bool) (s : string) :
  forall skip, Forall (fun id => 0 <= id < 10 ^ 20) (findall prefix bang s skip).
Proof.
  induction s as [| ch s IH]; intros skip; cbn [findall].
  - constructor.
  - destruct skip as [| k]; [| apply IH].
    destruct (match_at prefix bang (String ch s)) as [[id n] |] eqn:Hm; [| apply IH].
    constructor; [| apply IH].
    apply (match_at_bound prefix bang _ id n Hm).
Qed.

(** X25: Whatever the text, every id the three parsers return is a natural
    number below [10^20]: the pattern admits at most twenty digits. *)
Theorem mention_ids_bounded (text : string) :
  Forall (fun id => 0 <= id < 10 ^ 20) (parse_raw_mentions text) /\
  Forall (fun id => 0 <= id < 10 ^ 20) (parse_raw_role_mentions text) /\
  Forall (fun id => 0 <= id < 10 ^ 20) (parse_raw_channel_mentions text).
Proof. repeat split; apply findall_bound. Qed.

(** ** Reading mentions back *)

Lemma strip_prefix_app (p x : string) : strip_prefix p (p ++ x) = Some x.
Proof.
  induction p as [| ch p IH]; cbn; [reflexivity |].
  rewrite Ascii.eqb_refl. exact IH.
Qed.

Lemma strip_bang_digit (bang : bool) (d : ascii) (s : string) :
  is_digit d = true -> strip_bang bang (String d s) = (String d s, 0%nat).
Proof.
  intros Hd. unfold strip_bang.
  destruct (Ascii.eqb_spec d "!") as [-> | _]; [discriminate Hd |].
  rewrite andb_false_r. reflexivity.
Qed.

Lemma all_digits_no_lt (ds : string) : all_digits ds = true -> no_lt ds = true.
Proof.
  induction ds as [| d ds IH]; cbn; [reflexivity |].
  intros H. apply andb_true_iff in H. destruct H as [Hd Hds].
  rewrite (IH Hds), andb_true_r.
  destruct (Ascii.eqb_spec d "<") as [-> | _]; [discriminate Hd | reflexivity].
Qed.

Lemma no_lt_app (s t : string) : no_lt (s ++ t) = no_lt s && no_lt t.
Proof.
  induction s as [| ch s IH]; cbn; [reflexivity |].
  rewrite IH, andb_assoc. reflexivity.
Qed.

(** The pattern at the start of a mention written out. *)
Lemma match_at_token (prefix : string) (bang : bool) (ds post : string) :
  all_digits ds = true ->
  (15 <= String.length ds <= 20)%nat ->
  match_at prefix bang (prefix ++ ds ++ ">" ++ post)
    = Some (int_of_digits ds, (String.length prefix + 0 + String.length ds + 1)%nat).
Proof.
  intros Hd Hlen. unfold match_at. rewrite strip_prefix_app.
  destruct ds as [| d ds]; [cbn in Hlen; lia |].
  pose proof Hd as Hd'. cbn [all_digits] in Hd'. apply andb_true_iff in Hd'.
  destruct Hd' as [Hd1 _].
  change ((String d ds ++ ">" ++ post)%string) with (String d (ds ++ ">" ++ post)).
  rewrite (strip_bang_digit bang d _ Hd1).
  change (String d (ds ++ ">" ++ post)) with ((String d ds ++ String ">" post)%string).
  rewrite (take_digits_stops (String d ds) post ">" Hd eq_refl).
  destruct Hlen as [H15 H20].
  apply Nat.leb_le in H15. apply Nat.leb_le in H20. rewrite H15, H20. reflexivity.
Qed.

Lemma match_at_token_bang (prefix : string) (ds post : string) :
  all_digits ds = true ->
  (15 <= String.length ds <= 20)%nat ->
  match_at prefix true (prefix ++ "!" ++ ds ++ ">" ++ post)
    = Some (int_of_digits ds, (String.length prefix + 1 + String.length ds + 1)%nat).
Proof.
  intros Hd Hlen. unfold match_at. rewrite strip_prefix_app.
  change (("!" ++ ds ++ ">" ++ post)%string) with (String "!" (ds ++ String ">" post)).
  cbn [strip_bang andb Ascii.eqb Bool.eqb].
  rewrite (take_digits_stops ds post ">" Hd eq_refl).
  destruct Hlen as [H15 H20].
  apply Nat.leb_le in H15. apply Nat.leb_le in H20. rewrite H15, H20. reflexivity.
Qed.

Lemma findall_skip (prefix : string) (bang : bool) (m rest : string) (k : nat) :
  findall prefix bang (m ++ rest) (String.length m + k) = findall prefix bang rest k.
Proof.
  induction m as [| ch m IH]; cbn; [reflexivity | exact IH].
Qed.

Lemma match_at_no_lt (p : string) (bang : bool) (ch : ascii) (s : string) :
  Ascii.eqb ch "<" = false -> match_at (String "<" p) bang (String ch s) = None.
Proof.
  intros Hch. unfold match_at. cbn [strip_prefix].
  rewrite Ascii.eqb_sym, Hch. reflexivity.
Qed.

Lemma findall_no_lt (p : string) (bang : bool) (s : string) :
  no_lt s = true -> forall skip, findall (String "<" p) bang s skip = [].
Proof.
  induction s as [| ch s IH]; intros Hs skip; [reflexivity |].
  cbn [no_lt] in Hs. apply andb_true_iff in Hs. destruct Hs as [Hch Hs].
  apply negb_true_iff in Hch.
  cbn [findall]. destruct skip as [| k]; [| apply IH, Hs].
  rewrite (match_at_no_lt p bang ch s Hch). apply IH, Hs.
Qed.

Lemma findall_pre (p : string) (bang : bool) (pre s : string) :
  no_lt pre = true ->
  findall (String "<" p) bang (pre ++ s) 0 = findall (String "<" p) bang s 0.
Proof.
  induction pre as [| ch pre IH]; intros Hpre; [reflexivity |].
  cbn [no_lt] in Hpre. apply andb_true_iff in Hpre. destruct Hpre as [Hch Hpre].
  apply negb_true_iff in Hch.
  cbn [String.append findall]. rewrite (match_at_no_lt p bang ch _ Hch). apply IH, Hpre.
Qed.

(** A token the pattern matches, between texts without [<], is the one
    match. *)
Lemma findall_hit (p mid : string) (bang : bool) (pre ds post : string) (id : Z) :
  no_lt pre = true ->
  no_lt post = true ->
  match_at (String "<" p) bang (String "<" p ++ mid ++ ds ++ ">" ++ post)
    = Some (id, (String.length (String "<" p) + String.length mid + String.length ds + 1)%nat) ->
  findall (String "<" p) bang (pre ++ String "<" p ++ mid ++ ds ++ ">" ++ post) 0 = [id].
Proof.
  intros Hpre Hpost Hm. rewrite (findall_pre p bang pre _ Hpre).
  cbn [String.append] in Hm |- *. cbn [findall]. rewrite Hm. f_equal.
  replace (p ++ mid ++ ds ++ String ">" post)%string
    with ((p ++ mid ++ ds ++ ">") ++ post)%string
    by (rewrite !UtilsFacts.append_assoc; reflexivity).
  replace (String.length (String "<" p) + String.length mid + String.length ds + 1 - 1)%nat
    with (String.length (p ++ mid ++ ds ++ ">") + 0)%nat
    by (rewrite !length_append; cbn [String.length]; lia).
  rewrite findall_skip. apply findall_no_lt, Hpost.
Qed.

(** A token the pattern does not match, without a further [<], gives
    nothing. *)
Lemma findall_miss (p : string) (bang : bool) (pre rest : string) :
  no_lt pre = true ->
  no_lt rest = true ->
  match_at (String "<" p) bang (String "<" rest) = None ->
  findall (String "<" p) bang (pre ++ String "<" rest) 0 = [].
Proof.
  intros Hpre Hrest Hm. rewrite (findall_pre p bang pre _ Hpre).
  cbn [findall]. rewrite Hm. apply findall_no_lt, Hrest.
Qed.

(** X26: Mentions are read back: in a text with one mention and no other [<],
    the parser of its kind returns the number written in it, for user
    mentions with and without [!], for role mentions and for channel
    mentions, whenever the number has 15 to 20 digits. *)
Theorem mention_round_trip (pre ds post : string) :
  all_digits ds = true ->
  (15 <= String.length ds <= 20)%nat ->
  no_lt pre = true ->
  no_lt post = true ->
  parse_raw_mentions (pre ++ "<@" ++ ds ++ ">" ++ post) = [int_of_digits ds] /\
  parse_raw_mentions (pre ++ "<@" ++ "!" ++ ds ++ ">" ++ post) = [int_of_digits ds] /\
  parse_raw_role_mentions (pre ++ "<@&" ++ ds ++ ">" ++ post) = [int_of_digits ds] /\
  parse_raw_channel_mentions (pre ++ "<#" ++ ds ++ ">" ++ post) = [int_of_digits ds].
Proof.
  intros Hd Hlen Hpre Hpost.
  unfold parse_raw_mentions, parse_raw_role_mentions, parse_raw_channel_mentions.
  split; [| split; [| split]].
  - apply (findall_hit "@" "" true pre ds post); try assumption.
    apply (match_at_token "<@" true ds post Hd Hlen).
  - apply (findall_hit "@" "!" true pre ds post); try assumption.
    apply (match_at_token_bang "<@" ds post Hd Hlen).
  - apply (findall_hit "@&" "" false pre ds post); try assumption.
    apply (match_at_token "<@&" false ds post Hd Hlen).
  - apply (findall_hit "#" "" false pre ds post); try assumption.
    apply (match_at_token "<#" false ds post Hd Hlen).
Qed.

Lemma mention_round_trip_witness :
  let ds := "123456789012345678" in
  parse_raw_mentions ("hello " ++ "<@" ++ ds ++ ">" ++ "!") = [int_of_digits ds] /\
  parse_raw_mentions ("hello " ++ "<@" ++ "!" ++ ds ++ ">" ++ "!") = [int_of_digits ds] /\
  parse_raw_role_mentions ("hello " ++ "<@&" ++ ds ++ ">" ++ "!") = [int_of_digits ds] /\
  parse_raw_channel_mentions ("hello " ++ "<#" ++ ds ++ ">" ++ "!") = [int_of_digits ds].
Proof.
  apply (mention_round_trip "hello " "123456789012345678" "!").
  - reflexivity.
  - cbn. lia.
  - reflexivity.
  - reflexivity.
Defined.

(** ** Telling the kinds of mention apart *)

Lemma no_lt_token (mid ds post : string) :
  no_lt mid = true -> all_digits ds = true -> no_lt post = true ->
  no_lt (mid ++ ds ++ ">" ++ post) = true.
Proof.
  intros Hmid Hd Hpost.
  rewrite !no_lt_app, Hmid, (all_digits_no_lt ds Hd), Hpost. reflexivity.
Qed.

Lemma strip_prefix_digit (ch : ascii) (p ds rest : string) :
  is_digit ch = false ->
  all_digits ds = true ->
  (1 <= String.length ds)%nat ->
  strip_prefix (String ch p) (ds ++ rest) = None.
Proof.
  intros Hch Hd Hlen. destruct ds as [| d ds]; [cbn in Hlen; lia |].
  cbn [all_digits] in Hd. apply andb_true_iff in Hd. destruct Hd as [Hd1 _].
  cbn [String.append strip_prefix].
  destruct (Ascii.eqb_spec ch d) as [-> | _]; [congruence | reflexivity].
Qed.

(** X27: No parser takes a mention of another kind for one of its own: in a
    text with one mention and no other [<], the role and channel parsers
    return nothing for a user mention (with or without [!]), the user and
    channel parsers nothing for a role mention, and the user and role parsers
    nothing for a channel mention. *)
Theorem mention_kinds_are_disjoint (pre ds post : string) :
  all_digits ds = true ->
  (15 <= String.length ds <= 20)%nat ->
  no_lt pre = true ->
  no_lt post = true ->
  let user := (pre ++ "<@" ++ ds ++ ">" ++ post)%string in
  let nick := (pre ++ "<@!" ++ ds ++ ">" ++ post)%string in
  let role := (pre ++ "<@&" ++ ds ++ ">" ++ post)%string in
  let channel := (pre ++ "<#" ++ ds ++ ">" ++ post)%string in
  parse_raw_role_mentions user = [] /\ parse_raw_channel_mentions user = [] /\
  parse_raw_role_mentions nick = [] /\ parse_raw_channel_mentions nick = [] /\
  parse_raw_mentions role = [] /\ parse_raw_channel_mentions role = [] /\
  parse_raw_mentions channel = [] /\ parse_raw_role_mentions channel = [].
Proof.
  intros Hd Hlen Hpre Hpost user nick role channel.
  subst user nick role channel.
  unfold parse_raw_mentions, parse_raw_role_mentions, parse_raw_channel_mentions.
  assert (H1 : (1 <= String.length ds)%nat) by lia.
  repeat split.
  - apply (findall_miss "@&" false pre ("@" ++ ds ++ ">" ++ post) Hpre).
    + apply (no_lt_token "@" ds post eq_refl Hd Hpost).
    + unfold match_at.
      change (strip_prefix "<@&" (String "<" ("@" ++ ds ++ ">" ++ post)))
        with (strip_prefix "&" (ds ++ ">" ++ post)).
      rewrite (strip_prefix_digit "&" "" ds _ eq_refl Hd H1). reflexivity.
  - apply (findall_miss "#" false pre ("@" ++ ds ++ ">" ++ post) Hpre).
    + apply (no_lt_token "@" ds post eq_refl Hd Hpost).
    + reflexivity.
  - apply (findall_miss "@&" false pre ("@!" ++ ds ++ ">" ++ post) Hpre).
    + apply (no_lt_token "@!" ds post eq_refl Hd Hpost).
    + reflexivity.
  - apply (findall_miss "#" false pre ("@!" ++ ds ++ ">" ++ post) Hpre).
    + apply (no_lt_token "@!" ds post eq_refl Hd Hpost).
    + reflexivity.
  - apply (findall_miss "@" true pre ("@&" ++ ds ++ ">" ++ post) Hpre).
    + apply (no_lt_token "@&" ds post eq_refl Hd Hpost).
    + reflexivity.
  - apply (findall_miss "#" false pre ("@&" ++ ds ++ ">" ++ post) Hpre).
    + apply (no_lt_token "@&" ds post eq_refl Hd Hpost).
    + reflexivity.
  - apply (findall_miss "@" true pre ("#" ++ ds ++ ">" ++ post) Hpre).
    + apply (no_lt_token "#" ds post eq_refl Hd Hpost).
    + reflexivity.
  - apply (findall_miss "@&" false pre ("#" ++ ds ++ ">" ++ post) Hpre).
    + apply (no_lt_token "#" ds post eq_refl Hd Hpost).
    + reflexivity.
Qed.

Lemma mention_kinds_are_disjoint_witness :
  let ds := "123456789012345678" in
  let user := ("hello " ++ "<@" ++ ds ++ ">" ++ "!")%string in
  let nick := ("hello " ++ "<@!" ++ ds ++ ">" ++ "!")%string in
  let role := ("hello " ++ "<@&" ++ ds ++ ">" ++ "!")%string in
  let channel := ("hello " ++ "<#" ++ ds ++ ">" ++ "!")%string in
  parse_raw_role_mentions user = [] /\ parse_raw_channel_mentions user = [] /\
  parse_raw_role_mentions nick = [] /\ parse_raw_channel_mentions nick = [] /\
  parse_raw_mentions role = [] /\ parse_raw_channel_mentions role = [] /\
  parse_raw_mentions channel = [] /\ parse_raw_role_mentions channel = [].
Proof.
  apply (mention_kinds_are_disjoint "hello " "123456789012345678" "!").
  - reflexivity.
  - cbn. lia.
  - reflexivity.
  - reflexivity.
Defined.

(** A number of fewer than 15 or more than 20 digits is no mention, and
    several mentions come out in the order of the text. *)
Example mentions_in_text :
  parse_raw_mentions "<@12345678901234> and <@123456789012345678901>" = [] /\
  parse_raw_mentions "<@!111111111111111> then <@222222222222222>, not <@&333333333333333>"
    = [111111111111111; 222222222222222] /\
  parse_raw_mentions "<@<@!111111111111111>>" = [111111111111111].
Proof. vm_compute. repeat split. Qed.

End MentionFacts.

(** * Decorating embeds *)

Module ModifyFacts.
Import Paginator PagesFacts Modify.

(** A url argument that has a url for each of the first [n] embeds. *)
Definition covers (u : option UrlArg) (n : Z) : Prop :=
  match url_given u with
  | Some (ManyUrls urls) => n <= len urls
  | _ => True
  end.

Section ModifyEmbedsFacts.

Variable title_kwargs : option TitleKwargs.
Variable author_kwargs : option Author.
Variable footer_kwargs : option FooterKwargs.
Variable thumbnail_image_url : option UrlArg.
Variable image_url : option UrlArg.
Variable show_page_number : bool.

Let body := modify_body title_kwargs author_kwargs footer_kwargs thumbnail_image_url
                        image_url show_page_number.
Let loop := modify_loop title_kwargs author_kwargs footer_kwargs thumbnail_image_url
                        image_url show_page_number.
Let decorated := decorate title_kwargs author_kwargs footer_kwargs show_page_number.

Lemma url_at_covered (u : option UrlArg) (v : UrlArg) (m i : Z) :
  covers u m -> url_given u = Some v -> 0 <= i < m -> exists url, url_at v i = Return url.
Proof.
  unfold covers. intros Hc Hu Hi. rewrite Hu in Hc. destruct v as [url | urls]; cbn.
  - exists url. reflexivity.
  - destruct (list_getitem_in_range urls i) as (url & Hurl & _); [lia |].
    exists url. exact Hurl.
Qed.

(** The embed an iteration leaves when both url arguments reach far
    enough. *)
Definition with_urls (i : Z) (em : RichEmbed) : RichEmbed :=
  let em :=
    match url_given thumbnail_image_url with
    | Some u => match url_at u i with
                | Return url => set_thumbnail url em
                | Raise _ => em
                end
    | None => em
    end in
  match url_given image_url with
  | Some u => match url_at u i with
              | Return url => set_image url em
              | Raise _ => em
              end
  | None => em
  end.

Lemma body_returns (n m i : Z) (em : RichEmbed) :
  covers thumbnail_image_url m ->
  covers image_url m ->
  0 <= i < m ->
  body n i em = (Return tt, with_urls i (decorated n i em)).
Proof.
  intros Ht Hi Hr. unfold body, modify_body, with_urls. fold (decorated n i em).
  destruct (url_given thumbnail_image_url) as [u |] eqn:Hu.
  - destruct (url_at_covered _ u m i Ht Hu Hr) as [url ->].
    destruct (url_given image_url) as [w |] eqn:Hw; [| reflexivity].
    destruct (url_at_covered _ w m i Hi Hw Hr) as [url' ->]. reflexivity.
  - destruct (url_given image_url) as [w |] eqn:Hw; [| reflexivity].
    destruct (url_at_covered _ w m i Hi Hw Hr) as [url' ->]. reflexivity.
Qed.

(** The embeds from index [i] on, each as its iteration leaves it. *)
Fixpoint finished (n i : Z) (embeds : list RichEmbed) : list RichEmbed :=
  match embeds with
  | [] => []
  | em :: rest => with_urls i (decorated n i em) :: finished n (i + 1) rest
  end.

Lemma modify_loop_returns (n m : Z) (embeds : list RichEmbed) :
  covers thumbnail_image_url m ->
  covers image_url m ->
  forall i, 0 <= i -> i + len embeds <= m ->
    loop n i embeds = (None, finished n i embeds).
Proof.
  intros Ht Hi. induction embeds as [| em rest IH]; intros i H0 Hm.
  - reflexivity.
  - unfold len in Hm. cbn [List.length] in Hm.
    unfold loop. cbn [modify_loop finished]. fold body. fold loop.
    rewrite (body_returns n m i em Ht Hi) by lia.
    rewrite IH by (unfold len; lia). reflexivity.
Qed.


Lemma finished_length (n : Z) (embeds : list RichEmbed) :
  forall i, List.length (finished n i embeds) = List.length embeds.
Proof. induction embeds as [| em rest IH]; intros i; cbn; [| rewrite IH]; reflexivity. Qed.

Lemma with_urls_keeps (i : Z) (em : RichEmbed) :
  rich_title (with_urls i em) = rich_title em /\
  rich_description (with_urls i em) = rich_description em /\
  rich_color (with_urls i em) = rich_color em /\
  rich_url (with_urls i em) = rich_url em /\
  rich_footer_text (with_urls i em) = rich_footer_text em /\
  rich_footer_icon_url (with_urls i em) = rich_footer_icon_url em.
Proof.
  unfold with_urls.
  destruct (url_given thumbnail_image_url) as [u |]; [destruct (url_at u i) |];
    (destruct (url_given image_url) as [w |]; [destruct (url_at w i) |]);
    repeat split.
Qed.




Lemma decorated_titles (k : TitleKwargs) (n i : Z) (em : RichEmbed) :
  title_kwargs = Some k ->
  rich_title (decorated n i em) = tk_title k /\
  rich_color (decorated n i em) = tk_color k /\
  rich_url (decorated n i em) = tk_url k.
Proof.
  intros Hk. unfold decorated, decorate. rewrite Hk.
  destruct author_kwargs; destruct footer_kwargs;
    destruct show_page_number; unfold number_footer; cbn;
    try match goal with |- context [nonempty ?t] => destruct (nonempty t) end;
    repeat split.
Qed.

Lemma finished_titles (k : TitleKwargs) (embeds : list RichEmbed) :
  title_kwargs = Some k ->
  forall n i,
    Forall (fun em' => rich_title em' = tk_title k /\
                       rich_color em' = tk_color k /\
                       rich_url em' = tk_url k) (finished n i embeds).
Proof.
  intros Hk. induction embeds as [| em rest IH]; intros n i; cbn [finished]; constructor.
  - destruct (with_urls_keeps i (decorated n i em)) as (H1 & _ & H2 & H3 & _).
    rewrite H1, H2, H3. apply decorated_titles. exact Hk.
  - apply IH.
Qed.

(** X29: A [title_kwargs] with at least one key, whichever it is, sets
    title, colour and url of every embed to what it holds under these three
    keys, and clears those it does not hold: with a title only, the colours
    of the embeds are gone, and with other keys only, title, colour and url
    are all three cleared. *)
Theorem title_kwargs_overwrite (k : TitleKwargs) (embeds : list RichEmbed) :
  title_kwargs = Some k ->
  covers thumbnail_image_url (len embeds) ->
  covers image_url (len embeds) ->
  exists embeds',
    modify_embeds title_kwargs author_kwargs footer_kwargs thumbnail_image_url image_url
                  show_page_number embeds = (Return embeds', embeds') /\
    List.length embeds' = List.length embeds /\
    Forall (fun em' => rich_title em' = tk_title k /\
                       rich_color em' = tk_color k /\
                       rich_url em' = tk_url k) embeds'.
Proof.
  intros Hk Ht Hi. exists (finished (len embeds) 0 embeds).
  unfold modify_embeds. fold loop.
  rewrite (modify_loop_returns (len embeds) (len embeds) embeds Ht Hi 0) by lia.
  split; [reflexivity |]. split; [apply finished_length |].
  apply finished_titles. exact Hk.
Qed.



End ModifyEmbedsFacts.

(** Three embeds as [create_embeds] makes them, with colour 7. *)
Definition three_embeds : list RichEmbed :=
  map of_embed [mkEmbed "" "a" (Some 7) None; mkEmbed "" "b" (Some 7) None;
                mkEmbed "" "c" (Some 7) None].

Definition titled : option TitleKwargs := Some (mkTitleKwargs (Some "Members") None None).

Definition credits : option FooterKwargs := Some (mkFooterKwargs (Some "Red") (Some "icon")).


(** A dict whose keys are none of the three that are read, such as the
    [{"name": "Lemon"}] the docstring means. *)
Definition other_keys : option TitleKwargs := Some (mkTitleKwargs None None None).

Lemma title_kwargs_overwrite_witness :
  (exists embeds',
     modify_embeds titled None None None None false three_embeds = (Return embeds', embeds') /\
     List.length embeds' = List.length three_embeds /\
     Forall (fun em' => rich_title em' = Some "Members" /\
                        rich_color em' = None /\
                        rich_url em' = None) embeds') /\
  (exists embeds',
     modify_embeds other_keys None None None None false three_embeds
       = (Return embeds', embeds') /\
     List.length embeds' = List.length three_embeds /\
     Forall (fun em' => rich_title em' = None /\
                        rich_color em' = None /\
                        rich_url em' = None) embeds').
Proof.
  split.
  - apply (title_kwargs_overwrite titled None None None None false
             (mkTitleKwargs (Some "Members") None None) three_embeds).
    + reflexivity.
    + exact I.
    + exact I.
  - apply (title_kwargs_overwrite other_keys None None None None false
             (mkTitleKwargs None None None) three_embeds).
    + reflexivity.
    + exact I.
    + exact I.
Defined.


(** The three embeds numbered, and with a thumbnail list one short. *)
Example decorate_three_embeds :
  map rich_footer_text (snd (modify_embeds None None credits None None true three_embeds))
    = [Some "Red | Page 1/3"; Some "Red | Page 2/3"; Some "Red | Page 3/3"] /\
  fst (modify_embeds None None None (Some (ManyUrls ["t1"; "t2"])) None true three_embeds)
    = Raise IndexError /\
  map (fun em => (rich_thumbnail em, rich_footer_text em))
      (snd (modify_embeds None None None (Some (ManyUrls ["t1"; "t2"])) None true three_embeds))
    = [(Some "t1", Some "Page 1/3"); (Some "t2", Some "Page 2/3"); (None, Some "Page 3/3")].
Proof. vm_compute. repeat split. Qed.

End ModifyFacts.
